(** * SimpleSysMon: a shallow embedding of [sysmon.cpp]

    The program is a single translation unit: a handful of readers of
    [/proc] and one interactive loop in [main].  The embedding follows the
    source top to bottom.  Machine integers are [Z] with their C++ ranges
    written out, [double] is IEEE-754 binary64 as specified by the standard
    library's [SpecFloat], the [std::map] carried between cycles is a
    [gmap], and every call into the operating system reads a field of an
    explicit [World] value, one per loop iteration. *)

From Stdlib Require Import ZArith Bool Ascii String List Lia.
From Stdlib Require Import Sorting.Sorted Sorting.Permutation.
From Stdlib Require Import Floats.SpecFloat.
From stdpp Require Import base option list gmap strings pretty.

Local Open Scope string_scope.
Local Open Scope list_scope.
Local Open Scope Z_scope.

(** ** Machine integers (LP64 Linux) *)

Module MachInt.

Definition INT_MIN : Z := - 2 ^ 31.
Definition INT_MAX : Z := 2 ^ 31 - 1.
Definition LONG_MIN : Z := - 2 ^ 63.
Definition LONG_MAX : Z := 2 ^ 63 - 1.
Definition UINT_MAX : Z := 2 ^ 32 - 1.
Definition ULONG_MAX : Z := 2 ^ 64 - 1.

Definition in_int (z : Z) : bool := (INT_MIN <=? z) && (z <=? INT_MAX).
Definition in_long (z : Z) : bool := (LONG_MIN <=? z) && (z <=? LONG_MAX).

(** [unsigned long] and [unsigned long long] are both 64 bits wide and
    wrap around. *)
Definition wrap64 (z : Z) : Z := z mod 2 ^ 64.

(** Conversion of a [size_t] to [int], as in [(int)procs.size()]. *)
Definition to_int (z : Z) : Z := (z + 2 ^ 31) mod 2 ^ 32 - 2 ^ 31.

End MachInt.
Import MachInt.

(** ** Faults

    Signed overflow is undefined behaviour in C++; [std::stoul], [std::stol]
    and [std::stoi] throw, and nothing in the program catches.  Either one
    ends the run, so the embedding threads a [result] through every
    computation that can reach them. *)

Inductive fault : Set :=
| SignedOverflow          (* undefined behaviour *)
| OutOfBounds             (* undefined behaviour: index outside a vector *)
| InvalidArgument         (* std::invalid_argument *)
| OutOfRange.             (* std::out_of_range *)

Inductive result (A : Type) : Type :=
| Ok (a : A)
| Fault (f : fault).
Arguments Ok {A} a.
Arguments Fault {A} f.

#[global] Instance result_ret : MRet result := fun _ a => Ok a.
#[global] Instance result_bind : MBind result := fun _ _ k r =>
  match r with
  | Ok a => k a
  | Fault f => Fault f
  end.

Definition is_ok {A : Type} (r : result A) : Prop := exists a, r = Ok a.

Definition int_add (a b : Z) : result Z :=
  if in_int (a + b) then Ok (a + b) else Fault SignedOverflow.
Definition int_sub (a b : Z) : result Z :=
  if in_int (a - b) then Ok (a - b) else Fault SignedOverflow.
Definition long_mul (a b : Z) : result Z :=
  if in_long (a * b) then Ok (a * b) else Fault SignedOverflow.

(** ** Doubles

    [double] is binary64: 53 bits of precision, exponents below 1024.  The
    operations are the standard library's executable specification of
    IEEE-754 arithmetic with rounding to nearest, ties to even. *)

Module Double.

Definition prec : Z := 53.
Definition emax : Z := 1024.

Definition double : Set := spec_float.

(** Integer to floating conversion, for [long] and [unsigned long] alike. *)
Definition of_Z (z : Z) : double := binary_normalize prec emax z 0 false.

Definition mul (x y : double) : double := SFmul prec emax x y.
Definition div (x y : double) : double := SFdiv prec emax x y.
Definition ltb (x y : double) : bool := SFltb x y.
Definition leb (x y : double) : bool := SFleb x y.

(** The literals [0.0], [100.0] and [1024.0]. *)
Definition zero : double := S754_zero false.
Definition d100 : double := S754_finite false 7036874417766400 (-46).
Definition d1024 : double := S754_finite false 4503599627370496 (-42).

Definition is_nan (x : double) : bool :=
  match x with S754_nan => true | _ => false end.

(** A number of sign [s]: a zero, a finite value or an infinity. *)
Definition signed (s : bool) (x : double) : Prop :=
  match x with
  | S754_zero s' | S754_infinity s' | S754_finite s' _ _ => s' = s
  | S754_nan => False
  end.

(** A finite value other than zero, of sign [s]. *)
Definition finite (s : bool) (x : double) : Prop :=
  exists m e, x = S754_finite s m e.

(** A normal number of sign [s]: a full 53-bit mantissa, and an
    exponent far from the ends of the range. *)
Definition normal (s : bool) (x : double) : Prop :=
  exists m e, x = S754_finite s m e
    /\ 2 ^ 52 <= Z.pos m < 2 ^ 53 /\ -300 <= e <= 300.

(** The number twice as large: same mantissa, next exponent. *)
Definition twice (x : double) : double :=
  match x with
  | S754_finite s m e => S754_finite s m (e + 1)
  | _ => x
  end.

(** The literal [2.0]. *)
Definition two : double := S754_finite false 4503599627370496 (-51).

Arguments of_Z : simpl never.
Arguments mul : simpl never.
Arguments div : simpl never.

End Double.
Import Double.

(** ** Text helpers

    The C library predicates and the numeric conversions of [<string>], as
    far as the program uses them: C locale, base 10. *)

Definition char_code (c : ascii) : Z := Z.of_N (N_of_ascii c).

Definition isdigit (c : ascii) : bool :=
  (48 <=? char_code c) && (char_code c <=? 57).

Definition isspace (c : ascii) : bool :=
  (char_code c =? 32) || ((9 <=? char_code c) && (char_code c <=? 13)).

Definition chars (s : string) : list ascii := list_ascii_of_string s.

(** [while (iss >> token) toks.push_back(token)]: the maximal runs of
    characters that are not white space, in order. *)
Fixpoint words_from (cur : string) (s : string) : list string :=
  match s with
  | EmptyString => match cur with EmptyString => [] | _ => [cur] end
  | String c s' =>
      if isspace c
      then match cur with
           | EmptyString => words_from EmptyString s'
           | _ => cur :: words_from EmptyString s'
           end
      else words_from (cur +:+ String c EmptyString) s'
  end.

Definition words (s : string) : list string := words_from EmptyString s.

Fixpoint skip_space (s : string) : string :=
  match s with
  | String c s' => if isspace c then skip_space s' else s
  | EmptyString => s
  end.

(** Value of the longest prefix of decimal digits, [None] when it is
    empty. *)
Fixpoint digits_prefix (acc : option Z) (s : string) : option Z :=
  match s with
  | String c s' =>
      if isdigit c
      then digits_prefix (Some (10 * default 0 acc + (char_code c - 48))) s'
      else acc
  | EmptyString => acc
  end.

(** The subject sequence of [strtol] and [strtoul]: leading white space,
    an optional sign, digits.  Returns the sign and the magnitude. *)
Definition split_sign (s : string) : bool * string :=
  match s with
  | String "-" r => (true, r)
  | String "+" r => (false, r)
  | _ => (false, s)
  end.

Definition strto (s : string) : option (bool * Z) :=
  let '(neg, s2) := split_sign (skip_space s) in
  (fun v => (neg, v)) <$> digits_prefix None s2.

Definition stoul (s : string) : result Z :=
  match strto s with
  | None => Fault InvalidArgument
  | Some (neg, v) =>
      if v <=? ULONG_MAX
      then Ok (if neg then wrap64 (- v) else v)
      else Fault OutOfRange
  end.

Definition stol (s : string) : result Z :=
  match strto s with
  | None => Fault InvalidArgument
  | Some (neg, v) =>
      let z := if neg then - v else v in
      if in_long z then Ok z else Fault OutOfRange
  end.

Definition stoi (s : string) : result Z :=
  match strto s with
  | None => Fault InvalidArgument
  | Some (neg, v) =>
      let z := if neg then - v else v in
      if in_int z then Ok z else Fault OutOfRange
  end.

(** [iss >> p.uid] for the 32-bit unsigned [uid_t]: a failed extraction
    stores zero, an overflowing one the largest value. *)
Definition extract_uint (s : string) : Z :=
  match strto s with
  | None => 0
  | Some (neg, v) =>
      if v <=? UINT_MAX
      then (if neg then (- v) mod 2 ^ 32 else v)
      else UINT_MAX
  end.

(** ** [struct ProcInfo] *)

Record ProcInfo : Set := mkProcInfo {
  pid : Z;                (* int *)
  uid : Z;                (* uid_t *)
  user : string;
  cmd : string;
  utime : Z;              (* unsigned long *)
  stime : Z;              (* unsigned long *)
  rss : Z;                (* long *)
  vsize : Z;              (* unsigned long *)
  cpu_percent : double;
  mem_percent : double
}.

(** ** The operating system, as one loop iteration sees it *)

(** The eight counters of the first line of [/proc/stat], as
    [operator>>] leaves them in the locals of [read_total_jiffies]. *)
Record CpuStat : Set := mkCpuStat {
  cs_user : Z; cs_nice : Z; cs_system : Z; cs_idle : Z;
  cs_iowait : Z; cs_irq : Z; cs_softirq : Z; cs_steal : Z
}.

Record World : Type := mkWorld {
  (** [/proc/stat] *)
  w_cpu : CpuStat;
  (** [/proc/meminfo] as the successive [key value unit] triples that the
      extraction loop of [read_mem_total_kb] obtains *)
  w_meminfo : list (string * Z * string);
  (** the names [readdir] returns for [/proc]; [None] when [opendir]
      fails *)
  w_proc_dir : option (list string);
  (** first line of [/proc/<pid>/stat]; [None] when the file cannot be
      opened *)
  w_stat : Z -> option string;
  (** lines of [/proc/<pid>/status]; [None] when it cannot be opened *)
  w_status : Z -> option (list string);
  (** [getpwuid]: the [pw_name] of the entry, if there is one *)
  w_passwd : Z -> option string;
  (** the value found in [ProcInfo::uid], which has no default member
      initialiser, when nothing was stored into it *)
  w_indeterminate_uid : Z;
  (** [getmaxyx]: the number of rows of the screen *)
  w_rows : Z;
  (** [getch] *)
  w_key : Z;
  (** [kill(pid, SIGTERM)] *)
  w_kill : Z -> Z
}.

(** ** The readers *)

Definition uid_to_user (w : World) (u : Z) : string :=
  match w_passwd w u with
  | Some name => name
  | None => pretty u
  end.

Definition read_total_jiffies (w : World) : Z :=
  let c := w_cpu w in
  wrap64 (cs_user c + cs_nice c + cs_system c + cs_idle c
          + cs_iowait c + cs_irq c + cs_softirq c + cs_steal c).

Fixpoint find_mem_total (l : list (string * Z * string)) : Z :=
  match l with
  | [] => 0
  | (key, value, _) :: l' =>
      if String.eqb key "MemTotal:" then value else find_mem_total l'
  end.

(** The value is an [unsigned long long]. *)
Definition read_mem_total_kb (w : World) : Z :=
  wrap64 (find_mem_total (w_meminfo w)).

Definition is_number (s : string) : bool :=
  negb (String.eqb s "") && forallb isdigit (chars s).

Fixpoint collect_pids (names : list string) : result (list Z) :=
  match names with
  | [] => Ok []
  | name :: names' =>
      if is_number name
      then p ← stoi name; ps ← collect_pids names'; Ok (p :: ps)
      else collect_pids names'
  end.

Definition list_pids (w : World) : result (list Z) :=
  match w_proc_dir w with
  | None => Ok []
  | Some names => collect_pids names
  end.

Definition tok (toks : list string) (i : nat) : string :=
  default "" (toks !! i).

Definition first_char (s : string) : option ascii := String.get 0 s.
Definition last_char (s : string) : option ascii :=
  String.get (Nat.pred (String.length s)) s.

Definition strip_parens (comm : string) : string :=
  if bool_decide (first_char comm = Some "("%char)
     && bool_decide (last_char comm = Some ")"%char)
  then String.substring 1 (String.length comm - 2) comm
  else comm.

(** The part of [read_proc] that reads [/proc/<pid>/stat]. *)
Definition read_stat (w : World) (p : ProcInfo) : result ProcInfo :=
  match w_stat w (pid p) with
  | None => Ok p
  | Some line =>
      let toks := words line in
      if (23 <? length toks)%nat
      then
        ut ← stoul (tok toks 13);
        st ← stoul (tok toks 14);
        vs ← stoul (tok toks 22);
        rs ← stol (tok toks 23);
        Ok (mkProcInfo (pid p) (uid p) (user p) (strip_parens (tok toks 1))
              ut st rs vs (cpu_percent p) (mem_percent p))
      else Ok p
  end.

Definition starts_with (pre s : string) : bool := String.prefix pre s.

Definition read_status_line (w : World) (p : ProcInfo) (line : string)
  : ProcInfo :=
  if starts_with "Uid:" line
  then
    let u := extract_uint
               (String.substring 4 (String.length line - 4) line) in
    mkProcInfo (pid p) u (uid_to_user w u) (cmd p)
      (utime p) (stime p) (rss p) (vsize p) (cpu_percent p) (mem_percent p)
  else p.

(** The part of [read_proc] that reads [/proc/<pid>/status]. *)
Definition read_status (w : World) (p : ProcInfo) : ProcInfo :=
  match w_status w (pid p) with
  | None => p
  | Some lines => fold_left (read_status_line w) lines p
  end.

Definition blank_proc (w : World) (n : Z) : ProcInfo :=
  mkProcInfo n (w_indeterminate_uid w) "" "" 0 0 0 0 zero zero.

Definition read_proc (w : World) (n : Z) : result ProcInfo :=
  p ← read_stat w (blank_proc w n);
  let p := read_status w p in
  Ok (if String.eqb (user p) ""
      then mkProcInfo (pid p) (uid p) (uid_to_user w (uid p)) (cmd p)
             (utime p) (stime p) (rss p) (vsize p)
             (cpu_percent p) (mem_percent p)
      else p).

(** ** The body of the loop in [main] *)

(** *** Sampling: lines 131 to 150 *)

Definition cur_jiffies (p : ProcInfo) : Z := wrap64 (utime p + stime p).

Definition prev_of (prev_proc_jiffies : gmap Z Z) (n : Z) : Z :=
  match prev_proc_jiffies !! n with
  | Some v => v
  | None => 0
  end.

Definition proc_delta (cur prev : Z) : Z :=
  if prev <=? cur then cur - prev else 0.

Definition total_delta_of (total_jiffies prev_total_jiffies : Z) : Z :=
  if prev_total_jiffies <=? total_jiffies
  then total_jiffies - prev_total_jiffies
  else 0.

Definition cpu_pct (delta total_delta : Z) : double :=
  if 0 <? total_delta
  then div (mul d100 (of_Z delta)) (of_Z total_delta)
  else zero.

Definition mem_pct (rss page_size mem_total_kb : Z) : result double :=
  if 0 <? mem_total_kb
  then
    bytes ← long_mul rss page_size;
    Ok (div (mul d100 (div (of_Z bytes) d1024)) (of_Z mem_total_kb))
  else Ok zero.

Definition with_percent (p : ProcInfo) (c m : double) : ProcInfo :=
  mkProcInfo (pid p) (uid p) (user p) (cmd p)
    (utime p) (stime p) (rss p) (vsize p) c m.

(** The values that stay fixed while the [for] loop runs. *)
Record Sample : Set := mkSample {
  page_size : Z;            (* long, from sysconf *)
  total_jiffies : Z;
  prev_total : Z;
  mem_total_kb : Z
}.

(** One iteration of [for (int pid : pids)], after [read_proc]. *)
Definition derive_proc (s : Sample) (prev_proc_jiffies : gmap Z Z)
    (p : ProcInfo) : result (ProcInfo * gmap Z Z) :=
  let cur := cur_jiffies p in
  let prev := prev_of prev_proc_jiffies (pid p) in
  let delta := proc_delta cur prev in
  let total_delta := total_delta_of (total_jiffies s) (prev_total s) in
  let c := cpu_pct delta total_delta in
  m ← mem_pct (rss p) (page_size s) (mem_total_kb s);
  Ok (with_percent p c m, <[pid p := cur]> prev_proc_jiffies).

Fixpoint sample_loop (w : World) (s : Sample) (pids : list Z)
    (procs : list ProcInfo) (prev_proc_jiffies : gmap Z Z)
  : result (list ProcInfo * gmap Z Z) :=
  match pids with
  | [] => Ok (procs, prev_proc_jiffies)
  | n :: pids' =>
      p ← read_proc w n;
      '(p', prev') ← derive_proc s prev_proc_jiffies p;
      sample_loop w s pids' (procs ++ [p']) prev'
  end.

(** *** Ranking: lines 152 to 163 *)

Inductive SortMode : Set := BY_CPU | BY_MEM | BY_PID.

(** The three lambdas handed to [std::sort]. *)
Definition by_cpu (a b : ProcInfo) : bool := ltb (cpu_percent b) (cpu_percent a).
Definition by_mem (a b : ProcInfo) : bool := ltb (mem_percent b) (mem_percent a).
Definition by_pid (a b : ProcInfo) : bool := pid a <? pid b.

Definition comparator (m : SortMode) : ProcInfo -> ProcInfo -> bool :=
  match m with
  | BY_CPU => by_cpu
  | BY_MEM => by_mem
  | BY_PID => by_pid
  end.

(** *** Rendering: lines 165 to 182 *)

Record Row : Set := mkRow {
  row_y : Z;
  row_proc : ProcInfo;
  row_rss_kb : Z;
  row_reverse : bool      (* drawn between attron and attroff of A_REVERSE *)
}.

Record Screen : Set := mkScreen {
  scr_interval : Z;
  scr_total_jiffies : Z;
  scr_mem_total_kb : Z;
  scr_nprocs : Z;
  scr_rows : list Row
}.

(** The [for] loop of line 173, started at index [i] on the processes
    from that index on; [n] is [(int)procs.size()]. *)
Fixpoint render_rows (i max_display n highlight page_size : Z)
    (ps : list ProcInfo) : result (list Row) :=
  match ps with
  | [] => Ok []
  | p :: ps' =>
      if (i <? max_display) && (i <? n)
      then
        kb ← long_mul (rss p) (page_size ÷ 1024);
        y ← int_add 4 i;
        i' ← int_add i 1;
        rest ← render_rows i' max_display n highlight page_size ps';
        Ok (mkRow y p kb (i =? highlight) :: rest)
      else Ok []
  end.

Definition size_int (procs : list ProcInfo) : Z :=
  to_int (Z.of_nat (length procs)).

Definition render (rows highlight interval_s page_size total mem_total : Z)
    (procs : list ProcInfo) : result Screen :=
  max_display ← int_sub rows 5;
  rs ← render_rows 0 max_display (size_int procs) highlight page_size procs;
  Ok (mkScreen interval_s total mem_total (Z.of_nat (length procs)) rs).

(** *** Commands: lines 184 to 201 *)

Definition ERR : Z := -1.
Definition KEY_DOWN : Z := 258.     (* 0402 *)
Definition KEY_UP : Z := 259.       (* 0403 *)
Definition key (c : ascii) : Z := char_code c.

(** The variables of [main] that a command can change. *)
Record Controls : Set := mkControls {
  highlight : Z;          (* int *)
  interval_s : Z;         (* int *)
  sortmode : SortMode
}.

(** A call of [kill(pid, SIGTERM)] and what it returned. *)
Record KillCall : Set := mkKillCall {
  kill_pid : Z;
  kill_res : Z
}.

Inductive Next : Set :=
| Break                                       (* [break] out of the loop *)
| Continue (c : Controls) (k : option KillCall).

Definition on_key_up (ch h : Z) : result Z :=
  if ch =? KEY_UP then d ← int_sub h 1; Ok (Z.max 0 d) else Ok h.

Definition on_key_down (ch h : Z) (procs : list ProcInfo) : result Z :=
  if ch =? KEY_DOWN
  then
    last ← int_sub (size_int procs) 1;
    next ← int_add h 1;
    Ok (Z.min last next)
  else Ok h.

Definition on_sort_key (ch : Z) (m : SortMode) : SortMode :=
  let m := if ch =? key "c" then BY_CPU else m in
  let m := if ch =? key "m" then BY_MEM else m in
  if ch =? key "p" then BY_PID else m.

Definition on_plus (ch iv : Z) : result Z :=
  if ch =? key "+" then d ← int_sub iv 1; Ok (Z.max 1 d) else Ok iv.

Definition on_minus (ch iv : Z) : result Z :=
  if ch =? key "-" then int_add iv 1 else Ok iv.

(** [procs[highlight]] on a [std::vector]: there is no bounds check. *)
Definition vector_at {A : Type} (v : list A) (i : Z) : result A :=
  if i <? 0 then Fault OutOfBounds
  else match v !! Z.to_nat i with
       | Some a => Ok a
       | None => Fault OutOfBounds
       end.

Definition on_kill (w : World) (ch h : Z) (procs : list ProcInfo)
  : result (option KillCall) :=
  if (ch =? key "k") && (0 <=? h) && (h <? size_int procs)
  then
    p ← vector_at procs h;
    Ok (Some (mkKillCall (pid p) (w_kill w (pid p))))
  else Ok None.

Definition handle_key (w : World) (c : Controls) (procs : list ProcInfo)
  : result Next :=
  let ch := w_key w in
  if ch =? ERR then Ok (Continue c None)
  else if ch =? key "q" then Ok Break
  else
    h ← on_key_up ch (highlight c);
    h ← on_key_down ch h procs;
    let m := on_sort_key ch (sortmode c) in
    iv ← on_plus ch (interval_s c);
    iv ← on_minus ch iv;
    k ← on_kill w ch h procs;
    Ok (Continue (mkControls h iv m) k).

(** *** One iteration, and the loop *)

Record State : Type := mkState {
  controls : Controls;
  prev_total_jiffies : Z;                 (* unsigned long long *)
  prev_proc_jiffies : gmap Z Z            (* std::map<int, unsigned long> *)
}.

(** What one iteration computes: the ranked vector, the screen drawn from
    it, the outcome of the command, and the two carried values as line 150
    leaves them. *)
Record Cycle : Type := mkCycle {
  cy_procs : list ProcInfo;
  cy_screen : Screen;
  cy_next : Next;
  cy_prev_total : Z;
  cy_prev_procs : gmap Z Z
}.

Section Main.

(** [std::sort].  The algorithm is the C++ library's, not the program's. *)
Variable std_sort :
  (ProcInfo -> ProcInfo -> bool) -> list ProcInfo -> list ProcInfo.

(** [long page_size = sysconf(_SC_PAGESIZE)], read once before the loop. *)
Variable page_sz : Z.

Definition rank (m : SortMode) (procs : list ProcInfo) : list ProcInfo :=
  std_sort (comparator m) procs.

Definition cycle (w : World) (st : State) : result Cycle :=
  let total := read_total_jiffies w in
  let mem_total := read_mem_total_kb w in
  pids ← list_pids w;
  let s := mkSample page_sz total (prev_total_jiffies st) mem_total in
  '(procs, prev') ← sample_loop w s pids [] (prev_proc_jiffies st);
  let procs := rank (sortmode (controls st)) procs in
  scr ← render (w_rows w) (highlight (controls st))
          (interval_s (controls st)) page_sz total mem_total procs;
  nx ← handle_key w (controls st) procs;
  Ok (mkCycle procs scr nx total prev').

(** The state at the top of the next iteration; [None] after [break]. *)
Definition next_state (c : Cycle) : option State :=
  match cy_next c with
  | Break => None
  | Continue ctl _ => Some (mkState ctl (cy_prev_total c) (cy_prev_procs c))
  end.

Definition step (w : World) (st : State) : result (option State) :=
  c ← cycle w st; Ok (next_state c).

(** Lines 118 to 125; [w0] is the system when line 124 reads it. *)
Definition init (w0 : World) : State :=
  mkState (mkControls 0 2 BY_CPU) (read_total_jiffies w0) ∅.

(** The loop over successive views of the system.  The result is the
    state at the top of the iteration that follows the last view, or
    [None] once the loop has been left. *)
Fixpoint run (st : State) (ws : list World) : result (option State) :=
  match ws with
  | [] => Ok (Some st)
  | w :: ws' =>
      r ← step w st;
      match r with
      | None => Ok None
      | Some st' => run st' ws'
      end
  end.

Definition reachable (st : State) : Prop :=
  exists w0 ws, run (init w0) ws = Ok (Some st).

End Main.

(** ** [std::sort] as GNU libstdc++ implements it

    The introsort of [bits/stl_algo.h] and the heap routines of
    [bits/stl_heap.h], on a list used as an array.  Iterators are indices,
    every loop carries fuel, and [None] stands for running out of it or
    for an iterator leaving the array. *)

Module Libstdcxx.
Section Sort.

Context {A : Type} (comp : A -> A -> bool).

Local Open Scope nat_scope.

Definition S_threshold : nat := 16.

Definition iter_swap (v : list A) (i j : nat) : option (list A) :=
  a ← v !! i; b ← v !! j; Some (<[j := a]> (<[i := b]> v)).

Definition move_median_to_first (v : list A) (result a b c : nat)
  : option (list A) :=
  x ← v !! a; y ← v !! b; z ← v !! c;
  if comp x y then
    if comp y z then iter_swap v result b
    else if comp x z then iter_swap v result c
    else iter_swap v result a
  else if comp x z then iter_swap v result a
  else if comp y z then iter_swap v result c
  else iter_swap v result b.

(** [while (comp(first, pivot)) ++first;] *)
Fixpoint scan_up (fuel : nat) (v : list A) (pivot first : nat) : option nat :=
  match fuel with
  | O => None
  | S fuel' =>
      x ← v !! first; p ← v !! pivot;
      if comp x p then scan_up fuel' v pivot (S first) else Some first
  end.

(** [while (comp(pivot, last)) --last;] *)
Fixpoint scan_down (fuel : nat) (v : list A) (pivot last : nat) : option nat :=
  match fuel with
  | O => None
  | S fuel' =>
      x ← v !! last; p ← v !! pivot;
      if comp p x
      then match last with
           | O => None
           | S last' => scan_down fuel' v pivot last'
           end
      else Some last
  end.

Fixpoint unguarded_partition (fuel : nat) (v : list A) (first last pivot : nat)
  : option (list A * nat) :=
  match fuel with
  | O => None
  | S fuel' =>
      first ← scan_up (S (length v)) v pivot first;
      match last with
      | O => None
      | S last' =>
          last ← scan_down (S (length v)) v pivot last';
          if negb (first <? last) then Some (v, first)
          else
            v' ← iter_swap v first last;
            unguarded_partition fuel' v' (S first) last pivot
      end
  end.

Definition unguarded_partition_pivot (v : list A) (first last : nat)
  : option (list A * nat) :=
  let mid := first + (last - first) / 2 in
  v' ← move_median_to_first v first (first + 1) mid (last - 1);
  unguarded_partition (S (length v)) v' (first + 1) last first.

(** *** Heap sort, the fall-back of the depth limit *)

Fixpoint push_heap (fuel : nat) (v : list A) (first holeIndex topIndex : nat)
    (value : A) : option (list A) :=
  match fuel with
  | O => None
  | S fuel' =>
      let parent := (holeIndex - 1) / 2 in
      if topIndex <? holeIndex then
        p ← v !! (first + parent);
        if comp p value
        then push_heap fuel' (<[first + holeIndex := p]> v)
               first parent topIndex value
        else Some (<[first + holeIndex := value]> v)
      else Some (<[first + holeIndex := value]> v)
  end.

(** The first loop of [__adjust_heap]: move the larger child up. *)
Fixpoint sift_down (fuel : nat) (v : list A) (first holeIndex secondChild len : nat)
  : option (list A * nat * nat) :=
  match fuel with
  | O => None
  | S fuel' =>
      if secondChild <? (len - 1) / 2 then
        let secondChild := 2 * (secondChild + 1) in
        r ← v !! (first + secondChild);
        l ← v !! (first + (secondChild - 1));
        let secondChild := if comp r l then secondChild - 1 else secondChild in
        c ← v !! (first + secondChild);
        sift_down fuel' (<[first + holeIndex := c]> v)
          first secondChild secondChild len
      else Some (v, holeIndex, secondChild)
  end.

Definition adjust_heap (v : list A) (first holeIndex len : nat) (value : A)
  : option (list A) :=
  let topIndex := holeIndex in
  '(v, holeIndex, secondChild) ←
     sift_down (S len) v first holeIndex holeIndex len;
  '(v, holeIndex) ←
     (if Nat.even len && (secondChild =? (len - 2) / 2) then
        let secondChild := 2 * (secondChild + 1) in
        c ← v !! (first + (secondChild - 1));
        Some (<[first + holeIndex := c]> v, secondChild - 1)
      else Some (v, holeIndex));
  push_heap (S len) v first holeIndex topIndex value.

Fixpoint make_heap_from (v : list A) (first len parent : nat)
  : option (list A) :=
  value ← v !! (first + parent);
  v ← adjust_heap v first parent len value;
  match parent with
  | O => Some v
  | S parent' => make_heap_from v first len parent'
  end.

Definition make_heap (v : list A) (first last : nat) : option (list A) :=
  if last - first <? 2 then Some v
  else make_heap_from v first (last - first) ((last - first - 2) / 2).

Definition pop_heap (v : list A) (first last result : nat) : option (list A) :=
  value ← v !! result;
  top ← v !! first;
  adjust_heap (<[result := top]> v) first 0 (last - first) value.

(** [while (last - first > 1) { --last; __pop_heap(first, last, last); }] *)
Fixpoint sort_heap (fuel : nat) (v : list A) (first last : nat)
  : option (list A) :=
  match fuel with
  | O => None
  | S fuel' =>
      if 1 <? last - first
      then v ← pop_heap v first (last - 1) (last - 1);
           sort_heap fuel' v first (last - 1)
      else Some v
  end.

(** [__partial_sort(first, last, last)]: the selection loop of
    [__heap_select] runs over the empty range. *)
Definition heap_sort (v : list A) (first last : nat) : option (list A) :=
  v ← make_heap v first last;
  sort_heap (S (length v)) v first last.

(** *** Insertion sort *)

(** The loop of [__unguarded_linear_insert], with [val] taken out of
    position [last]. *)
Fixpoint linear_insert_loop (fuel : nat) (v : list A) (val : A) (last : nat)
  : option (list A) :=
  match fuel with
  | O => None
  | S fuel' =>
      match last with
      | O => None
      | S next =>
          x ← v !! next;
          if comp val x
          then linear_insert_loop fuel' (<[last := x]> v) val next
          else Some (<[last := val]> v)
      end
  end.

Definition unguarded_linear_insert (v : list A) (last : nat) : option (list A) :=
  val ← v !! last;
  linear_insert_loop (S (length v)) v val last.

(** [move_backward(first, i, i + 1); *first = val;] *)
Definition rotate_to_front (v : list A) (first i : nat) (val : A) : list A :=
  take first v ++ val :: take (i - first) (drop first v) ++ drop (S i) v.

(** One iteration of the loop of [__insertion_sort], at position [i]. *)
Definition insertion_step (v : list A) (first i : nat) : option (list A) :=
  x ← v !! i; f ← v !! first;
  if comp x f
  then Some (rotate_to_front v first i x)
  else unguarded_linear_insert v i.

(** The positions [i], [i + 1], ..., [i + n - 1] in turn. *)
Fixpoint for_each (step : list A -> nat -> option (list A))
    (n : nat) (v : list A) (i : nat) : option (list A) :=
  match n with
  | O => Some v
  | S n' => v' ← step v i; for_each step n' v' (S i)
  end.

Definition insertion_sort (v : list A) (first last : nat) : option (list A) :=
  if first =? last then Some v
  else for_each (fun v i => insertion_step v first i)
         (last - (first + 1)) v (first + 1).

Definition unguarded_insertion_sort (v : list A) (first last : nat)
  : option (list A) :=
  for_each unguarded_linear_insert (last - first) v first.

Definition final_insertion_sort (v : list A) (first last : nat)
  : option (list A) :=
  if S_threshold <? last - first
  then
    v ← insertion_sort v first (first + S_threshold);
    unguarded_insertion_sort v (first + S_threshold) last
  else insertion_sort v first last.

(** *** Introsort *)

Fixpoint introsort_loop (fuel : nat) (v : list A) (first last depth_limit : nat)
  : option (list A) :=
  match fuel with
  | O => None
  | S fuel' =>
      if S_threshold <? last - first then
        match depth_limit with
        | O => heap_sort v first last
        | S depth_limit' =>
            '(v, cut) ← unguarded_partition_pivot v first last;
            v ← introsort_loop fuel' v cut last depth_limit';
            introsort_loop fuel' v first cut depth_limit'
        end
      else Some v
  end.

Definition sort (v : list A) : option (list A) :=
  match v with
  | [] => Some v
  | _ =>
      let n := length v in
      v ← introsort_loop (S n) v 0 n (Nat.log2 n * 2);
      final_insertion_sort v 0 n
  end.

End Sort.
End Libstdcxx.

(** [std::sort] of libstdc++ as a function on vectors; a run the model
    cannot finish leaves the vector as it was. *)
Definition gnu_sort {A : Type} (comp : A -> A -> bool) (v : list A) : list A :=
  default v (Libstdcxx.sort comp v).

(** Straight insertion, the textbook algorithm that meets the contract
    of [std::sort]. *)
Fixpoint insert_sorted {A : Type} (comp : A -> A -> bool) (x : A) (l : list A)
  : list A :=
  match l with
  | [] => [x]
  | y :: l' => if comp x y then x :: l else y :: insert_sorted comp x l'
  end.

Fixpoint straight_insertion {A : Type} (comp : A -> A -> bool) (l : list A)
  : list A :=
  match l with
  | [] => []
  | x :: l' => insert_sorted comp x (straight_insertion comp l')
  end.

(** ** Sample systems

    Small views of a system, used to run the loop on concrete data. *)

(** A line of [/proc/<pid>/stat] with the given command name, user and
    system ticks, virtual size and resident pages. *)
Definition stat_line (n : Z) (comm : string) (ut st vs rs : Z) : string :=
  pretty n +:+ " (" +:+ comm +:+ ") S 1 1 1 0 -1 4194304 120 0 0 0 "
  +:+ pretty ut +:+ " " +:+ pretty st +:+ " 0 0 20 0 1 0 100 "
  +:+ pretty vs +:+ " " +:+ pretty rs +:+ " 18446744073709551615 1 1 0".

Definition status_lines (u : Z) : list string :=
  ["Name:	proc"; "Uid:	" +:+ pretty u +:+ "	" +:+ pretty u; "Gid:	100"].

Definition passwd (u : Z) : option string :=
  if u =? 0 then Some "root"
  else if u =? 1000 then Some "alice"
  else None.

Fixpoint assoc {V : Type} (n : Z) (t : list (Z * V)) : option V :=
  match t with
  | [] => None
  | (k, v) :: t' => if k =? n then Some v else assoc n t'
  end.

(** A system whose counters sum to [total], with [mem_kb] of memory, the
    listed directory entries, the given [stat] lines, and the key
    [getch] returns. *)
Definition system (total mem_kb : Z) (dir : list string)
    (stats : list (Z * string)) (ch : Z) : World :=
  mkWorld (mkCpuStat total 0 0 0 0 0 0 0)
    [("MemTotal:", mem_kb, "kB"); ("MemFree:", 1, "kB")]
    (Some ("." :: ".." :: "self" :: dir))
    (fun n => assoc n stats)
    (fun n => (fun _ => status_lines 1000) <$> assoc n stats)
    passwd 0 24 ch (fun _ => 0).

(** [k] idle processes with pids [n], [n + 1], ... *)
Fixpoint idle_stats (k : nat) (n : Z) : list (Z * string) :=
  match k with
  | O => []
  | S k' => (n, stat_line n "idle" 0 0 4096 1) :: idle_stats k' (n + 1)
  end.

Definition dir_of (stats : list (Z * string)) : list string :=
  (fun e => pretty e.1) <$> stats.

Definition page : Z := 4096.

(** A system at 1000 ticks in which process 7 has used 100 of them, and
    the same system at 1200 ticks, the process having used 50 more. *)
Definition world_A : World :=
  system 1000 8000000 ["7"] [(7, stat_line 7 "work" 60 40 1000000 2000)] ERR.
Definition world_B : World :=
  system 1200 8000000 ["7"] [(7, stat_line 7 "work" 100 50 1000000 2000)] ERR.

(** Later still: process 7 is gone and process 8 has appeared. *)
Definition world_C : World :=
  system 1400 8000000 ["8"] [(8, stat_line 8 "new" 5 5 1000000 300)] ERR.

(** Process 8 is listed in [/proc] but exits before its [stat] file is
    opened. *)
Definition world_D : World :=
  system 1400 8000000 ["7"; "8"]
    [(7, stat_line 7 "work" 100 50 1000000 2000)] ERR.

(** A system of [k] idle processes, pids 1 to [k], and the key pressed. *)
Definition idle_world (k : nat) (ch : Z) : World :=
  system 1000 8000000 (dir_of (idle_stats k 1)) (idle_stats k 1) ch.

(** The [Sample] that [cycle] builds from a view of the system and the
    previous total. *)
Definition sample_of (w : World) (prev_total : Z) : Sample :=
  mkSample page (read_total_jiffies w) prev_total (read_mem_total_kb w).

(** The vector as the sampling loop of the first cycle leaves it, when
    the system has not changed since line 124. *)
Definition first_sample (w : World) : list ProcInfo :=
  match
    pids ← list_pids w;
    sample_loop w (sample_of w (read_total_jiffies w)) pids [] ∅
  with
  | Ok (procs, _) => procs
  | Fault _ => []
  end.

Definition idle17 : list ProcInfo := first_sample (idle_world 17 ERR).

(** ** Vocabulary of the statements *)

(** *** Readers and the sampling loop *)

(** What [read_proc] takes from [stat]: everything but the owner. *)
Definition same_counters (p q : ProcInfo) : Prop :=
  pid p = pid q /\ cmd p = cmd q /\ utime p = utime q /\ stime p = stime q
  /\ rss p = rss q /\ vsize p = vsize q.

Definition counters_in_range (p : ProcInfo) : Prop :=
  0 <= utime p < 2 ^ 64 /\ 0 <= stime p < 2 ^ 64
  /\ - 2 ^ 63 <= rss p < 2 ^ 63 /\ 0 <= vsize p < 2 ^ 64.

(** When the loop runs to its end. *)
Definition sample_defined (w : World) (s : Sample) (n : Z) : Prop :=
  exists p, read_proc w n = Ok p
    /\ is_ok (mem_pct (rss p) (page_size s) (mem_total_kb s)).

(** The carried values are unsigned: what every state of the loop
    satisfies. *)
Definition state_ok (st : State) : Prop :=
  0 <= prev_total_jiffies st < 2 ^ 64
  /\ map_Forall (fun _ v => 0 <= v) (prev_proc_jiffies st).

(** *** Lines of text *)

(** A string that [operator>>] reads as one token: not empty, and free of
    white space. *)
Definition is_token (s : string) : Prop :=
  s <> "" /\ forallb (fun c => negb (isspace c)) (chars s) = true.

(** The tokens written on one line, a blank between neighbours, as the
    kernel writes the fields of [/proc/<pid>/stat]. *)
Fixpoint unwords (toks : list string) : string :=
  match toks with
  | [] => ""
  | [t] => t
  | t :: ts => t +:+ " " +:+ unwords ts
  end.

(** *** The contract of [std::sort]

    The C++ standard asks that the comparator be a strict weak ordering
    on the values it is applied to, and promises a rearrangement of the
    input in which no element is ordered before an earlier one.  It
    promises nothing about elements that the comparator does not
    separate. *)

Record strict_weak_order {A : Type} (comp : A -> A -> bool) (P : A -> Prop)
  : Prop := mkSWO {
  swo_irrefl : forall x, P x -> comp x x = false;
  swo_trans : forall x y z, P x -> P y -> P z ->
    comp x y = true -> comp y z = true -> comp x z = true;
  swo_tied_trans : forall x y z, P x -> P y -> P z ->
    comp x y = false -> comp y x = false ->
    comp y z = false -> comp z y = false ->
    comp x z = false /\ comp z x = false
}.

Definition sorted_by {A : Type} (comp : A -> A -> bool) (l : list A) : Prop :=
  StronglySorted (fun a b => comp b a = false) l.

Definition sort_contract
    (sort : (ProcInfo -> ProcInfo -> bool) -> list ProcInfo -> list ProcInfo)
  : Prop :=
  forall comp l,
    strict_weak_order comp (fun x => x ∈ l) ->
    sort comp l ≡ₚ l /\ sorted_by comp (sort comp l).

(** Two elements that the comparator does not separate. *)
Definition tied {A : Type} (comp : A -> A -> bool) (a b : A) : bool :=
  negb (comp a b) && negb (comp b a).

(** Stability: the elements tied with any given one come out in the order
    they went in. *)
Definition keeps_tie_order {A : Type} (comp : A -> A -> bool)
    (input output : list A) : Prop :=
  forall a, a ∈ input ->
    List.filter (tied comp a) output = List.filter (tied comp a) input.

(** Both percentages of the entry are numbers. *)
Definition numeric (p : ProcInfo) : Prop :=
  is_nan (cpu_percent p) = false /\ is_nan (mem_percent p) = false.

(** The order each sort key asks for, between an element and a later
    one. *)
Definition ranked (m : SortMode) (a b : ProcInfo) : Prop :=
  match m with
  | BY_CPU => leb (cpu_percent b) (cpu_percent a) = true
  | BY_MEM => leb (mem_percent b) (mem_percent a) = true
  | BY_PID => pid a <= pid b
  end.

(** *** Comparison of doubles

    Position of a number on the extended real line: its class first (the
    infinities, the two signs, zero), then exponent and mantissa. *)
Definition order_key (x : double) : Z * Z * Z :=
  match x with
  | S754_infinity true => (-2, 0, 0)
  | S754_finite true m e => (-1, - e, - Z.pos m)
  | S754_zero _ => (0, 0, 0)
  | S754_nan => (0, 0, 0)
  | S754_finite false m e => (1, e, Z.pos m)
  | S754_infinity false => (2, 0, 0)
  end.

Definition lex_lt (a b : Z * Z * Z) : Prop :=
  a.1.1 < b.1.1
  \/ (a.1.1 = b.1.1 /\ (a.1.2 < b.1.2 \/ (a.1.2 = b.1.2 /\ a.2 < b.2))).

(** * Properties *)

(** ** The literals and the text helpers on examples *)

Example d100_is_100 : d100 = of_Z 100.
Proof. reflexivity. Qed.

Example d1024_is_1024 : d1024 = of_Z 1024.
Proof. reflexivity. Qed.

Example two_is_2 : two = of_Z 2.
Proof. reflexivity. Qed.

Example words_stat_line :
  words "42 (cat) R 1  2" = ["42"; "(cat)"; "R"; "1"; "2"].
Proof. reflexivity. Qed.

Example stoul_digits : stoul "150" = Ok 150.
Proof. reflexivity. Qed.

Example stoul_garbage : stoul "h)" = Fault InvalidArgument.
Proof. reflexivity. Qed.

Example stol_negative : stol "-7" = Ok (-7).
Proof. reflexivity. Qed.

(** ** Facts about binary64 rounding *)

Lemma digits2_pos_size (p : positive) : digits2_pos p = Pos.size p.
Proof. induction p as [p IH|p IH|]; simpl; by rewrite ?IH. Qed.

Lemma Zdigits2_log2 (p : positive) :
  Zdigits2 (Z.pos p) = Z.log2 (Z.pos p) + 1.
Proof.
  simpl. rewrite digits2_pos_size.
  destruct p as [p|p|]; simpl; try reflexivity; lia.
Qed.

Lemma Zdigits2_unique (p : positive) (d : Z) :
  2 ^ (d - 1) <= Z.pos p < 2 ^ d -> Zdigits2 (Z.pos p) = d.
Proof.
  intros H. rewrite Zdigits2_log2.
  assert (0 <= d - 1).
  { destruct (Z_lt_le_dec (d - 1) 0) as [Hn|]; [|done].
    assert (d <= 0) by lia.
    assert (2 ^ d <= 2 ^ 0) by (apply Z.pow_le_mono_r; lia).
    simpl in *. lia. }
  assert (Z.log2 (Z.pos p) = d - 1); [|lia].
  apply Z.log2_unique; [done|].
  replace (Z.succ (d - 1)) with d by lia. done.
Qed.

Lemma Zdigits2_bounds (p : positive) :
  2 ^ (Zdigits2 (Z.pos p) - 1) <= Z.pos p < 2 ^ Zdigits2 (Z.pos p).
Proof.
  rewrite Zdigits2_log2.
  replace (Z.log2 (Z.pos p) + 1 - 1) with (Z.log2 (Z.pos p)) by lia.
  pose proof (Z.log2_spec (Z.pos p) ltac:(lia)) as H.
  replace (Z.log2 (Z.pos p) + 1) with (Z.succ (Z.log2 (Z.pos p))) by lia.
  done.
Qed.

Lemma iter_pos_invariant {A : Type} (P : A -> Prop) (f : A -> A) :
  (forall x, P x -> P (f x)) ->
  forall n x, P x -> P (SpecFloat.iter_pos f n x).
Proof.
  intros Hf n. induction n as [n IH|n IH|]; simpl; intros x Hx; auto.
Qed.

Lemma shr_1_m (r : shr_record) :
  0 <= shr_m r -> shr_m (shr_1 r) = shr_m r / 2.
Proof.
  destruct r as [m r s]. cbn [shr_m]. intros Hm.
  destruct m as [|[p|p|]|p]; cbn [shr_1 shr_m]; try lia.
  all: try reflexivity.
  - rewrite Pos2Z.inj_xI. apply (Z.div_unique _ _ _ 1); lia.
  - rewrite Pos2Z.inj_xO. apply (Z.div_unique _ _ _ 0); lia.
Qed.

Lemma iter_shr_1_m (k : positive) (r : shr_record) :
  0 <= shr_m r ->
  shr_m (SpecFloat.iter_pos shr_1 k r) = shr_m r / 2 ^ Z.pos k.
Proof.
  revert r. induction k as [k IH|k IH|]; intros r Hr; simpl SpecFloat.iter_pos.
  - assert (H1 : 0 <= shr_m (shr_1 r)).
    { rewrite shr_1_m by done. apply Z.div_pos; lia. }
    assert (H2 : 0 <= shr_m (SpecFloat.iter_pos shr_1 k (shr_1 r))).
    { rewrite IH by done. apply Z.div_pos; lia. }
    rewrite IH by done. rewrite IH by done. rewrite shr_1_m by done.
    rewrite !Z.div_div by lia.
    f_equal. replace (Z.pos k~1) with (Z.pos k + Z.pos k + 1) by lia.
    rewrite (Z.pow_add_r 2 (Z.pos k + Z.pos k) 1) by lia.
    rewrite (Z.pow_add_r 2 (Z.pos k) (Z.pos k)) by lia.
    change (2 ^ 1) with 2. ring.
  - assert (H2 : 0 <= shr_m (SpecFloat.iter_pos shr_1 k r)).
    { rewrite IH by done. apply Z.div_pos; lia. }
    rewrite IH by done. rewrite IH by done.
    rewrite !Z.div_div by lia.
    f_equal. replace (Z.pos k~0) with (Z.pos k + Z.pos k) by lia.
    rewrite (Z.pow_add_r 2 (Z.pos k) (Z.pos k)) by lia. ring.
  - rewrite shr_1_m by done. done.
Qed.

Lemma shr_m_of_loc (m : Z) (l : location) : shr_m (shr_record_of_loc m l) = m.
Proof. destruct l as [|[]]; reflexivity. Qed.

(** [shr] divides the mantissa by the power of two it shifts out. *)
Lemma shr_m_shr (r : shr_record) (e n : Z) :
  0 <= shr_m r ->
  shr_m (fst (shr r e n)) = shr_m r / 2 ^ Z.max 0 n
  /\ snd (shr r e n) = e + Z.max 0 n.
Proof.
  intros Hr. destruct n as [|k|k]; simpl.
  - rewrite Z.div_1_r. lia.
  - rewrite iter_shr_1_m by done. split; [done|lia].
  - rewrite Z.div_1_r. lia.
Qed.

Lemma round_nearest_even_bounds (m : Z) (l : location) :
  m <= round_nearest_even m l <= m + 1.
Proof.
  destruct l as [|[]]; simpl; try lia. destruct (Z.even m); lia.
Qed.

Lemma shr_fexp_spec (m e : Z) (l : location) :
  0 <= m ->
  let n := Z.max 0 (fexp prec emax (Zdigits2 m + e) - e) in
  shr_m (fst (shr_fexp prec emax m e l)) = m / 2 ^ n
  /\ snd (shr_fexp prec emax m e l) = e + n.
Proof.
  intros Hm n. unfold shr_fexp.
  pose proof (shr_m_shr (shr_record_of_loc m l) e
                (fexp prec emax (Zdigits2 m + e) - e)) as H.
  rewrite shr_m_of_loc in H. by apply H.
Qed.

(** Rounding a non-negative mantissa never produces a NaN and keeps the
    sign it is given. *)
Lemma binary_round_aux_signed (s : bool) (m e : Z) (l : location) :
  0 <= m -> signed s (binary_round_aux prec emax s m e l).
Proof.
  intros Hm. unfold binary_round_aux.
  destruct (shr_fexp_spec m e l Hm) as [H1 _].
  destruct (shr_fexp prec emax m e l) as [mrs' e'] eqn:E1. cbn [fst] in H1.
  set (m2 := round_nearest_even (shr_m mrs') (loc_of_shr_record mrs')).
  assert (Hm2 : 0 <= m2).
  { pose proof (round_nearest_even_bounds (shr_m mrs') (loc_of_shr_record mrs')).
    assert (0 <= shr_m mrs') by (rewrite H1; apply Z.div_pos; lia).
    unfold m2. lia. }
  destruct (shr_fexp_spec m2 e' loc_Exact Hm2) as [H2 _].
  destruct (shr_fexp prec emax m2 e' loc_Exact) as [mrs'' e''] eqn:E2.
  cbn [fst] in H2.
  assert (0 <= shr_m mrs'') by (rewrite H2; apply Z.div_pos; lia).
  destruct (shr_m mrs'') as [|q|q]; simpl; [done| |lia].
  destruct (e'' <=? emax - prec); done.
Qed.

Lemma div_pow2_bounds (q d k : Z) :
  0 <= k -> k <= d ->
  2 ^ d <= q < 2 ^ (d + 1) ->
  2 ^ (d - k) <= q / 2 ^ k < 2 ^ (d - k + 1).
Proof.
  intros Hk Hd [Hlo Hhi].
  assert (Hp : 0 < 2 ^ k) by (apply Z.pow_pos_nonneg; lia).
  assert (E1 : 2 ^ d = 2 ^ (d - k) * 2 ^ k).
  { rewrite <- Z.pow_add_r by lia. f_equal. lia. }
  assert (E2 : 2 ^ (d + 1) = 2 ^ (d - k + 1) * 2 ^ k).
  { rewrite <- Z.pow_add_r by lia. f_equal. lia. }
  split.
  - apply Z.div_le_lower_bound; [done|]. lia.
  - apply Z.div_lt_upper_bound; [done|]. lia.
Qed.

(** A mantissa of 53 to 64 bits with a small exponent rounds to a finite
    number. *)
Lemma binary_round_aux_finite (s : bool) (q : positive) (e : Z) (l : location) :
  2 ^ 52 <= Z.pos q < 2 ^ 64 -> -1074 <= e <= 900 ->
  finite s (binary_round_aux prec emax s (Z.pos q) e l).
Proof.
  intros Hq He. unfold binary_round_aux.
  pose proof (Zdigits2_bounds q) as Hd.
  set (d := Zdigits2 (Z.pos q)) in *.
  assert (Hd53 : 53 <= d <= 64).
  { split.
    - destruct (Z_lt_le_dec d 53) as [Hlt|]; [|done].
      assert (2 ^ d <= 2 ^ 52) by (apply Z.pow_le_mono_r; lia). lia.
    - destruct (Z_lt_le_dec 64 d) as [Hlt|]; [|done].
      assert (2 ^ 64 <= 2 ^ (d - 1)) by (apply Z.pow_le_mono_r; lia). lia. }
  destruct (shr_fexp_spec (Z.pos q) e l ltac:(lia)) as [H1 H1e].
  fold d in H1, H1e.
  replace (Z.max 0 (fexp prec emax (d + e) - e)) with (d - 53) in H1, H1e
    by (unfold fexp, emin, prec, emax; lia).
  destruct (shr_fexp prec emax (Z.pos q) e l) as [mrs' e'] eqn:E1.
  cbn [fst snd] in H1, H1e.
  assert (Hm1 : 2 ^ 52 <= shr_m mrs' < 2 ^ 53).
  { rewrite H1.
    pose proof (div_pow2_bounds (Z.pos q) (d - 1) (d - 53)) as Hb.
    replace (d - 1 - (d - 53)) with 52 in Hb by lia.
    replace (d - 1 + 1) with d in Hb by lia.
    apply Hb; lia. }
  pose proof (round_nearest_even_bounds (shr_m mrs') (loc_of_shr_record mrs'))
    as Hr.
  set (m2 := round_nearest_even (shr_m mrs') (loc_of_shr_record mrs')) in *.
  assert (Hm2 : 2 ^ 52 <= m2 <= 2 ^ 53) by lia.
  destruct m2 as [|q2|q2] eqn:Em2; [lia| |lia].
  destruct (shr_fexp_spec (Z.pos q2) e' loc_Exact ltac:(lia)) as [H2 H2e].
  destruct (shr_fexp prec emax (Z.pos q2) e' loc_Exact) as [mrs'' e''] eqn:E2.
  cbn [fst snd] in H2, H2e.
  destruct (Z_lt_le_dec (Z.pos q2) (2 ^ 53)) as [Hlt|Hge].
  - rewrite (Zdigits2_unique q2 53) in H2, H2e by (simpl Z.sub; lia).
    replace (Z.max 0 (fexp prec emax (53 + e') - e')) with 0 in H2, H2e
      by (unfold fexp, emin, prec, emax; lia).
    rewrite Z.div_1_r in H2. rewrite H2.
    replace (e'' <=? emax - prec) with true
      by (symmetry; apply Z.leb_le; unfold emax, prec; lia).
    by eexists _, _.
  - assert (Eq2 : Z.pos q2 = 2 ^ 53) by lia.
    rewrite (Zdigits2_unique q2 54) in H2, H2e by (rewrite Eq2; simpl Z.sub; lia).
    replace (Z.max 0 (fexp prec emax (54 + e') - e')) with 1 in H2, H2e
      by (unfold fexp, emin, prec, emax; lia).
    rewrite Eq2 in H2. change (2 ^ 53 / 2 ^ 1) with (Z.pos (2 ^ 52)) in H2.
    rewrite H2.
    replace (e'' <=? emax - prec) with true
      by (symmetry; apply Z.leb_le; unfold emax, prec; lia).
    by eexists _, _.
Qed.

Lemma binary_round_finite (s : bool) (p : positive) :
  Z.pos p < 2 ^ 64 -> finite s (binary_round prec emax s p 0).
Proof.
  intros Hp. unfold binary_round.
  pose proof (Zdigits2_bounds p) as Hd. simpl Zdigits2 in Hd.
  set (d := Z.pos (digits2_pos p)) in *.
  assert (Hd64 : 1 <= d <= 64).
  { split; [unfold d; lia|].
    destruct (Z_lt_le_dec 64 d) as [Hlt|]; [|done].
    assert (2 ^ 64 <= 2 ^ (d - 1)) by (apply Z.pow_le_mono_r; lia). lia. }
  replace (fexp prec emax (d + 0)) with (d - 53)
    by (unfold fexp, emin, prec, emax; lia).
  unfold shl_align.
  destruct (d - 53 - 0) as [|k|k] eqn:Ek.
  - apply binary_round_aux_finite; [|lia].
    replace d with 53 in Hd by lia. simpl Z.sub in Hd. lia.
  - apply binary_round_aux_finite; [|lia].
    assert (2 ^ 52 <= 2 ^ (d - 1)) by (apply Z.pow_le_mono_r; lia). lia.
  - apply binary_round_aux_finite; [|lia].
    change (Pos.iter xO p k) with (shift_pos k p).
    rewrite shift_pos_correct. rewrite Z.pow_pos_fold.
    assert (Hk : Z.pos k = 53 - d) by lia. rewrite Hk.
    assert (E1 : 2 ^ 52 = 2 ^ (53 - d) * 2 ^ (d - 1)).
    { rewrite <- Z.pow_add_r by lia. f_equal. lia. }
    assert (E2 : 2 ^ 53 = 2 ^ (53 - d) * 2 ^ d).
    { rewrite <- Z.pow_add_r by lia. f_equal. lia. }
    assert (0 < 2 ^ (53 - d)) by (apply Z.pow_pos_nonneg; lia).
    assert (2 ^ 53 < 2 ^ 64) by done.
    nia.
Qed.

(** Every non-zero 64-bit integer converts to a finite, non-zero double
    of its own sign. *)
Lemma of_Z_finite (z : Z) :
  - 2 ^ 64 < z < 2 ^ 64 -> z <> 0 -> finite (z <? 0) (of_Z z).
Proof.
  intros Hz Hnz. unfold of_Z, binary_normalize.
  destruct z as [|p|p]; [done| |].
  - apply binary_round_finite. lia.
  - apply binary_round_finite. lia.
Qed.

Lemma of_Z_0 : of_Z 0 = zero.
Proof. reflexivity. Qed.

Lemma finite_signed (s : bool) (x : double) : finite s x -> signed s x.
Proof. intros (m & e & ->). done. Qed.

Lemma mul_signed (sx sy : bool) (x y : double) :
  finite sx x -> signed sy y -> signed (xorb sx sy) (mul x y).
Proof.
  intros (mx & ex & ->) Hy. unfold mul.
  destruct y as [s|s| |s my ey]; simpl in Hy; subst; try done.
  cbn [SFmul]. apply binary_round_aux_signed. lia.
Qed.

Lemma div_signed (sx sy : bool) (x y : double) :
  signed sx x -> finite sy y -> signed (xorb sx sy) (div x y).
Proof.
  intros Hx (my & ey & ->). unfold div.
  destruct x as [s|s| |s mx ex]; simpl in Hx; subst; try done.
  cbn [SFdiv].
  destruct (SFdiv_core_binary prec emax (Z.pos mx) ex (Z.pos my) ey)
    as [[mz ez] lz] eqn:E.
  apply binary_round_aux_signed.
  unfold SFdiv_core_binary in E.
  set (m' := match _ - _ - _ with Z.pos _ => _ | _ => _ end) in E.
  assert (0 <= m').
  { unfold m'. destruct (_ - _ - _); try lia.
    apply Z.shiftl_nonneg. lia. }
  destruct (Z.div_eucl m' (Z.pos my)) as [q r] eqn:Ediv.
  injection E as <- _ _.
  change q with (fst (q, r)). rewrite <- Ediv.
  change (fst (Z.div_eucl m' (Z.pos my))) with (m' / Z.pos my).
  apply Z.div_pos; lia.
Qed.

Lemma signed_false_nonneg (x : double) :
  signed false x -> leb zero x = true /\ ltb x zero = false.
Proof. destruct x as [s|s| |s m e]; simpl; intros H; subst; done. Qed.

Lemma signed_not_nan (s : bool) (x : double) : signed s x -> is_nan x = false.
Proof. by destruct x. Qed.

(** *** The percentages are numbers *)

Lemma cpu_pct_signed (delta total_delta : Z) :
  0 <= delta < 2 ^ 64 -> total_delta < 2 ^ 64 ->
  signed false (cpu_pct delta total_delta).
Proof.
  intros Hd Ht. unfold cpu_pct.
  destruct (0 <? total_delta) eqn:E; [|done].
  apply Z.ltb_lt in E.
  change false with (xorb false false).
  apply div_signed.
  - change false with (xorb false false) at 1.
    apply mul_signed; [by eexists _, _|].
    destruct (decide (delta = 0)) as [->|Hnz]; [done|].
    apply finite_signed.
    replace false with (delta <? 0) by (apply Z.ltb_ge; lia).
    apply of_Z_finite; lia.
  - replace false with (total_delta <? 0) by (apply Z.ltb_ge; lia).
    apply of_Z_finite; lia.
Qed.

Lemma cpu_pct_zero_delta (total_delta : Z) :
  total_delta < 2 ^ 64 -> cpu_pct 0 total_delta = zero.
Proof.
  intros Ht. unfold cpu_pct.
  destruct (0 <? total_delta) eqn:E; [|done].
  apply Z.ltb_lt in E.
  destruct (of_Z_finite total_delta ltac:(lia) ltac:(lia)) as (m & e & ->).
  replace (total_delta <? 0) with false by (symmetry; apply Z.ltb_ge; lia).
  reflexivity.
Qed.

Lemma mem_pct_signed (rss page_size mem_total_kb : Z) (x : double) :
  mem_total_kb < 2 ^ 64 ->
  mem_pct rss page_size mem_total_kb = Ok x ->
  signed (rss * page_size <? 0) x \/ x = zero.
Proof.
  intros Ht. unfold mem_pct.
  destruct (0 <? mem_total_kb) eqn:E; [|intros [= <-]; by right].
  apply Z.ltb_lt in E. unfold long_mul.
  destruct (in_long (rss * page_size)) eqn:Hl; [|done].
  cbn. intros [= <-]. left.
  unfold in_long, LONG_MIN, LONG_MAX in Hl.
  apply andb_true_iff in Hl as [H1 H2].
  apply Z.leb_le in H1, H2.
  set (b := rss * page_size) in *.
  replace (b <? 0) with (xorb (b <? 0) false) by (by destruct (b <? 0)).
  apply div_signed.
  - replace (b <? 0) with (xorb false (xorb (b <? 0) false))
      by (by destruct (b <? 0)).
    apply mul_signed; [by eexists _, _|].
    apply div_signed; [|by eexists _, _].
    destruct (decide (b = 0)) as [->|Hnz]; [done|].
    apply finite_signed, of_Z_finite; lia.
  - replace false with (mem_total_kb <? 0) by (apply Z.ltb_ge; lia).
    apply of_Z_finite; lia.
Qed.

Lemma ltb_lex (x y : double) :
  is_nan x = false -> is_nan y = false ->
  ltb x y = true <-> lex_lt (order_key x) (order_key y).
Proof.
  unfold ltb, SFltb, lex_lt.
  destruct x as [sx|sx| |sx mx ex], y as [sy|sy| |sy my ey]; try done;
    intros _ _; cbn [SFcompare order_key];
    try (destruct sx; try destruct sy; simpl; split; (done || lia)).
  destruct sx, sy; simpl; try (split; (done || lia)).
  - destruct (Z.compare_spec ex ey); try (split; (done || lia)).
    rewrite Pos.compare_cont_spec. simpl.
    destruct (Pos.compare_spec mx my); simpl; split; (done || lia).
  - destruct (Z.compare_spec ex ey); try (split; (done || lia)).
    rewrite Pos.compare_cont_spec. simpl.
    destruct (Pos.compare_spec mx my); simpl; split; (done || lia).
Qed.

Lemma leb_lex (x y : double) :
  is_nan x = false -> is_nan y = false ->
  leb x y = true <-> ~ lex_lt (order_key y) (order_key x).
Proof.
  unfold leb, SFleb, lex_lt.
  destruct x as [sx|sx| |sx mx ex], y as [sy|sy| |sy my ey]; try done;
    intros _ _; cbn [SFcompare order_key];
    try (destruct sx; try destruct sy; simpl; split; (done || lia)).
  destruct sx, sy; simpl; try (split; (done || lia)).
  - destruct (Z.compare_spec ex ey); try (split; (done || lia)).
    rewrite Pos.compare_cont_spec. simpl.
    destruct (Pos.compare_spec mx my); simpl; split; (done || lia).
  - destruct (Z.compare_spec ex ey); try (split; (done || lia)).
    rewrite Pos.compare_cont_spec. simpl.
    destruct (Pos.compare_spec mx my); simpl; split; (done || lia).
Qed.

Lemma ltb_false_leb (x y : double) :
  is_nan x = false -> is_nan y = false ->
  ltb x y = false -> leb y x = true.
Proof.
  intros Hx Hy H. apply leb_lex; [done..|].
  intros Hl. apply (ltb_lex x y Hx Hy) in Hl. congruence.
Qed.

Lemma lex_lt_irrefl (a : Z * Z * Z) : ~ lex_lt a a.
Proof. unfold lex_lt. lia. Qed.

Lemma lex_lt_trans (a b c : Z * Z * Z) : lex_lt a b -> lex_lt b c -> lex_lt a c.
Proof. unfold lex_lt. lia. Qed.

Lemma lex_lt_incomparable (a b : Z * Z * Z) :
  ~ lex_lt a b -> ~ lex_lt b a -> a = b.
Proof.
  destruct a as [[a1 a2] a3], b as [[b1 b2] b3]. unfold lex_lt. simpl.
  intros. f_equal; [f_equal|]; lia.
Qed.

(** ** Sorting *)

Section InsertionSort.

Context {A : Type} (comp : A -> A -> bool) (P : A -> Prop).
Hypothesis Hswo : strict_weak_order comp P.

Lemma swo_asym (x y : A) : P x -> P y -> comp x y = true -> comp y x = false.
Proof.
  intros Hx Hy Hxy. destruct (comp y x) eqn:Hyx; [|done].
  rewrite <- (swo_irrefl comp P Hswo x Hx).
  symmetry. by apply (swo_trans comp P Hswo x y x).
Qed.

Lemma insert_sorted_perm (x : A) (l : list A) :
  insert_sorted comp x l ≡ₚ x :: l.
Proof.
  induction l as [|y l IH]; simpl; [done|].
  destruct (comp x y); [done|].
  rewrite IH. apply Permutation_swap.
Qed.

Lemma straight_insertion_perm (l : list A) : straight_insertion comp l ≡ₚ l.
Proof.
  induction l as [|x l IH]; simpl; [done|].
  rewrite insert_sorted_perm. by rewrite IH.
Qed.

Lemma insert_sorted_sorted (x : A) (l : list A) :
  P x -> Forall P l -> sorted_by comp l ->
  sorted_by comp (insert_sorted comp x l).
Proof.
  intros Hx. unfold sorted_by.
  induction l as [|y l IH]; simpl; intros HP Hs.
  - repeat constructor.
  - apply Forall_cons in HP as [Hy HP].
    apply StronglySorted_inv in Hs as [Hs Hy_le].
    destruct (comp x y) eqn:Hxy.
    + constructor; [by constructor|].
      constructor; [by apply swo_asym|].
      rewrite Forall_forall in Hy_le, HP. apply Forall_forall.
      intros b Hb. destruct (comp b x) eqn:Hbx; [|done].
      rewrite <- (Hy_le b Hb). symmetry.
      apply (swo_trans comp P Hswo b x y); auto.
    + constructor; [by apply IH|].
      rewrite insert_sorted_perm. by constructor.
Qed.

Lemma straight_insertion_sorted (l : list A) :
  Forall P l -> sorted_by comp (straight_insertion comp l).
Proof.
  induction l as [|x l IH]; simpl; intros HP.
  - constructor.
  - apply Forall_cons in HP as [Hx HP].
    apply insert_sorted_sorted; [done| |by apply IH].
    by rewrite straight_insertion_perm.
Qed.

End InsertionSort.

Lemma straight_insertion_contract : sort_contract straight_insertion.
Proof.
  intros comp l Hswo. split.
  - apply straight_insertion_perm.
  - apply (straight_insertion_sorted comp (fun x => x ∈ l) Hswo).
    by apply Forall_forall.
Qed.

(** The three comparators are strict weak orderings on entries whose
    percentages are numbers. *)

Lemma swo_by_double (f : ProcInfo -> double) (P : ProcInfo -> Prop) :
  (forall p, P p -> is_nan (f p) = false) ->
  strict_weak_order (fun a b => ltb (f b) (f a)) P.
Proof.
  intros HP. split.
  - intros x Hx. apply not_true_is_false. intros H.
    apply ltb_lex in H; auto. by apply lex_lt_irrefl in H.
  - intros x y z Hx Hy Hz Hxy Hyz.
    apply ltb_lex in Hxy, Hyz; auto. apply ltb_lex; auto.
    by apply (lex_lt_trans _ (order_key (f y))).
  - intros x y z Hx Hy Hz H1 H2 H3 H4.
    assert (E1 : order_key (f x) = order_key (f y)).
    { apply lex_lt_incomparable; intros H; apply ltb_lex in H; auto;
        congruence. }
    assert (E2 : order_key (f y) = order_key (f z)).
    { apply lex_lt_incomparable; intros H; apply ltb_lex in H; auto;
        congruence. }
    split; apply not_true_is_false; intros H; apply ltb_lex in H; auto;
      rewrite E1, E2 in H; by apply lex_lt_irrefl in H.
Qed.

Lemma swo_by_pid (P : ProcInfo -> Prop) : strict_weak_order by_pid P.
Proof.
  unfold by_pid. split.
  - intros x _. apply Z.ltb_irrefl.
  - intros x y z _ _ _. rewrite !Z.ltb_lt. lia.
  - intros x y z _ _ _. rewrite !Z.ltb_ge. lia.
Qed.

Lemma swo_comparator (m : SortMode) (l : list ProcInfo) :
  Forall numeric l -> strict_weak_order (comparator m) (fun x => x ∈ l).
Proof.
  intros Hl. rewrite Forall_forall in Hl.
  destruct m; simpl.
  - apply (swo_by_double cpu_percent). intros p Hp. by apply Hl.
  - apply (swo_by_double mem_percent). intros p Hp. by apply Hl.
  - apply swo_by_pid.
Qed.

Lemma sorted_by_ranked (m : SortMode) (l : list ProcInfo) :
  Forall numeric l -> sorted_by (comparator m) l -> StronglySorted (ranked m) l.
Proof.
  unfold sorted_by. intros Hn Hs.
  induction Hs as [|a l Hs IH Ha]; [constructor|].
  apply Forall_cons in Hn as [[Hc Hm] Hn].
  constructor; [by apply IH|].
  rewrite Forall_forall in Ha, Hn. apply Forall_forall. intros b Hb.
  specialize (Ha b Hb). destruct (Hn b Hb) as [Hbc Hbm].
  destruct m; simpl in *.
  - unfold by_cpu in Ha. by apply ltb_false_leb.
  - unfold by_mem in Ha. by apply ltb_false_leb.
  - unfold by_pid in Ha. by apply Z.ltb_ge.
Qed.

(** C5, as the code has it.  Whatever algorithm stands behind
    [std::sort], as long as it keeps the contract of the C++ standard:
    for each of the three sort modes, ranking a vector whose percentages
    are numbers returns a permutation of it, with the same pids, in which
    every entry is followed only by entries that the key ranks no higher
    (CPU and memory percentage descending, pid ascending).  Nothing is
    promised about the order of entries with equal keys. *)
Theorem rank_sorted_permutation
    (std_sort : (ProcInfo -> ProcInfo -> bool) -> list ProcInfo -> list ProcInfo)
    (Hsort : sort_contract std_sort)
    (m : SortMode) (procs : list ProcInfo) :
  Forall numeric procs ->
  rank std_sort m procs ≡ₚ procs
  /\ pid <$> rank std_sort m procs ≡ₚ pid <$> procs
  /\ StronglySorted (ranked m) (rank std_sort m procs).
Proof.
  intros Hn. unfold rank.
  destruct (Hsort (comparator m) procs (swo_comparator m procs Hn))
    as [Hperm Hsorted].
  split; [done|]. split; [by rewrite Hperm|].
  apply sorted_by_ranked; [|done].
  by rewrite Hperm.
Qed.

(** ** The result monad *)

Lemma bind_Ok {A B : Type} (r : result A) (k : A -> result B) (b : B) :
  r ≫= k = Ok b <-> exists a, r = Ok a /\ k a = Ok b.
Proof.
  destruct r as [a|f]; simpl; split.
  - intros H. by exists a.
  - by intros (a' & [= <-] & H).
  - done.
  - by intros (a' & [=] & _).
Qed.

Lemma is_ok_bind {A B : Type} (r : result A) (k : A -> result B) :
  is_ok (r ≫= k) <-> exists a, r = Ok a /\ is_ok (k a).
Proof.
  unfold is_ok. split.
  - intros (b & H). apply bind_Ok in H as (a & Ha & Hb). eauto.
  - intros (a & Ha & b & Hb). exists b. apply bind_Ok. eauto.
Qed.

Lemma wrap64_range (z : Z) : 0 <= wrap64 z < 2 ^ 64.
Proof. unfold wrap64. apply Z.mod_pos_bound. done. Qed.


(** ** The readers *)

Lemma char_code_range (c : ascii) : 0 <= char_code c.
Proof. unfold char_code. lia. Qed.

Lemma digits_prefix_nonneg (s : string) (acc : option Z) (v : Z) :
  0 <= default 0 acc -> digits_prefix acc s = Some v -> 0 <= v.
Proof.
  revert acc. induction s as [|c s IH]; simpl; intros acc Hacc H.
  - subst. done.
  - destruct (isdigit c) eqn:Hd.
    + apply IH in H; [done|]. simpl.
      unfold isdigit in Hd. apply andb_true_iff in Hd as [Hd _].
      apply Z.leb_le in Hd. lia.
    + subst. done.
Qed.

Lemma strto_nonneg (s : string) (neg : bool) (v : Z) :
  strto s = Some (neg, v) -> 0 <= v.
Proof.
  unfold strto. destruct (split_sign (skip_space s)) as [neg' s2].
  destruct (digits_prefix None s2) as [m|] eqn:E; simpl; [|done].
  intros [= _ <-]. by apply digits_prefix_nonneg in E.
Qed.

Lemma stoul_range (s : string) (v : Z) : stoul s = Ok v -> 0 <= v < 2 ^ 64.
Proof.
  unfold stoul. destruct (strto s) as [[neg m]|] eqn:E; [|done].
  apply strto_nonneg in E.
  destruct (m <=? ULONG_MAX) eqn:Hle; [|done]. apply Z.leb_le in Hle.
  intros [= <-]. destruct neg; [apply wrap64_range|].
  unfold ULONG_MAX in Hle. lia.
Qed.

Lemma stol_range (s : string) (v : Z) : stol s = Ok v -> - 2 ^ 63 <= v < 2 ^ 63.
Proof.
  unfold stol. destruct (strto s) as [[neg m]|]; [|done].
  destruct (in_long _) eqn:Hl; [|done]. intros [= <-].
  unfold in_long, LONG_MIN, LONG_MAX in Hl.
  apply andb_true_iff in Hl as [H1 H2]. apply Z.leb_le in H1, H2. lia.
Qed.

Lemma read_stat_pid (w : World) (p q : ProcInfo) :
  read_stat w p = Ok q -> pid q = pid p.
Proof.
  unfold read_stat. destruct (w_stat w (pid p)) as [line|]; [|by intros [= <-]].
  destruct (23 <? length (words line))%nat; [|by intros [= <-]].
  intros H.
  apply bind_Ok in H as (ut & _ & H). apply bind_Ok in H as (st & _ & H).
  apply bind_Ok in H as (vs & _ & H). apply bind_Ok in H as (rs & _ & H).
  by injection H as <-.
Qed.

Lemma read_stat_range (w : World) (p q : ProcInfo) :
  counters_in_range p -> read_stat w p = Ok q -> counters_in_range q.
Proof.
  intros Hp. unfold read_stat.
  destruct (w_stat w (pid p)) as [line|]; [|by intros [= <-]].
  destruct (23 <? length (words line))%nat; [|by intros [= <-]].
  intros H.
  apply bind_Ok in H as (ut & Hut & H). apply bind_Ok in H as (st & Hst & H).
  apply bind_Ok in H as (vs & Hvs & H). apply bind_Ok in H as (rs & Hrs & H).
  injection H as <-. unfold counters_in_range. simpl.
  apply stoul_range in Hut, Hst, Hvs. apply stol_range in Hrs. done.
Qed.

(** A [stat] file that cannot be opened, or a line of at most 23 fields,
    leaves the entry as it was. *)
Lemma read_stat_unreadable (w : World) (p : ProcInfo) :
  w_stat w (pid p) = None -> read_stat w p = Ok p.
Proof. unfold read_stat. by intros ->. Qed.

Lemma read_stat_short (w : World) (p : ProcInfo) (line : string) :
  w_stat w (pid p) = Some line -> (length (words line) <= 23)%nat ->
  read_stat w p = Ok p.
Proof.
  unfold read_stat. intros -> Hlen.
  by replace (23 <? length (words line))%nat with false
    by (symmetry; apply Nat.ltb_ge; lia).
Qed.

Lemma read_status_line_counters (w : World) (p : ProcInfo) (line : string) :
  same_counters (read_status_line w p line) p.
Proof.
  unfold read_status_line, same_counters.
  by destruct (starts_with "Uid:" line).
Qed.

Lemma read_status_counters (w : World) (p : ProcInfo) :
  same_counters (read_status w p) p.
Proof.
  unfold read_status.
  destruct (w_status w (pid p)) as [lines|]; [|done].
  revert p. induction lines as [|l lines IH]; intros p; simpl; [done|].
  destruct (IH (read_status_line w p l)) as (?&?&?&?&?&?).
  destruct (read_status_line_counters w p l) as (?&?&?&?&?&?).
  unfold same_counters. repeat split; congruence.
Qed.

Lemma read_proc_counters (w : World) (n : Z) (p : ProcInfo) :
  read_proc w n = Ok p ->
  exists p0, read_stat w (blank_proc w n) = Ok p0 /\ same_counters p p0.
Proof.
  unfold read_proc. intros H. apply bind_Ok in H as (p0 & Hp0 & H).
  exists p0. split; [done|].
  pose proof (read_status_counters w p0) as Hc.
  injection H as <-.
  by destruct (String.eqb (user (read_status w p0)) "").
Qed.

Lemma read_proc_pid (w : World) (n : Z) (p : ProcInfo) :
  read_proc w n = Ok p -> pid p = n.
Proof.
  intros H. apply read_proc_counters in H as (p0 & Hp0 & Hc & _).
  apply read_stat_pid in Hp0. simpl in Hp0. congruence.
Qed.

Lemma read_proc_range (w : World) (n : Z) (p : ProcInfo) :
  read_proc w n = Ok p -> counters_in_range p.
Proof.
  intros H. apply read_proc_counters in H as (p0 & Hp0 & Hc).
  apply read_stat_range in Hp0; [|by unfold counters_in_range; cbn].
  destruct Hc as (_&_&?&?&?&?). unfold counters_in_range in *.
  repeat split; try congruence; lia.
Qed.

(** The entry [read_proc] returns for a process it could not read. *)
Lemma read_proc_unreadable (w : World) (n : Z) :
  w_stat w n = None ->
  exists p, read_proc w n = Ok p /\ same_counters p (blank_proc w n).
Proof.
  intros Hn. unfold read_proc.
  rewrite read_stat_unreadable by done. simpl.
  eexists. split; [done|].
  pose proof (read_status_counters w (blank_proc w n)) as Hc.
  by destruct (String.eqb (user (read_status w (blank_proc w n))) "").
Qed.

(** ** One iteration of the sampling loop *)

Lemma cur_jiffies_range (p : ProcInfo) : 0 <= cur_jiffies p < 2 ^ 64.
Proof. apply wrap64_range. Qed.

Lemma proc_delta_range (cur prev : Z) :
  0 <= cur < 2 ^ 64 -> 0 <= prev -> 0 <= proc_delta cur prev < 2 ^ 64.
Proof. unfold proc_delta. destruct (Z.leb_spec prev cur); lia. Qed.

Lemma proc_delta_reuse (cur prev : Z) : cur < prev -> proc_delta cur prev = 0.
Proof. unfold proc_delta. destruct (Z.leb_spec prev cur); lia. Qed.

Lemma proc_delta_fresh (cur : Z) : 0 <= cur -> proc_delta cur 0 = cur.
Proof. unfold proc_delta. destruct (Z.leb_spec 0 cur); lia. Qed.

Lemma total_delta_range (total prev : Z) :
  total < 2 ^ 64 -> 0 <= prev -> 0 <= total_delta_of total prev < 2 ^ 64.
Proof. unfold total_delta_of. destruct (Z.leb_spec prev total); lia. Qed.

Lemma total_delta_backwards (total prev : Z) :
  total <= prev -> total_delta_of total prev = 0.
Proof. unfold total_delta_of. destruct (Z.leb_spec prev total); lia. Qed.

Lemma cpu_pct_no_delta (delta total_delta : Z) :
  total_delta <= 0 -> cpu_pct delta total_delta = zero.
Proof.
  unfold cpu_pct. intros H.
  by replace (0 <? total_delta) with false by (symmetry; apply Z.ltb_ge; lia).
Qed.

Lemma mem_pct_no_memory (rss page_size : Z) : mem_pct rss page_size 0 = Ok zero.
Proof. reflexivity. Qed.

Lemma derive_proc_Ok (s : Sample) (m : gmap Z Z) (p p' : ProcInfo)
    (m' : gmap Z Z) :
  derive_proc s m p = Ok (p', m') <->
  exists x, mem_pct (rss p) (page_size s) (mem_total_kb s) = Ok x
    /\ p' = with_percent p
              (cpu_pct (proc_delta (cur_jiffies p) (prev_of m (pid p)))
                 (total_delta_of (total_jiffies s) (prev_total s))) x
    /\ m' = <[pid p := cur_jiffies p]> m.
Proof.
  unfold derive_proc. rewrite bind_Ok. split.
  - intros (x & Hx & [= <- <-]). by exists x.
  - intros (x & Hx & -> & ->). by exists x.
Qed.

(** ** The sampling loop

    The rule for the [for] loop: a property of the pids handled so far,
    the vector and the map that every iteration preserves holds when the
    loop is left. *)
Lemma sample_loop_invariant (w : World) (s : Sample) (all : list Z)
    (I : list Z -> list ProcInfo -> gmap Z Z -> Prop) :
  (forall (seen : list Z) n rest (procs : list ProcInfo) m p p' m',
      all = seen ++ n :: rest -> I seen procs m ->
      read_proc w n = Ok p -> derive_proc s m p = Ok (p', m') ->
      I (seen ++ [n]) (procs ++ [p']) m') ->
  forall pids (seen : list Z) procs m procs' m',
    all = seen ++ pids -> I seen procs m ->
    sample_loop w s pids procs m = Ok (procs', m') ->
    I all procs' m'.
Proof.
  intros Hstep pids.
  induction pids as [|n pids IH]; intros seen procs m procs' m' Hall HI H.
  - simpl in H. injection H as <- <-. by rewrite Hall, app_nil_r.
  - simpl in H. apply bind_Ok in H as (p & Hp & H).
    apply bind_Ok in H as ([p1 m1] & Hd & H).
    apply (IH (seen ++ [n]) (procs ++ [p1]) m1); [|by eapply Hstep|done].
    by rewrite <- app_assoc.
Qed.

Lemma sample_loop_defined (w : World) (s : Sample) (pids : list Z)
    (procs : list ProcInfo) (m : gmap Z Z) :
  is_ok (sample_loop w s pids procs m) <-> Forall (sample_defined w s) pids.
Proof.
  revert procs m. induction pids as [|n pids IH]; intros procs m; simpl.
  - split; [by constructor|]. intros _. by eexists.
  - rewrite Forall_cons, is_ok_bind. split.
    + intros (p & Hp & H). apply is_ok_bind in H as ([p1 m1] & Hd & H).
      apply IH in H. split; [|done]. exists p. split; [done|].
      apply derive_proc_Ok in Hd as (x & Hx & _). by exists x.
    + intros [(p & Hp & x & Hx) H]. exists p. split; [done|].
      apply is_ok_bind. eexists (_, _). split.
      * apply derive_proc_Ok. eauto.
      * by apply IH.
Qed.

(** The vector holds one entry per pid, in the order of the pids. *)
Lemma sample_loop_pids (w : World) (s : Sample) (pids : list Z)
    (m : gmap Z Z) (procs : list ProcInfo) (m' : gmap Z Z) :
  sample_loop w s pids [] m = Ok (procs, m') -> pid <$> procs = pids.
Proof.
  intros H.
  apply (sample_loop_invariant w s pids
           (fun seen procs _ => pid <$> procs = seen)) with (seen := [])
    in H; [done| |done|done].
  intros seen n rest procs0 m0 p p1 m1 _ IH Hp Hd.
  apply derive_proc_Ok in Hd as (x & _ & -> & _).
  apply read_proc_pid in Hp.
  rewrite fmap_app, IH. simpl. by rewrite Hp.
Qed.

(** Every entry was read by [read_proc] and completed by [derive_proc]
    from the map as it stood when its turn came, which differs from the
    map at the start of the loop only at the pids handled before. *)
Lemma sample_loop_entries (w : World) (s : Sample) (pids : list Z)
    (m : gmap Z Z) (procs : list ProcInfo) (m' : gmap Z Z) :
  sample_loop w s pids [] m = Ok (procs, m') ->
  Forall (fun p' => exists p (seen rest : list Z) m0 m1,
            pids = seen ++ pid p' :: rest
            /\ read_proc w (pid p') = Ok p
            /\ derive_proc s m0 p = Ok (p', m1)
            /\ forall k, k ∉ seen -> m0 !! k = m !! k) procs.
Proof.
  intros H.
  apply (sample_loop_invariant w s pids
           (fun seen procs m0 =>
              Forall (fun p' => exists p (seen rest : list Z) m0 m1,
                        pids = seen ++ pid p' :: rest
                        /\ read_proc w (pid p') = Ok p
                        /\ derive_proc s m0 p = Ok (p', m1)
                        /\ forall k, k ∉ seen -> m0 !! k = m !! k) procs
              /\ forall k, k ∉ seen -> m0 !! k = m !! k))
    with (seen := []) in H; [by destruct H| |done|done].
  intros seen n rest procs0 m0 p p1 m1 Hall [IH Hm0] Hp Hd.
  assert (pid p1 = n) as Hn.
  { apply derive_proc_Ok in Hd as (x & _ & -> & _).
    by apply read_proc_pid in Hp. }
  split.
  - apply Forall_app. split; [done|]. constructor; [|done].
    exists p, seen, rest, m0, m1. by rewrite Hn.
  - intros k Hk.
    apply derive_proc_Ok in Hd as (x & _ & _ & ->).
    apply read_proc_pid in Hp. rewrite Hp.
    rewrite lookup_insert_ne; [|set_solver]. apply Hm0. set_solver.
Qed.

(** The map after the loop: what it holds for the pids sampled, and for
    the others. *)
Lemma sample_loop_map (w : World) (s : Sample) (pids : list Z)
    (m : gmap Z Z) (procs : list ProcInfo) (m' : gmap Z Z) :
  sample_loop w s pids [] m = Ok (procs, m') ->
  (forall n, n ∈ pids ->
     exists p, p ∈ procs /\ pid p = n /\ m' !! n = Some (cur_jiffies p))
  /\ (forall n, n ∉ pids -> m' !! n = m !! n).
Proof.
  intros H.
  apply (sample_loop_invariant w s pids
           (fun seen procs m0 =>
              (forall n, n ∈ seen ->
                 exists p, p ∈ procs /\ pid p = n
                           /\ m0 !! n = Some (cur_jiffies p))
              /\ (forall n, n ∉ seen -> m0 !! n = m !! n)))
    with (seen := []) in H; [done| | done |].
  - intros seen n rest procs0 m0 p p1 m1 Hall [IH1 IH2] Hp Hd.
    apply derive_proc_Ok in Hd as (x & _ & -> & ->).
    apply read_proc_pid in Hp. rewrite Hp.
    split.
    + intros k Hk. destruct (decide (k = n)) as [->|Hne].
      * eexists. split; [apply elem_of_app; right; by apply list_elem_of_singleton|].
        simpl. split; [done|]. by rewrite lookup_insert_eq.
      * destruct (proj1 (elem_of_app _ _ _) Hk) as [Hin|Hin];
          [|by apply list_elem_of_singleton in Hin].
        destruct (IH1 k Hin) as (q & Hq & Hpid & Hlook).
        exists q. split; [apply elem_of_app; by left|]. split; [done|].
        by rewrite lookup_insert_ne.
    + intros k Hk. rewrite lookup_insert_ne; [|set_solver].
      apply IH2. set_solver.
  - split; [set_solver|done].
Qed.

(** ** The sampling cycle: claims C1, C2, C4, C6, C7 *)

(** With no system ticks to share, every entry gets [0.0]. *)
Lemma sample_loop_idle (w : World) (s : Sample) (pids : list Z)
    (m : gmap Z Z) (procs : list ProcInfo) (m' : gmap Z Z) :
  total_jiffies s <= prev_total s ->
  sample_loop w s pids [] m = Ok (procs, m') ->
  Forall (fun p => cpu_percent p = zero) procs.
Proof.
  intros Hback H. apply sample_loop_entries in H.
  rewrite Forall_forall in H. apply Forall_forall. intros p' Hin.
  destruct (H p' Hin) as (p & seen & rest & m0 & m1 & _ & _ & Hd & _).
  apply derive_proc_Ok in Hd as (x & _ & -> & _). cbn [cpu_percent with_percent].
  rewrite (total_delta_backwards _ _ Hback). by apply cpu_pct_no_delta.
Qed.

(** C7.  When the system-wide tick delta of a cycle is zero, or the
    system counter went backwards so that the delta is clamped to zero,
    every entry the sampling loop produces has [cpu_percent] equal to
    [0.0].  No division takes place: the loop runs to its end exactly
    when every process can be read and its resident size computed,
    whatever the tick counters are. *)
Theorem zero_system_delta_zero_cpu (w : World) (s : Sample) (pids : list Z)
    (m : gmap Z Z) :
  total_jiffies s <= prev_total s ->
  (is_ok (sample_loop w s pids [] m) <-> Forall (sample_defined w s) pids)
  /\ forall procs m',
       sample_loop w s pids [] m = Ok (procs, m') ->
       Forall (fun p => cpu_percent p = zero) procs.
Proof.
  intros Hback. split; [apply sample_loop_defined|].
  intros procs m'. by apply sample_loop_idle.
Qed.

(** C1, as the code has it.  On the first cycle the map of previous ticks
    is empty and every lookup falls back to 0, so the tick delta of a
    process is the whole of its accumulated ticks and its [cpu_percent]
    is [cpu_pct] of those ticks and the system delta: zero for every
    process when the system delta is zero, not otherwise.  The empty map
    is no source of faults: the loop runs to its end from it exactly when
    it does from any other map. *)
Theorem first_cycle_cpu (w : World) (s : Sample) (pids : list Z) :
  (forall m, is_ok (sample_loop w s pids [] ∅)
             <-> is_ok (sample_loop w s pids [] m))
  /\ forall procs m',
       NoDup pids ->
       sample_loop w s pids [] ∅ = Ok (procs, m') ->
       Forall (fun p =>
                 cpu_percent p
                 = cpu_pct (cur_jiffies p)
                     (total_delta_of (total_jiffies s) (prev_total s)))
         procs
       /\ (total_jiffies s <= prev_total s ->
           Forall (fun p => cpu_percent p = zero) procs).
Proof.
  split; [intros m; by rewrite !sample_loop_defined|].
  intros procs m' Hnd H. split.
  - apply sample_loop_entries in H.
    rewrite Forall_forall in H. apply Forall_forall. intros p' Hin.
    destruct (H p' Hin) as (p & seen & rest & m0 & m1 & Hall & Hp & Hd & Hm0).
    assert (Hfresh : m0 !! pid p' = None).
    { rewrite Hm0; [done|]. rewrite Hall in Hnd.
      apply NoDup_app in Hnd as (_ & Hnd & _). set_solver. }
    apply derive_proc_Ok in Hd as (x & _ & -> & _). simpl in *.
    unfold prev_of. rewrite Hfresh.
    rewrite proc_delta_fresh; [done|]. apply cur_jiffies_range.
  - intros Hback. by apply (sample_loop_idle w s pids ∅ procs m').
Qed.

(** C2, as the code has it.  The map is declared outside the loop and
    only ever written with [operator[]]: after a cycle it holds the
    current ticks of every pid of the snapshot and still holds, unchanged,
    whatever it held for any other pid.  Its key set is the previous key
    set together with the current pids. *)
Theorem carried_map_accumulates (w : World) (s : Sample) (pids : list Z)
    (m : gmap Z Z) (procs : list ProcInfo) (m' : gmap Z Z) :
  sample_loop w s pids [] m = Ok (procs, m') ->
  (forall n, n ∈ pids ->
     exists p, p ∈ procs /\ pid p = n /\ m' !! n = Some (cur_jiffies p))
  /\ (forall n, n ∉ pids -> m' !! n = m !! n)
  /\ dom m' = dom m ∪ list_to_set pids.
Proof.
  intros H. destruct (sample_loop_map w s pids m procs m' H) as [H1 H2].
  split; [done|]. split; [done|].
  apply set_eq. intros n.
  rewrite elem_of_union, !elem_of_dom, elem_of_list_to_set.
  destruct (decide (n ∈ pids)) as [Hin|Hout].
  - destruct (H1 n Hin) as (p & _ & _ & ->). split; [by right|by eexists].
  - rewrite (H2 n Hout). split; [by left|]. by intros [?|?].
Qed.

(** A process without resident pages takes no share of the memory. *)
Lemma mem_pct_no_pages (page_size mem_total_kb : Z) :
  mem_total_kb < 2 ^ 64 -> mem_pct 0 page_size mem_total_kb = Ok zero.
Proof.
  intros Ht. unfold mem_pct.
  destruct (0 <? mem_total_kb) eqn:E; [|done]. apply Z.ltb_lt in E.
  change (long_mul 0 page_size) with (@Ok Z 0).
  destruct (of_Z_finite mem_total_kb ltac:(lia) ltac:(lia)) as (mt & et & Hmt).
  cbn [mbind result_bind]. rewrite Hmt. f_equal.
  replace (mem_total_kb <? 0) with false by (symmetry; apply Z.ltb_ge; lia).
  reflexivity.
Qed.

(** C4, as the code has it.  [read_proc] has no way to report a failure:
    when [/proc/<pid>/stat] cannot be opened it returns the entry it
    started from, and the loop pushes it like any other.  The vector
    holds one entry per enumerated pid, in enumeration order; a process
    that could not be read never stops the loop, and its entry carries
    the pid with zero ticks, zero resident pages, zero virtual size, an
    empty command and a memory percentage of zero. *)
Theorem unreadable_process_kept (w : World) (s : Sample) (pids : list Z)
    (m : gmap Z Z) :
  (forall n, w_stat w n = None -> sample_defined w s n)
  /\ forall procs m',
       sample_loop w s pids [] m = Ok (procs, m') ->
       pid <$> procs = pids
       /\ forall p, p ∈ procs -> w_stat w (pid p) = None ->
            utime p = 0 /\ stime p = 0 /\ rss p = 0 /\ vsize p = 0
            /\ cmd p = ""
            /\ (mem_total_kb s < 2 ^ 64 -> mem_percent p = zero).
Proof.
  split.
  - intros n Hn. destruct (read_proc_unreadable w n Hn) as (p & Hp & Hc).
    exists p. split; [done|].
    destruct Hc as (_ & _ & _ & _ & Hrss & _). rewrite Hrss. simpl.
    unfold mem_pct. destruct (0 <? mem_total_kb s); by eexists.
  - intros procs m' H. split; [by apply sample_loop_pids in H|].
    intros p' Hin Hstat. apply sample_loop_entries in H.
    rewrite Forall_forall in H.
    destruct (H p' Hin) as (p & seen & rest & m0 & m1 & _ & Hp & Hd & _).
    destruct (read_proc_unreadable w (pid p') Hstat) as (q & Hq & Hc).
    rewrite Hp in Hq. injection Hq as <-.
    destruct Hc as (_ & Hcmd & Hut & Hst & Hrss & Hvs). simpl in *.
    apply derive_proc_Ok in Hd as (x & Hx & -> & _). simpl.
    repeat split; try done.
    intros Hmt. rewrite Hrss, mem_pct_no_pages in Hx by done.
    by injection Hx.
Qed.

(** C6.  For a process sampled before, with previous ticks [prev] in the
    map, the [cpu_percent] the loop derives is a number not below zero;
    and when the current ticks are lower than [prev], as after the reuse
    of a pid, the tick delta is 0 and [cpu_percent] is [0.0]. *)
Theorem cpu_percent_never_negative (s : Sample) (m : gmap Z Z)
    (p p' : ProcInfo) (m' : gmap Z Z) (prev : Z) :
  m !! pid p = Some prev -> 0 <= prev ->
  0 <= prev_total s -> total_jiffies s < 2 ^ 64 ->
  derive_proc s m p = Ok (p', m') ->
  leb zero (cpu_percent p') = true
  /\ ltb (cpu_percent p') zero = false
  /\ (cur_jiffies p < prev ->
      proc_delta (cur_jiffies p) prev = 0 /\ cpu_percent p' = zero).
Proof.
  intros Hprev Hp0 Hpt Ht Hd.
  apply derive_proc_Ok in Hd as (x & _ & -> & _). simpl.
  unfold prev_of. rewrite Hprev.
  pose proof (cur_jiffies_range p) as Hc.
  pose proof (total_delta_range _ _ Ht Hpt) as Htd.
  pose proof (proc_delta_range _ _ Hc Hp0) as Hpd.
  destruct (signed_false_nonneg
              (cpu_pct (proc_delta (cur_jiffies p) prev)
                 (total_delta_of (total_jiffies s) (prev_total s))))
    as [H1 H2]; [apply cpu_pct_signed; lia|].
  split; [done|]. split; [done|].
  intros Hlt. rewrite proc_delta_reuse by done. split; [done|].
  apply cpu_pct_zero_delta. lia.
Qed.

(** ** Commands: claims C3, C9, C10 *)

Lemma to_int_le (z : Z) : 0 <= z -> to_int z <= z.
Proof.
  intros Hz. unfold to_int.
  pose proof (Z.mod_le (z + 2 ^ 31) (2 ^ 32) ltac:(lia) ltac:(lia)). lia.
Qed.

Lemma to_int_small (z : Z) : - 2 ^ 31 <= z < 2 ^ 31 -> to_int z = z.
Proof. intros Hz. unfold to_int. rewrite Z.mod_small; lia. Qed.

Lemma size_int_le (procs : list ProcInfo) :
  size_int procs <= Z.of_nat (length procs).
Proof. apply to_int_le. lia. Qed.

Lemma int_add_Ok (a b r : Z) : int_add a b = Ok r -> r = a + b /\ in_int r = true.
Proof.
  unfold int_add. destruct (in_int (a + b)) eqn:E; [|done].
  by intros [= <-].
Qed.

Lemma int_sub_Ok (a b r : Z) : int_sub a b = Ok r -> r = a - b /\ in_int r = true.
Proof.
  unfold int_sub. destruct (in_int (a - b)) eqn:E; [|done].
  by intros [= <-].
Qed.

Lemma in_int_range (z : Z) : in_int z = true <-> INT_MIN <= z <= INT_MAX.
Proof. unfold in_int. rewrite andb_true_iff, !Z.leb_le. done. Qed.

Lemma int_add_in_range (a b : Z) :
  INT_MIN <= a + b <= INT_MAX -> int_add a b = Ok (a + b).
Proof. intros H. unfold int_add. by rewrite (proj2 (in_int_range _) H). Qed.

Lemma int_sub_in_range (a b : Z) :
  INT_MIN <= a - b <= INT_MAX -> int_sub a b = Ok (a - b).
Proof. intros H. unfold int_sub. by rewrite (proj2 (in_int_range _) H). Qed.

(** The guard of line 194 keeps [procs[highlight]] inside the vector. *)
Lemma on_kill_cases (w : World) (ch h : Z) (procs : list ProcInfo) :
  (on_kill w ch h procs = Ok None
   /\ ~ (ch = key "k" /\ 0 <= h < size_int procs))
  \/ (ch = key "k" /\ 0 <= h < size_int procs
      /\ exists p, procs !! Z.to_nat h = Some p
           /\ on_kill w ch h procs
              = Ok (Some (mkKillCall (pid p) (w_kill w (pid p))))).
Proof.
  unfold on_kill.
  destruct (Z.eqb_spec ch (key "k")) as [Hk|Hk]; simpl; [|left; split; [done|tauto]].
  destruct (Z.leb_spec 0 h) as [H0|H0]; simpl; [|left; split; [done|lia]].
  destruct (Z.ltb_spec h (size_int procs)) as [Hn|Hn]; simpl;
    [|left; split; [done|lia]].
  right. split; [done|]. split; [done|].
  pose proof (size_int_le procs) as Hle.
  destruct (lookup_lt_is_Some_2 procs (Z.to_nat h) ltac:(lia)) as [p Hp].
  exists p. split; [done|].
  unfold vector_at.
  replace (h <? 0) with false by (symmetry; apply Z.ltb_ge; lia).
  by rewrite Hp.
Qed.

(** What a successful [handle_key] did, command by command. *)
Lemma handle_key_Ok (w : World) (c : Controls) (procs : list ProcInfo)
    (c' : Controls) (k : option KillCall) :
  handle_key w c procs = Ok (Continue c' k) ->
  (w_key w = ERR /\ c' = c /\ k = None)
  \/ (w_key w <> ERR /\ w_key w <> key "q"
      /\ exists h1,
           on_key_up (w_key w) (highlight c) = Ok h1
           /\ on_key_down (w_key w) h1 procs = Ok (highlight c')
           /\ sortmode c' = on_sort_key (w_key w) (sortmode c)
           /\ exists iv1,
                on_plus (w_key w) (interval_s c) = Ok iv1
                /\ on_minus (w_key w) iv1 = Ok (interval_s c')
                /\ on_kill w (w_key w) (highlight c') procs = Ok k).
Proof.
  unfold handle_key.
  destruct (Z.eqb_spec (w_key w) ERR) as [He|He]; [intros [= <- <-]; by left|].
  destruct (Z.eqb_spec (w_key w) (key "q")) as [Hq|Hq]; [done|].
  intros H. right. split; [done|]. split; [done|].
  apply bind_Ok in H as (h1 & Hh1 & H). apply bind_Ok in H as (h2 & Hh2 & H).
  apply bind_Ok in H as (iv1 & Hiv1 & H). apply bind_Ok in H as (iv2 & Hiv2 & H).
  apply bind_Ok in H as (k' & Hk & H). injection H as <- <-. simpl.
  exists h1. repeat split; try done. by exists iv1.
Qed.

(** C10.  [kill] is called only from inside the guard
    [0 <= highlight < procs.size()]: a call that [handle_key] reports was
    made for the kill command and for the pid of the entry at the
    cursor, which lies inside the vector.  When the command arrives with
    the cursor outside the vector (in particular with an empty vector,
    where the cursor may be -1) no call is made and the loop goes on
    with its variables unchanged.  No access outside the vector ever
    takes place. *)
Theorem kill_only_in_range (w : World) (c : Controls) (procs : list ProcInfo) :
  handle_key w c procs <> Fault OutOfBounds
  /\ (forall c' call,
        handle_key w c procs = Ok (Continue c' (Some call)) ->
        w_key w = key "k" /\ c' = c
        /\ 0 <= highlight c < Z.of_nat (length procs)
        /\ exists p, procs !! Z.to_nat (highlight c) = Some p
             /\ call = mkKillCall (pid p) (w_kill w (pid p)))
  /\ (w_key w = key "k" ->
      ~ (0 <= highlight c < Z.of_nat (length procs)) ->
      handle_key w c procs = Ok (Continue c None)).
Proof.
  assert (Hkey : w_key w = key "k" ->
            handle_key w c procs
            = k ← on_kill w (key "k") (highlight c) procs;
              Ok (Continue c k)).
  { intros Hk. unfold handle_key. rewrite Hk. by destruct c. }
  split; [|split].
  - unfold handle_key.
    destruct (w_key w =? ERR); [done|]. destruct (w_key w =? key "q"); [done|].
    unfold on_key_up, on_key_down, on_plus, on_minus, int_add, int_sub.
    repeat (match goal with
            | |- context [if ?b then _ else _] => destruct b
            end; cbn [mbind result_bind]; try done).
    all: match goal with
         | |- context [on_kill ?w ?ch ?h ?ps] =>
             destruct (on_kill_cases w ch h ps)
               as [[-> _]|(_ & _ & p & _ & ->)]
         end; done.
  - intros c' call H.
    destruct (handle_key_Ok _ _ _ _ _ H) as [(_ & _ & [=])|Hcmd].
    destruct Hcmd as (_ & _ & h1 & _ & _ & _ & iv1 & _ & _ & Hk).
    destruct (on_kill_cases w (w_key w) (highlight c') procs)
      as [[Hnone _]|(Hch & Hin & p & Hp & Hsome)]; [congruence|].
    rewrite (Hkey Hch) in H.
    destruct (on_kill_cases w (key "k") (highlight c) procs)
      as [[Hnone _]|(_ & Hin' & q & Hq & Hsome')].
    { rewrite Hnone in H. done. }
    rewrite Hsome' in H. injection H as <- <-.
    pose proof (size_int_le procs).
    split; [done|]. split; [done|]. split; [lia|]. by exists q.
  - intros Hk Hout. rewrite (Hkey Hk).
    destruct (on_kill_cases w (key "k") (highlight c) procs)
      as [[-> _]|(_ & Hin & _)]; [done|].
    pose proof (size_int_le procs). lia.
Qed.

Lemma on_key_up_Ok (ch h h' : Z) :
  on_key_up ch h = Ok h' ->
  (ch = KEY_UP /\ h' = Z.max 0 (h - 1)) \/ (ch <> KEY_UP /\ h' = h).
Proof.
  unfold on_key_up. destruct (Z.eqb_spec ch KEY_UP) as [E|E].
  - intros H. apply bind_Ok in H as (d & Hd & [= <-]).
    apply int_sub_Ok in Hd as [-> _]. by left.
  - intros [= <-]. by right.
Qed.

Lemma on_key_down_Ok (ch h h' : Z) (procs : list ProcInfo) :
  on_key_down ch h procs = Ok h' ->
  (ch = KEY_DOWN /\ h' = Z.min (size_int procs - 1) (h + 1))
  \/ (ch <> KEY_DOWN /\ h' = h).
Proof.
  unfold on_key_down. destruct (Z.eqb_spec ch KEY_DOWN) as [E|E].
  - intros H. apply bind_Ok in H as (l & Hl & H).
    apply bind_Ok in H as (u & Hu & [= <-]).
    apply int_sub_Ok in Hl as [-> _]. apply int_add_Ok in Hu as [-> _].
    by left.
  - intros [= <-]. by right.
Qed.

Lemma on_plus_Ok (ch iv iv' : Z) :
  on_plus ch iv = Ok iv' ->
  (ch = key "+" /\ iv' = Z.max 1 (iv - 1)) \/ (ch <> key "+" /\ iv' = iv).
Proof.
  unfold on_plus. destruct (Z.eqb_spec ch (key "+")) as [E|E].
  - intros H. apply bind_Ok in H as (d & Hd & [= <-]).
    apply int_sub_Ok in Hd as [-> _]. by left.
  - intros [= <-]. by right.
Qed.

Lemma on_minus_Ok (ch iv iv' : Z) :
  on_minus ch iv = Ok iv' ->
  (ch = key "-" /\ iv' = iv + 1 /\ iv' <= INT_MAX) \/ (ch <> key "-" /\ iv' = iv).
Proof.
  unfold on_minus. destruct (Z.eqb_spec ch (key "-")) as [E|E].
  - intros H. apply int_add_Ok in H as [-> Hr].
    apply in_int_range in Hr. left. split; [done|]. split; [done|lia].
  - intros [= <-]. by right.
Qed.

(** A row is drawn in reverse video only at the index of the cursor. *)
Lemma render_rows_reverse (i max_display n h page : Z) (ps : list ProcInfo)
    (rows : list Row) :
  render_rows i max_display n h page ps = Ok rows ->
  Forall (fun r => row_reverse r = true ->
                   row_y r = 4 + h /\ i <= h < i + Z.of_nat (length ps)) rows.
Proof.
  revert i rows. induction ps as [|p ps IH]; intros i rows; simpl.
  - intros [= <-]. constructor.
  - destruct ((i <? max_display) && (i <? n)); [|intros [= <-]; constructor].
    intros H. apply bind_Ok in H as (kb & _ & H).
    apply bind_Ok in H as (y & Hy & H). apply bind_Ok in H as (i' & Hi' & H).
    apply bind_Ok in H as (rest & Hrest & [= <-]).
    apply int_add_Ok in Hy as [-> _]. apply int_add_Ok in Hi' as [-> _].
    constructor; simpl.
    + intros Hrev. apply Z.eqb_eq in Hrev. lia.
    + apply IH in Hrest. rewrite Forall_forall in Hrest. apply Forall_forall.
      intros r Hr Hrev. specialize (Hrest r Hr Hrev). lia.
Qed.

Section Loop.

Variable std_sort :
  (ProcInfo -> ProcInfo -> bool) -> list ProcInfo -> list ProcInfo.
Variable page_sz : Z.

(** The steps of one iteration that ran to its end. *)
Lemma cycle_Ok (w : World) (st : State) (c : Cycle) :
  cycle std_sort page_sz w st = Ok c ->
  exists pids procs,
    list_pids w = Ok pids
    /\ sample_loop w
         (mkSample page_sz (read_total_jiffies w) (prev_total_jiffies st)
            (read_mem_total_kb w))
         pids [] (prev_proc_jiffies st) = Ok (procs, cy_prev_procs c)
    /\ cy_procs c = rank std_sort (sortmode (controls st)) procs
    /\ render (w_rows w) (highlight (controls st)) (interval_s (controls st))
         page_sz (read_total_jiffies w) (read_mem_total_kb w) (cy_procs c)
       = Ok (cy_screen c)
    /\ handle_key w (controls st) (cy_procs c) = Ok (cy_next c)
    /\ cy_prev_total c = read_total_jiffies w.
Proof.
  unfold cycle. intros H.
  apply bind_Ok in H as (pids & Hpids & H).
  apply bind_Ok in H as ([procs m'] & Hloop & H).
  apply bind_Ok in H as (scr & Hscr & H).
  apply bind_Ok in H as (nx & Hnx & [= <-]). simpl.
  by exists pids, procs.
Qed.

Lemma step_Ok (w : World) (st st' : State) :
  step std_sort page_sz w st = Ok (Some st') ->
  exists c k,
    cycle std_sort page_sz w st = Ok c
    /\ cy_next c = Continue (controls st') k
    /\ prev_total_jiffies st' = cy_prev_total c
    /\ prev_proc_jiffies st' = cy_prev_procs c.
Proof.
  unfold step. intros H. apply bind_Ok in H as (c & Hc & [= H]).
  unfold next_state in H. destruct (cy_next c) as [|ctl k] eqn:E; [done|].
  injection H as <-. by exists c, k.
Qed.

(** The rule for the outer loop: what holds at line 126 and is preserved
    by every iteration that goes round holds at the top of every
    iteration. *)
Lemma run_invariant (I : State -> Prop) :
  (forall w st st', I st -> step std_sort page_sz w st = Ok (Some st') -> I st') ->
  forall ws st st', I st -> run std_sort page_sz st ws = Ok (Some st') -> I st'.
Proof.
  intros Hstep ws. induction ws as [|w ws IH]; intros st st' HI; simpl.
  - by intros [= <-].
  - intros H. apply bind_Ok in H as ([st1|] & Hst1 & H); [|done].
    apply (IH st1); [|done]. by apply (Hstep w st).
Qed.

Lemma reachable_invariant (I : State -> Prop) :
  (forall w0, I (init w0)) ->
  (forall w st st', I st -> step std_sort page_sz w st = Ok (Some st') -> I st') ->
  forall st, reachable std_sort page_sz st -> I st.
Proof.
  intros Hinit Hstep st (w0 & ws & Hrun).
  by apply (run_invariant I Hstep ws (init w0)).
Qed.

(** C3, as the code has it.  The cursor is clamped only by the commands
    that move it.  On a cycle whose command is "up" it becomes
    [max(0, cursor - 1)]; on "down" it becomes
    [min(length - 1, cursor + 1)], hence at most [length - 1], with
    [length] the size of the vector just ranked; on a cycle with no
    command, or with any other command, it keeps its value, whatever the
    size of the vector.  The screen of the cycle is drawn before the
    command is read, with the cursor as the previous cycle left it: a row
    is highlighted only at the index of the cursor, so a cursor outside
    the vector highlights nothing. *)
Theorem cursor_clamped_when_moved (w : World) (st : State) (c : Cycle) :
  cycle std_sort page_sz w st = Ok c ->
  let h := highlight (controls st) in
  let n := Z.of_nat (length (cy_procs c)) in
  (forall r, r ∈ scr_rows (cy_screen c) -> row_reverse r = true ->
     row_y r = 4 + h /\ 0 <= h < n)
  /\ forall ctl k,
       cy_next c = Continue ctl k ->
       (w_key w = KEY_UP -> highlight ctl = Z.max 0 (h - 1))
       /\ (w_key w = KEY_DOWN ->
           highlight ctl = Z.min (size_int (cy_procs c) - 1) (h + 1)
           /\ highlight ctl <= n - 1)
       /\ (w_key w <> KEY_UP -> w_key w <> KEY_DOWN -> highlight ctl = h).
Proof.
  intros H h n.
  apply cycle_Ok in H as (pids & procs & _ & _ & _ & Hscr & Hkey & _).
  split.
  - unfold render in Hscr. apply bind_Ok in Hscr as (md & _ & Hscr).
    apply bind_Ok in Hscr as (rs & Hrs & [= <-]). simpl.
    apply render_rows_reverse in Hrs. rewrite Forall_forall in Hrs.
    intros r Hr Hrev. destruct (Hrs r Hr Hrev) as [Hy Hh]. split; [done|].
    fold h in Hh. fold n in Hh. lia.
  - intros ctl k Hnx. rewrite Hnx in Hkey.
    pose proof (size_int_le (cy_procs c)) as Hsz. fold n in Hsz.
    destruct (handle_key_Ok _ _ _ _ _ Hkey)
      as [(He & -> & _)|(_ & _ & h1 & Hup & Hdown & _)].
    + rewrite He. repeat split; try done.
    + apply on_key_up_Ok in Hup as [[Hu ->]|[Hu ->]];
        apply on_key_down_Ok in Hdown as [[Hd ->]|[Hd ->]];
        fold h; repeat split; intros; try done; try congruence; try lia.
      all: rewrite Hu in Hd; done.
Qed.

(** C9.  At the top of every iteration the interval is at least 1 (and
    an [int]).  It starts at 2; from such a state the command that
    shortens it, [+], leaves it at [max(1, interval - 1)], and the command
    that lengthens it, [-], adds exactly 1. *)
Theorem interval_at_least_one (st : State) :
  reachable std_sort page_sz st ->
  1 <= interval_s (controls st) <= INT_MAX
  /\ (forall w procs,
        w_key w = key "+" ->
        handle_key w (controls st) procs
        = Ok (Continue
                (mkControls (highlight (controls st))
                   (Z.max 1 (interval_s (controls st) - 1))
                   (sortmode (controls st))) None))
  /\ (forall w procs,
        w_key w = key "-" -> interval_s (controls st) < INT_MAX ->
        handle_key w (controls st) procs
        = Ok (Continue
                (mkControls (highlight (controls st))
                   (interval_s (controls st) + 1)
                   (sortmode (controls st))) None)).
Proof.
  intros Hreach.
  assert (Hiv : 1 <= interval_s (controls st) <= INT_MAX).
  { revert st Hreach. apply reachable_invariant.
    - intros w0. simpl. unfold INT_MAX. lia.
    - intros w st st' IH Hstep.
      apply step_Ok in Hstep as (c & k & Hc & Hnx & _).
      apply cycle_Ok in Hc as (_ & _ & _ & _ & _ & _ & Hkey & _).
      rewrite Hnx in Hkey.
      destruct (handle_key_Ok _ _ _ _ _ Hkey)
        as [(_ & -> & _)|(_ & _ & _ & _ & _ & _ & iv1 & Hp & Hm & _)];
        [done|].
      apply on_plus_Ok in Hp as [[_ ->]|[_ ->]];
        apply on_minus_Ok in Hm as [(_ & -> & Hle)|[_ ->]]; lia. }
  split; [done|]. unfold INT_MAX in Hiv. split.
  - intros w procs Hk. unfold handle_key. rewrite Hk. simpl.
    unfold on_plus. simpl. rewrite int_sub_in_range by (unfold INT_MIN, INT_MAX; lia).
    done.
  - intros w procs Hk Hlt. unfold handle_key. rewrite Hk. simpl.
    unfold on_minus. simpl. rewrite int_add_in_range by (unfold INT_MIN, INT_MAX in *; lia).
    done.
Qed.

End Loop.

(** ** The claims on concrete systems *)

(** The end-to-end scenario: 50 of 200 ticks is 25 percent. *)
Example second_cycle_quarter :
  exists st c p,
    run gnu_sort page (init world_A) [world_A] = Ok (Some st)
    /\ cycle gnu_sort page world_B st = Ok c
    /\ cy_procs c = [p] /\ cpu_percent p = of_Z 25.
Proof.
  eexists _, _, _. split; [vm_compute; reflexivity|].
  split; [vm_compute; reflexivity|]. split; reflexivity.
Qed.

(** C1 fails.  The very first cycle, entered 200 ticks after line 124
    read the total: process 7, never seen before, is charged its 150
    accumulated ticks and shown at 75 percent. *)
Lemma first_cycle_cpu_not_zero :
  prev_proc_jiffies (init world_A) = ∅
  /\ exists c p,
       cycle gnu_sort page world_B (init world_A) = Ok c
       /\ cy_procs c = [p]
       /\ cpu_percent p = of_Z 75 /\ cpu_percent p <> zero.
Proof.
  split; [reflexivity|]. eexists _, _.
  split; [vm_compute; reflexivity|]. split; [reflexivity|].
  split; [reflexivity|]. discriminate.
Qed.

Lemma first_cycle_cpu_witness :
  exists p m',
    sample_loop world_B (sample_of world_B 1000) [7] [] ∅ = Ok ([p], m')
    /\ cpu_percent p = cpu_pct (cur_jiffies p) 200.
Proof.
  eexists _, _.
  assert (H : sample_loop world_B (sample_of world_B 1000) [7] [] ∅
              = Ok (_, _)) by (vm_compute; reflexivity).
  split; [exact H|].
  destruct (first_cycle_cpu world_B (sample_of world_B 1000) [7]) as [_ Hc].
  destruct (Hc _ _ (NoDup_singleton 7) H) as [Hall _].
  by apply Forall_cons in Hall as [Hp _].
Defined.

(** C7 on the first cycle of an unchanged system. *)
Lemma zero_system_delta_zero_cpu_witness :
  exists p m',
    sample_loop world_A (sample_of world_A 1000) [7] [] ∅ = Ok ([p], m')
    /\ cpu_percent p = zero.
Proof.
  eexists _, _.
  assert (H : sample_loop world_A (sample_of world_A 1000) [7] [] ∅
              = Ok (_, _)) by (vm_compute; reflexivity).
  split; [exact H|].
  destruct (zero_system_delta_zero_cpu world_A (sample_of world_A 1000) [7] ∅
              ltac:(vm_compute; discriminate)) as [_ Hc].
  specialize (Hc _ _ H). by apply Forall_cons in Hc as [Hp _].
Defined.

(** C2 fails.  Process 7 is sampled in the first two cycles and has
    exited by the third, whose snapshot holds process 8 alone; the map
    carried into the fourth iteration still maps 7 to its last ticks and
    has two entries for one live process. *)
Lemma stale_pid_kept_in_map :
  exists st,
    run gnu_sort page (init world_A) [world_A; world_B; world_C]
    = Ok (Some st)
    /\ list_pids world_C = Ok [8]
    /\ prev_proc_jiffies st !! 7 = Some 150
    /\ size (prev_proc_jiffies st) = 2%nat.
Proof.
  eexists. split; [vm_compute; reflexivity|].
  split; [reflexivity|]. split; [reflexivity|]. reflexivity.
Qed.

Lemma carried_map_accumulates_witness :
  exists procs m',
    sample_loop world_C (sample_of world_C 1200) [8] [] {[ 7 := 150 ]}
    = Ok (procs, m')
    /\ m' !! 7 = Some 150
    /\ dom m' = dom ({[ 7 := 150 ]} : gmap Z Z) ∪ list_to_set [8].
Proof.
  eexists _, _.
  assert (H : sample_loop world_C (sample_of world_C 1200) [8] []
                {[ 7 := 150 ]} = Ok (_, _)) by (vm_compute; reflexivity).
  split; [exact H|].
  destruct (carried_map_accumulates _ _ _ _ _ _ H) as (_ & Hkeep & Hdom).
  split; [|exact Hdom]. rewrite Hkeep; [reflexivity|].
  intros Hin. apply list_elem_of_singleton in Hin. discriminate.
Defined.

(** C3 fails.  Nine "down" commands over ten processes take the cursor
    to index 9.  The next cycle finds three processes and no command: the
    cursor is still 9 when the cycle ends, beyond the last index 2, and
    the screen of that cycle has no highlighted row. *)
Lemma cursor_left_beyond_list :
  exists st c,
    run gnu_sort page (init (idle_world 10 ERR))
      (replicate 9 (idle_world 10 KEY_DOWN)) = Ok (Some st)
    /\ highlight (controls st) = 9
    /\ cycle gnu_sort page (idle_world 3 ERR) st = Ok c
    /\ length (cy_procs c) = 3%nat
    /\ (row_reverse <$> scr_rows (cy_screen c)) = [false; false; false]
    /\ exists k ctl, cy_next c = Continue ctl k /\ highlight ctl = 9.
Proof.
  eexists _, _. split; [vm_compute; reflexivity|].
  split; [reflexivity|]. split; [vm_compute; reflexivity|].
  split; [reflexivity|]. split; [reflexivity|].
  eexists _, _. split; reflexivity.
Qed.

(** The example of the specification, with the command the code needs:
    cursor 9, three processes, a "down" command: cursor 2. *)
Lemma cursor_clamped_when_moved_witness :
  exists c ctl k,
    cycle gnu_sort page (idle_world 3 KEY_DOWN)
      (mkState (mkControls 9 2 BY_CPU) 1000 ∅) = Ok c
    /\ cy_next c = Continue ctl k
    /\ highlight ctl = Z.min (size_int (cy_procs c) - 1) (9 + 1)
    /\ highlight ctl = 2.
Proof.
  eexists _, _, _.
  assert (H : cycle gnu_sort page (idle_world 3 KEY_DOWN)
                (mkState (mkControls 9 2 BY_CPU) 1000 ∅) = Ok _)
    by (vm_compute; reflexivity).
  split; [exact H|]. split; [reflexivity|].
  destruct (cursor_clamped_when_moved gnu_sort page _ _ _ H) as [_ Hc].
  destruct (Hc _ _ eq_refl) as (_ & Hdown & _).
  split; [|reflexivity]. by destruct (Hdown eq_refl).
Defined.

(** C4 fails.  Process 8 is listed but its [stat] file cannot be opened:
    the snapshot holds an entry for pid 8 all the same, with every
    counter at zero. *)
Lemma unreadable_process_listed :
  w_stat world_D 8 = None
  /\ exists c p7 p8,
       cycle gnu_sort page world_D (init world_A) = Ok c
       /\ cy_procs c = [p7; p8]
       /\ pid p8 = 8 /\ utime p8 = 0 /\ stime p8 = 0 /\ rss p8 = 0
       /\ vsize p8 = 0 /\ cpu_percent p8 = zero /\ mem_percent p8 = zero.
Proof.
  split; [reflexivity|]. eexists _, _, _.
  split; [vm_compute; reflexivity|]. repeat split; reflexivity.
Qed.

Lemma unreadable_process_kept_witness :
  sample_defined world_D (sample_of world_D 1200) 8
  /\ exists procs m',
       sample_loop world_D (sample_of world_D 1200) [7; 8] [] ∅
       = Ok (procs, m')
       /\ pid <$> procs = [7; 8].
Proof.
  destruct (unreadable_process_kept world_D (sample_of world_D 1200)
              [7; 8] ∅) as [Hdef Hkept].
  split; [apply Hdef; reflexivity|].
  eexists _, _.
  assert (H : sample_loop world_D (sample_of world_D 1200) [7; 8] [] ∅
              = Ok (_, _)) by (vm_compute; reflexivity).
  split; [exact H|]. by destruct (Hkept _ _ H).
Defined.

(** C5 fails.  Seventeen idle processes tie at 0 percent on the first
    cycle.  They are sampled in the order of their pids, and [std::sort]
    hands them back in another order. *)
Lemma gnu_sort_reorders_ties :
  pid <$> idle17 = [1; 2; 3; 4; 5; 6; 7; 8; 9; 10; 11; 12; 13; 14; 15; 16; 17]
  /\ Forall (fun p => cpu_percent p = zero) idle17
  /\ pid <$> rank gnu_sort BY_CPU idle17
     = [9; 17; 16; 15; 14; 13; 12; 11; 10; 1; 8; 7; 6; 5; 4; 3; 2]
  /\ ~ keeps_tie_order (comparator BY_CPU) idle17 (rank gnu_sort BY_CPU idle17).
Proof.
  split; [reflexivity|]. split; [vm_compute; repeat constructor|].
  split; [reflexivity|].
  intros H.
  destruct idle17 as [|p1 l] eqn:E; [discriminate|].
  specialize (H p1 ltac:(left)). rewrite <- E in H.
  vm_compute in E. injection E as <- <-.
  vm_compute in H. discriminate.
Qed.

(** Ranking three entries by pid with straight insertion. *)
Lemma rank_sorted_permutation_witness :
  let procs := [blank_proc world_A 3; blank_proc world_A 1;
                blank_proc world_A 2] in
  rank straight_insertion BY_PID procs ≡ₚ procs
  /\ pid <$> rank straight_insertion BY_PID procs ≡ₚ pid <$> procs
  /\ StronglySorted (ranked BY_PID) (rank straight_insertion BY_PID procs).
Proof.
  intros procs.
  apply (rank_sorted_permutation straight_insertion straight_insertion_contract).
  repeat constructor.
Defined.

(** C6 on the example of the specification: previous ticks 1000, current
    ticks 10. *)
Lemma cpu_percent_never_negative_witness :
  exists p p' m',
    cur_jiffies p = 10
    /\ derive_proc (sample_of world_B 1000) {[ 7 := 1000 ]} p = Ok (p', m')
    /\ proc_delta (cur_jiffies p) 1000 = 0 /\ cpu_percent p' = zero.
Proof.
  set (p := mkProcInfo 7 1000 "alice" "work" 6 4 2000 1000000 zero zero).
  exists p. eexists _, _. split; [reflexivity|].
  assert (H : derive_proc (sample_of world_B 1000) {[ 7 := 1000 ]} p
              = Ok (_, _)) by (vm_compute; reflexivity).
  split; [exact H|].
  assert (Hprev : ({[ 7 := 1000 ]} : gmap Z Z) !! pid p = Some 1000)
    by (vm_compute; reflexivity).
  assert (Hpt : 0 <= prev_total (sample_of world_B 1000))
    by (vm_compute; discriminate).
  assert (Ht : total_jiffies (sample_of world_B 1000) < 2 ^ 64)
    by (vm_compute; reflexivity).
  destruct (cpu_percent_never_negative _ _ _ _ _ 1000 Hprev ltac:(lia) Hpt Ht H)
    as (_ & _ & Hreuse).
  apply Hreuse. vm_compute. reflexivity.
Defined.

(** C10: the kill command at the cursor of the first cycle, and the same
    command over an empty process table. *)
Lemma kill_only_in_range_witness :
  handle_key (idle_world 0 (key "k")) (mkControls (-1) 2 BY_CPU) []
  = Ok (Continue (mkControls (-1) 2 BY_CPU) None).
Proof.
  destruct (kill_only_in_range (idle_world 0 (key "k"))
              (mkControls (-1) 2 BY_CPU) []) as (_ & _ & Hout).
  apply Hout; [reflexivity|]. simpl. lia.
Defined.

(** C9: after the commands [+], [+], [+], [-] the interval is 2 again,
    having stopped at 1 on the way down. *)
Lemma interval_at_least_one_witness :
  exists st,
    run gnu_sort page (init world_A)
      [idle_world 1 (key "+"); idle_world 1 (key "+");
       idle_world 1 (key "+"); idle_world 1 (key "-")] = Ok (Some st)
    /\ interval_s (controls st) = 2
    /\ 1 <= interval_s (controls st) <= INT_MAX.
Proof.
  eexists.
  assert (H : run gnu_sort page (init world_A)
                [idle_world 1 (key "+"); idle_world 1 (key "+");
                 idle_world 1 (key "+"); idle_world 1 (key "-")]
              = Ok (Some _)) by (vm_compute; reflexivity).
  split; [exact H|]. split; [reflexivity|].
  apply (interval_at_least_one gnu_sort page).
  by eexists _, _.
Defined.

(** ** Doubling: claim C8

    Away from overflow and underflow, rounding commutes with a change of
    exponent, so every operation of the memory percentage sends twice the
    argument to twice the result. *)

Lemma fexp_normal (x : Z) : -1021 <= x -> fexp prec emax x = x - 53.
Proof. unfold fexp, emin, prec, emax. lia. Qed.

Lemma Zdigits2_nonneg (m : Z) : 0 <= Zdigits2 m.
Proof. destruct m; simpl; lia. Qed.

Lemma Zdigits2_le (m k : Z) : 0 <= k -> 0 <= m < 2 ^ k -> Zdigits2 m <= k.
Proof.
  intros Hk Hm. destruct m as [|p|p]; [simpl; lia| |lia].
  pose proof (Zdigits2_bounds p) as [Hlo _].
  destruct (Z_lt_le_dec k (Zdigits2 (Z.pos p))) as [Hlt|]; [|done].
  assert (2 ^ k <= 2 ^ (Zdigits2 (Z.pos p) - 1))
    by (apply Z.pow_le_mono_r; lia).
  lia.
Qed.

Lemma Zdigits2_ge (p : positive) (k : Z) :
  2 ^ k <= Z.pos p -> k + 1 <= Zdigits2 (Z.pos p).
Proof.
  intros Hp. pose proof (Zdigits2_bounds p) as [_ Hhi].
  pose proof (Zdigits2_nonneg (Z.pos p)).
  destruct (Z_lt_le_dec (Zdigits2 (Z.pos p)) (k + 1)) as [Hlt|]; [|done].
  assert (2 ^ Zdigits2 (Z.pos p) <= 2 ^ k)
    by (apply Z.pow_le_mono_r; lia).
  lia.
Qed.

(** The record [shr] returns does not depend on the exponent, which is
    only carried along. *)
Lemma shr_next_exponent (r : shr_record) (e n : Z) :
  shr r (e + 1) n = (fst (shr r e n), snd (shr r e n) + 1).
Proof. destruct n; simpl; f_equal; lia. Qed.

Lemma shr_fexp_next_exponent (m e : Z) (l : location) :
  0 <= m -> -1021 <= Zdigits2 m + e ->
  shr_fexp prec emax m (e + 1) l
  = (fst (shr_fexp prec emax m e l), snd (shr_fexp prec emax m e l) + 1).
Proof.
  intros Hm He. unfold shr_fexp.
  rewrite <- shr_next_exponent. f_equal.
  rewrite !fexp_normal by lia. lia.
Qed.

Lemma shr_fexp_bounds (m e k : Z) (l : location) :
  0 <= k -> 0 <= m < 2 ^ k -> -1021 <= Zdigits2 m + e ->
  0 <= shr_m (fst (shr_fexp prec emax m e l)) <= m
  /\ e <= snd (shr_fexp prec emax m e l) <= e + Z.max 0 (k - 53).
Proof.
  intros Hk Hm He.
  destruct (shr_fexp_spec m e l ltac:(lia)) as [H1 H2].
  rewrite H1, H2. rewrite fexp_normal by lia.
  pose proof (Zdigits2_le m k Hk Hm). pose proof (Zdigits2_nonneg m).
  set (n := Z.max 0 (Zdigits2 m + e - 53 - e)).
  assert (0 <= n <= Z.max 0 (k - 53)) by lia.
  assert (0 < 2 ^ n) by (apply Z.pow_pos_nonneg; lia).
  split; [|lia]. split; [apply Z.div_pos; lia|].
  apply Z.div_le_upper_bound; [lia|]. nia.
Qed.

(** Rounding at the next exponent gives the number twice as large. *)
Lemma binary_round_aux_next_exponent (s : bool) (m e : Z) (l : location) :
  0 <= m < 2 ^ 200 -> -1000 <= e <= 500 ->
  binary_round_aux prec emax s m (e + 1) l
  = twice (binary_round_aux prec emax s m e l).
Proof.
  intros Hm He. unfold binary_round_aux.
  pose proof (Zdigits2_nonneg m) as Hd.
  rewrite shr_fexp_next_exponent by lia.
  destruct (shr_fexp_bounds m e 200 l ltac:(lia) Hm ltac:(lia)) as [Hb1 Hb1e].
  destruct (shr_fexp prec emax m e l) as [mrs' e'] eqn:E1.
  cbn [fst snd] in *.
  pose proof (round_nearest_even_bounds (shr_m mrs') (loc_of_shr_record mrs'))
    as Hr.
  set (m2 := round_nearest_even (shr_m mrs') (loc_of_shr_record mrs')) in *.
  assert (Hm2 : 0 <= m2 < 2 ^ 201).
  { change (2 ^ 201) with (2 * 2 ^ 200). lia. }
  pose proof (Zdigits2_nonneg m2) as Hd2.
  rewrite shr_fexp_next_exponent by lia.
  destruct (shr_fexp_bounds m2 e' 201 loc_Exact ltac:(lia) Hm2 ltac:(lia))
    as [Hb2 Hb2e].
  destruct (shr_fexp prec emax m2 e' loc_Exact) as [mrs'' e''] eqn:E2.
  cbn [fst snd] in *.
  destruct (shr_m mrs'') as [|q|q]; [done| |done].
  replace (e'' + 1 <=? emax - prec) with true
    by (symmetry; apply Z.leb_le; unfold emax, prec; lia).
  replace (e'' <=? emax - prec) with true
    by (symmetry; apply Z.leb_le; unfold emax, prec; lia).
  reflexivity.
Qed.

(** A mantissa of at least 53 bits rounds to a full 53-bit mantissa. *)
Lemma binary_round_aux_normal (s : bool) (q : positive) (e k : Z)
    (l : location) :
  53 <= k <= 200 -> 2 ^ 52 <= Z.pos q < 2 ^ k -> -1000 <= e <= 500 ->
  exists m e', binary_round_aux prec emax s (Z.pos q) e l = S754_finite s m e'
    /\ 2 ^ 52 <= Z.pos m < 2 ^ 53 /\ e <= e' <= e + (k - 52).
Proof.
  intros Hk Hq He. unfold binary_round_aux.
  pose proof (Zdigits2_bounds q) as Hd.
  pose proof (Zdigits2_ge q 52 ltac:(lia)) as Hd53.
  pose proof (Zdigits2_le (Z.pos q) k ltac:(lia) ltac:(lia)) as Hd200.
  set (d := Zdigits2 (Z.pos q)) in *.
  destruct (shr_fexp_spec (Z.pos q) e l ltac:(lia)) as [H1 H1e].
  fold d in H1, H1e.
  replace (Z.max 0 (fexp prec emax (d + e) - e)) with (d - 53) in H1, H1e
    by (rewrite fexp_normal; lia).
  destruct (shr_fexp prec emax (Z.pos q) e l) as [mrs' e'] eqn:E1.
  cbn [fst snd] in H1, H1e.
  assert (Hm1 : 2 ^ 52 <= shr_m mrs' < 2 ^ 53).
  { rewrite H1.
    pose proof (div_pow2_bounds (Z.pos q) (d - 1) (d - 53)) as Hb.
    replace (d - 1 - (d - 53)) with 52 in Hb by lia.
    replace (d - 1 + 1) with d in Hb by lia.
    apply Hb; lia. }
  pose proof (round_nearest_even_bounds (shr_m mrs') (loc_of_shr_record mrs'))
    as Hr.
  set (m2 := round_nearest_even (shr_m mrs') (loc_of_shr_record mrs')) in *.
  assert (Hm2 : 2 ^ 52 <= m2 <= 2 ^ 53) by lia.
  destruct m2 as [|q2|q2] eqn:Em2; [lia| |lia].
  destruct (shr_fexp_spec (Z.pos q2) e' loc_Exact ltac:(lia)) as [H2 H2e].
  destruct (shr_fexp prec emax (Z.pos q2) e' loc_Exact) as [mrs'' e''] eqn:E2.
  cbn [fst snd] in H2, H2e.
  destruct (Z_lt_le_dec (Z.pos q2) (2 ^ 53)) as [Hlt|Hge].
  - rewrite (Zdigits2_unique q2 53) in H2, H2e by (simpl Z.sub; lia).
    replace (Z.max 0 (fexp prec emax (53 + e') - e')) with 0 in H2, H2e
      by (rewrite fexp_normal; lia).
    rewrite Z.div_1_r in H2. rewrite H2.
    replace (e'' <=? emax - prec) with true
      by (symmetry; apply Z.leb_le; unfold emax, prec; lia).
    eexists _, _. split; [done|]. lia.
  - assert (Eq2 : Z.pos q2 = 2 ^ 53) by lia.
    rewrite (Zdigits2_unique q2 54) in H2, H2e by (rewrite Eq2; simpl Z.sub; lia).
    replace (Z.max 0 (fexp prec emax (54 + e') - e')) with 1 in H2, H2e
      by (rewrite fexp_normal; lia).
    rewrite Eq2 in H2. change (2 ^ 53 / 2 ^ 1) with (Z.pos (2 ^ 52)) in H2.
    rewrite H2.
    replace (e'' <=? emax - prec) with true
      by (symmetry; apply Z.leb_le; unfold emax, prec; lia).
    eexists _, _. split; [done|]. simpl. lia.
Qed.

(** *** Multiplication *)

Lemma mul_twice (sc : bool) (mc : positive) (ec : Z) (x : double) :
  Z.pos mc < 2 ^ 64 -> -400 <= ec <= 200 ->
  (forall s m e, x = S754_finite s m e -> Z.pos m < 2 ^ 64 /\ -400 <= e <= 200) ->
  mul (S754_finite sc mc ec) (twice x) = twice (mul (S754_finite sc mc ec) x).
Proof.
  intros Hmc Hec Hx. destruct x as [s|s| |s m e]; try reflexivity.
  destruct (Hx s m e eq_refl) as [Hm He].
  unfold mul. cbn [twice SFmul].
  rewrite Z.add_assoc. apply binary_round_aux_next_exponent; [|lia].
  rewrite Pos2Z.inj_mul. split; [lia|].
  change (2 ^ 200) with (2 ^ 64 * 2 ^ 64 * 2 ^ 72). nia.
Qed.

Lemma mul_normal (sc sx : bool) (mc mx : positive) (ec ex : Z) :
  2 ^ 52 <= Z.pos mc < 2 ^ 53 -> 2 ^ 52 <= Z.pos mx < 2 ^ 53 ->
  -400 <= ec <= 200 -> -400 <= ex <= 200 ->
  exists m e,
    mul (S754_finite sc mc ec) (S754_finite sx mx ex)
    = S754_finite (xorb sc sx) m e
    /\ 2 ^ 52 <= Z.pos m < 2 ^ 53 /\ ec + ex <= e <= ec + ex + 54.
Proof.
  intros Hmc Hmx Hec Hex. unfold mul. cbn [SFmul].
  apply (binary_round_aux_normal _ _ _ 106); [lia| |lia].
  rewrite Pos2Z.inj_mul. split.
  - change (2 ^ 52) with (1 * 2 ^ 52). nia.
  - change (2 ^ 106) with (2 ^ 53 * 2 ^ 53). nia.
Qed.

(** *** Division *)

Lemma div_core_normal (mx my : positive) (ex ey : Z) :
  2 ^ 52 <= Z.pos mx < 2 ^ 53 -> 2 ^ 52 <= Z.pos my < 2 ^ 53 ->
  -200 <= ex <= 200 -> -200 <= ey <= 200 ->
  exists q l,
    SFdiv_core_binary prec emax (Z.pos mx) ex (Z.pos my) ey
    = (Z.pos q, ex - ey - 53, l)
    /\ SFdiv_core_binary prec emax (Z.pos mx) (ex + 1) (Z.pos my) ey
      = (Z.pos q, ex - ey - 53 + 1, l)
    /\ 2 ^ 52 <= Z.pos q < 2 ^ 106.
Proof.
  intros Hmx Hmy Hex Hey. unfold SFdiv_core_binary.
  rewrite (Zdigits2_unique mx 53), (Zdigits2_unique my 53) by (simpl Z.sub; lia).
  rewrite !fexp_normal by lia.
  replace (Z.min (53 + ex - (53 + ey) - 53) (ex - ey)) with (ex - ey - 53)
    by lia.
  replace (Z.min (53 + (ex + 1) - (53 + ey) - 53) (ex + 1 - ey))
    with (ex - ey - 53 + 1) by lia.
  replace (ex - ey - (ex - ey - 53)) with 53 by lia.
  replace (ex + 1 - ey - (ex - ey - 53 + 1)) with 53 by lia.
  rewrite Z.shiftl_mul_pow2 by lia.
  set (m' := Z.pos mx * 2 ^ 53).
  pose proof (Z_div_mod m' (Z.pos my) ltac:(lia)) as Hdiv.
  destruct (Z.div_eucl m' (Z.pos my)) as [q r] eqn:E.
  destruct Hdiv as [Hq Hr].
  assert (Hqb : 2 ^ 52 <= q < 2 ^ 106).
  { unfold m' in Hq. change (2 ^ 106) with (2 ^ 53 * 2 ^ 53). nia. }
  destruct q as [|q|q]; [lia| |lia].
  by eexists _, _.
Qed.

Lemma div_normal (sx sy : bool) (mx my : positive) (ex ey : Z) :
  2 ^ 52 <= Z.pos mx < 2 ^ 53 -> 2 ^ 52 <= Z.pos my < 2 ^ 53 ->
  -200 <= ex <= 200 -> -200 <= ey <= 200 ->
  exists m e,
    div (S754_finite sx mx ex) (S754_finite sy my ey)
    = S754_finite (xorb sx sy) m e
    /\ div (S754_finite sx mx (ex + 1)) (S754_finite sy my ey)
      = S754_finite (xorb sx sy) m (e + 1)
    /\ 2 ^ 52 <= Z.pos m < 2 ^ 53 /\ ex - ey - 53 <= e <= ex - ey + 1.
Proof.
  intros Hmx Hmy Hex Hey. unfold div. cbn [SFdiv].
  destruct (div_core_normal mx my ex ey Hmx Hmy Hex Hey)
    as (q & l & -> & -> & Hq).
  assert (2 ^ 106 < 2 ^ 200) by done.
  rewrite binary_round_aux_next_exponent by lia.
  destruct (binary_round_aux_normal (xorb sx sy) q (ex - ey - 53) 106 l
              ltac:(lia) Hq ltac:(lia)) as (m & e & -> & Hm & He).
  exists m, e. split; [done|]. split; [done|]. split; [done|]. lia.
Qed.

(** *** Conversion from integers *)

Lemma iter_pos_comm {A : Type} (f : A -> A) (n : positive) (x : A) :
  f (SpecFloat.iter_pos f n x) = SpecFloat.iter_pos f n (f x).
Proof.
  revert x. induction n as [n IH|n IH|]; intros x; simpl; [|..|done].
  - by rewrite !IH.
  - by rewrite !IH.
Qed.

Lemma iter_pos_succ_r {A : Type} (f : A -> A) (n : positive) (x : A) :
  SpecFloat.iter_pos f (Pos.succ n) x = SpecFloat.iter_pos f n (f x).
Proof.
  revert x. induction n as [n IH|n IH|]; intros x; simpl; [|done..].
  rewrite !IH. by rewrite iter_pos_comm.
Qed.

(** One more bit at the end of an exact mantissa is one more step of
    [shr]. *)
Lemma binary_round_aux_double (s : bool) (p : positive) (e : Z) :
  2 ^ 52 <= Z.pos p < 2 ^ 64 -> -1000 <= e <= 500 ->
  binary_round_aux prec emax s (Z.pos p~0) e loc_Exact
  = binary_round_aux prec emax s (Z.pos p) (e + 1) loc_Exact.
Proof.
  intros Hp He.
  assert (Hs : shr_fexp prec emax (Z.pos p~0) e loc_Exact
               = shr_fexp prec emax (Z.pos p) (e + 1) loc_Exact).
  { unfold shr_fexp.
    pose proof (Zdigits2_ge p 52 ltac:(lia)) as Hd.
    assert (Hd1 : Zdigits2 (Z.pos p~0) = Zdigits2 (Z.pos p) + 1)
      by (simpl; lia).
    rewrite Hd1. set (d := Zdigits2 (Z.pos p)) in *.
    rewrite !fexp_normal by lia.
    replace (d + 1 + e - 53 - e) with (Z.succ (d - 53)) by lia.
    replace (d + (e + 1) - 53 - (e + 1)) with (d - 53) by lia.
    destruct (d - 53) as [|k|k] eqn:Ek; [| |lia].
    - reflexivity.
    - rewrite <- Pos2Z.inj_succ. cbn [shr shr_record_of_loc].
      rewrite iter_pos_succ_r. cbn [shr_1 orb]. f_equal. lia. }
  unfold binary_round_aux. by rewrite Hs.
Qed.

Lemma binary_round_normal (s : bool) (p : positive) :
  Z.pos p < 2 ^ 64 ->
  exists m e, binary_round prec emax s p 0 = S754_finite s m e
    /\ 2 ^ 52 <= Z.pos m < 2 ^ 53 /\ -52 <= e <= 12.
Proof.
  intros Hp. unfold binary_round.
  pose proof (Zdigits2_bounds p) as Hd. simpl Zdigits2 in Hd.
  pose proof (Zdigits2_le (Z.pos p) 64 ltac:(lia) ltac:(lia)) as Hd64.
  simpl Zdigits2 in Hd64.
  set (d := Z.pos (digits2_pos p)) in *.
  assert (1 <= d) by (unfold d; lia).
  rewrite fexp_normal by lia.
  unfold shl_align.
  destruct (d + 0 - 53 - 0) as [|k|k] eqn:Ek.
  - destruct (binary_round_aux_normal s p 0 53 loc_Exact) as (m & e & -> & ? & ?);
      [lia| |lia|].
    + replace d with 53 in Hd by lia. simpl Z.sub in Hd. lia.
    + exists m, e. split; [done|]. lia.
  - destruct (binary_round_aux_normal s p 0 64 loc_Exact) as (m & e & -> & ? & ?);
      [lia| |lia|].
    + assert (2 ^ 52 <= 2 ^ (d - 1)) by (apply Z.pow_le_mono_r; lia). lia.
    + exists m, e. split; [done|]. lia.
  - destruct (binary_round_aux_normal s (Pos.iter xO p k) (d + 0 - 53) 53
                loc_Exact) as (m & e & -> & ? & ?); [lia| |lia|].
    + change (Pos.iter xO p k) with (shift_pos k p).
      rewrite shift_pos_correct. rewrite Z.pow_pos_fold.
      assert (Hk : Z.pos k = 53 - d) by lia. rewrite Hk.
      assert (E1 : 2 ^ 52 = 2 ^ (53 - d) * 2 ^ (d - 1)).
      { rewrite <- Z.pow_add_r by lia. f_equal. lia. }
      assert (E2 : 2 ^ 53 = 2 ^ (53 - d) * 2 ^ d).
      { rewrite <- Z.pow_add_r by lia. f_equal. lia. }
      assert (0 < 2 ^ (53 - d)) by (apply Z.pow_pos_nonneg; lia).
      nia.
    + exists m, e. split; [done|]. lia.
Qed.

Lemma binary_round_twice (s : bool) (p : positive) :
  Z.pos p < 2 ^ 63 ->
  binary_round prec emax s p~0 0 = twice (binary_round prec emax s p 0).
Proof.
  intros Hp. unfold binary_round.
  pose proof (Zdigits2_bounds p) as Hd. simpl Zdigits2 in Hd.
  pose proof (Zdigits2_le (Z.pos p) 63 ltac:(lia) ltac:(lia)) as Hd64.
  simpl Zdigits2 in Hd64.
  cbn [digits2_pos]. rewrite Pos2Z.inj_succ.
  set (d := Z.pos (digits2_pos p)) in *.
  assert (1 <= d) by (unfold d; lia).
  rewrite !fexp_normal by lia.
  unfold shl_align.
  replace (Z.succ d + 0 - 53 - 0) with (Z.succ (d + 0 - 53 - 0)) by lia.
  destruct (d + 0 - 53 - 0) as [|k|k] eqn:Ek.
  - change (Z.succ 0) with 1. cbv iota beta.
    rewrite binary_round_aux_double;
      [apply binary_round_aux_next_exponent; lia| |lia].
    replace d with 53 in Hd by lia. simpl Z.sub in Hd. lia.
  - rewrite <- Pos2Z.inj_succ. cbv iota beta.
    rewrite binary_round_aux_double;
      [apply binary_round_aux_next_exponent; lia| |lia].
    assert (2 ^ 52 <= 2 ^ (d - 1)) by (apply Z.pow_le_mono_r; lia). lia.
  - assert (Hm : Z.pos (Pos.iter xO p k) < 2 ^ 53).
    { change (Pos.iter xO p k) with (shift_pos k p).
      rewrite shift_pos_correct. rewrite Z.pow_pos_fold.
      assert (Hk : Z.pos k = 53 - d) by lia. rewrite Hk.
      assert (E2 : 2 ^ 53 = 2 ^ (53 - d) * 2 ^ d).
      { rewrite <- Z.pow_add_r by lia. f_equal. lia. }
      assert (0 < 2 ^ (53 - d)) by (apply Z.pow_pos_nonneg; lia).
      nia. }
    destruct (Pos.succ_pred_or k) as [->|Hk].
    + change (Z.succ (Z.neg 1)) with 0. cbv iota beta.
      change (Pos.iter xO p 1) with (p~0)%positive in *.
      replace 0 with (d + 0 - 53 + 1) at 1 by lia.
      apply binary_round_aux_next_exponent; lia.
    + rewrite <- Hk in Hm |- *.
      replace (Z.succ (Z.neg (Pos.succ (Pos.pred k)))) with (Z.neg (Pos.pred k))
        by lia.
      cbv iota beta. rewrite Pos.iter_succ_r in Hm |- *.
      replace (Z.succ d + 0 - 53) with (d + 0 - 53 + 1) by lia.
      apply binary_round_aux_next_exponent; lia.
Qed.

Lemma of_Z_normal (z : Z) :
  - 2 ^ 64 < z < 2 ^ 64 -> z <> 0 ->
  exists m e, of_Z z = S754_finite (z <? 0) m e
    /\ 2 ^ 52 <= Z.pos m < 2 ^ 53 /\ -52 <= e <= 12.
Proof.
  intros Hz Hnz. unfold of_Z, binary_normalize.
  destruct z as [|p|p]; [done| |]; apply binary_round_normal; lia.
Qed.

Lemma of_Z_twice (z : Z) :
  - 2 ^ 63 < z < 2 ^ 63 -> of_Z (2 * z) = twice (of_Z z).
Proof.
  intros Hz. unfold of_Z, binary_normalize.
  destruct z as [|p|p]; [done| |]; apply binary_round_twice; lia.
Qed.

(** Multiplication by [2.0] is the change of exponent. *)
Lemma mul_two (s : bool) (m : positive) (e : Z) :
  2 ^ 52 <= Z.pos m < 2 ^ 53 -> -300 <= e <= 300 ->
  mul two (S754_finite s m e) = S754_finite s m (e + 1).
Proof.
  intros Hm He. unfold mul, two. cbn [SFmul xorb].
  unfold binary_round_aux.
  assert (Hs : shr_fexp prec emax (Z.pos (4503599627370496 * m)) (-51 + e)
                 loc_Exact
               = (Build_shr_record (Z.pos m) false false, e + 1)).
  { unfold shr_fexp.
    rewrite (Zdigits2_unique (4503599627370496 * m) 105).
    2:{ rewrite Pos2Z.inj_mul. change (Z.pos 4503599627370496) with (2 ^ 52).
        change (2 ^ (105 - 1)) with (2 ^ 52 * 2 ^ 52).
        change (2 ^ 105) with (2 ^ 52 * 2 ^ 53). nia. }
    rewrite fexp_normal by lia.
    replace (105 + (-51 + e) - 53 - (-51 + e)) with 52 by lia.
    cbn -[Z.add]. f_equal. lia. }
  rewrite Hs. cbn [shr_m loc_of_shr_record round_nearest_even].
  assert (Hs2 : shr_fexp prec emax (Z.pos m) (e + 1) loc_Exact
                = (Build_shr_record (Z.pos m) false false, e + 1)).
  { unfold shr_fexp. rewrite (Zdigits2_unique m 53) by (simpl Z.sub; lia).
    rewrite fexp_normal by lia.
    replace (53 + (e + 1) - 53 - (e + 1)) with 0 by lia. reflexivity. }
  rewrite Hs2. cbn [shr_m].
  by replace (e + 1 <=? emax - prec) with true
    by (symmetry; apply Z.leb_le; unfold emax, prec; lia).
Qed.

(** *** The memory percentage *)

Lemma in_long_range (z : Z) : in_long z = true <-> - 2 ^ 63 <= z <= 2 ^ 63 - 1.
Proof. unfold in_long, LONG_MIN, LONG_MAX. rewrite andb_true_iff, !Z.leb_le. done. Qed.

Lemma long_mul_in_range (a b : Z) :
  - 2 ^ 63 <= a * b <= 2 ^ 63 - 1 -> long_mul a b = Ok (a * b).
Proof. intros H. unfold long_mul. by rewrite (proj2 (in_long_range _) H). Qed.

(** The quotient [100.0 * (bytes / 1024.0) / total] for twice the
    bytes. *)
Lemma mem_quotient_twice (bytes total : Z) :
  - 2 ^ 63 < bytes < 2 ^ 63 -> 0 < total < 2 ^ 64 ->
  div (mul d100 (div (of_Z (2 * bytes)) d1024)) (of_Z total)
  = mul two (div (mul d100 (div (of_Z bytes) d1024)) (of_Z total)).
Proof.
  intros Hb Ht.
  destruct (of_Z_normal total ltac:(lia) ltac:(lia)) as (mt & et & Et & Hmt & Het).
  destruct (decide (bytes = 0)) as [->|Hnz].
  { rewrite Et. reflexivity. }
  rewrite of_Z_twice by lia.
  destruct (of_Z_normal bytes ltac:(lia) Hnz) as (m0 & e0 & E0 & Hm0 & He0).
  rewrite E0, Et. cbn [twice].
  destruct (div_normal (bytes <? 0) false m0 4503599627370496 e0 (-42)
              Hm0 ltac:(done) ltac:(lia) ltac:(lia))
    as (m1 & e1 & E1 & E1' & Hm1 & He1).
  fold d1024 in E1, E1'. rewrite E1, E1'.
  destruct (mul_normal false (xorb (bytes <? 0) false) 7036874417766400 m1
              (-46) e1 ltac:(done) Hm1 ltac:(lia) ltac:(lia))
    as (m2 & e2 & E2 & Hm2 & He2).
  fold d100 in E2.
  assert (E2' : mul d100 (S754_finite (xorb (bytes <? 0) false) m1 (e1 + 1))
                = S754_finite (xorb false (xorb (bytes <? 0) false)) m2 (e2 + 1)).
  { change (S754_finite (xorb (bytes <? 0) false) m1 (e1 + 1))
      with (twice (S754_finite (xorb (bytes <? 0) false) m1 e1)).
    unfold d100. rewrite mul_twice; [|done|lia|].
    - fold d100. by rewrite E2.
    - intros s m e [= <- <- <-]. split; [|lia].
      assert (2 ^ 53 < 2 ^ 64) by done. lia. }
  rewrite E2, E2'.
  destruct (div_normal (xorb false (xorb (bytes <? 0) false)) (total <? 0)
              m2 mt e2 et Hm2 Hmt ltac:(lia) ltac:(lia))
    as (m3 & e3 & E3 & E3' & Hm3 & He3).
  rewrite E3, E3'. symmetry. apply mul_two; [done|lia].
Qed.

(** C8.  With no memory reported the memory percentage is [0.0].
    Otherwise it is [100.0 * (rss * page_size / 1024.0) / mem_total_kb],
    resident bytes over total bytes as a percentage, computed in doubles;
    and a process with twice the resident pages, as long as its byte
    count still fits the [long] of line 143, gets exactly twice the
    percentage. *)
Theorem mem_percent_linear (rss page_size mem_total_kb : Z) :
  mem_pct rss page_size 0 = Ok zero
  /\ (0 < mem_total_kb < 2 ^ 64 ->
      in_long (2 * rss * page_size) = true ->
      exists x,
        mem_pct rss page_size mem_total_kb = Ok x
        /\ x = div (mul d100 (div (of_Z (rss * page_size)) d1024))
                 (of_Z mem_total_kb)
        /\ mem_pct (2 * rss) page_size mem_total_kb = Ok (mul two x)).
Proof.
  split; [reflexivity|]. intros Ht Hl. apply in_long_range in Hl.
  unfold mem_pct.
  replace (0 <? mem_total_kb) with true by (symmetry; apply Z.ltb_lt; lia).
  rewrite (long_mul_in_range rss page_size) by lia.
  rewrite (long_mul_in_range (2 * rss) page_size) by lia.
  cbn [mbind result_bind]. eexists. split; [reflexivity|]. split; [reflexivity|].
  f_equal. replace (2 * rss * page_size) with (2 * (rss * page_size)) by lia.
  apply mem_quotient_twice; lia.
Qed.

(** C8 on a process of 2000 resident pages, and one of 4000. *)
Lemma mem_percent_linear_witness :
  exists x,
    mem_pct 2000 4096 8000000 = Ok x
    /\ mem_pct 4000 4096 8000000 = Ok (mul two x).
Proof.
  destruct (mem_percent_linear 2000 4096 8000000) as [_ H].
  destruct (H ltac:(lia) eq_refl) as (x & Hx & _ & H2).
  exists x. split; assumption.
Defined.

(** Where the ratio is a binary fraction the percentage is exact: 2 MiB
    resident out of 8 MiB is 25 percent, 8 MiB out of 8 GiB is 100/1024
    percent. *)
Example mem_percent_quarter : mem_pct 512 4096 8192 = Ok (of_Z 25).
Proof. reflexivity. Qed.

Example mem_percent_small :
  mem_pct 2048 4096 8388608 = Ok (S754_finite false 7036874417766400 (-56)).
Proof. reflexivity. Qed.

(** ** The loop meets the condition of the ranking theorem

    Every percentage the sampling loop computes is a number, so the
    comparators of lines 153 to 163 are strict weak orderings on the
    vector they are given, in every iteration of every run. *)

Lemma derive_proc_numeric (s : Sample) (m : gmap Z Z) (p p' : ProcInfo)
    (m' : gmap Z Z) :
  0 <= prev_total s -> total_jiffies s < 2 ^ 64 -> mem_total_kb s < 2 ^ 64 ->
  map_Forall (fun _ v => 0 <= v) m ->
  derive_proc s m p = Ok (p', m') ->
  numeric p' /\ map_Forall (fun _ v => 0 <= v) m'.
Proof.
  intros Hpt Ht Hmt Hm Hd.
  apply derive_proc_Ok in Hd as (x & Hx & -> & ->).
  pose proof (cur_jiffies_range p) as Hc.
  split; [split|]; simpl.
  - apply (signed_not_nan false), cpu_pct_signed.
    + apply proc_delta_range; [done|].
      unfold prev_of. destruct (m !! pid p) as [v|] eqn:E; [|lia].
      by apply (Hm _ _ E).
    + by apply total_delta_range.
  - apply mem_pct_signed in Hx as [Hx| ->]; [|done|done].
    by apply signed_not_nan in Hx.
  - apply map_Forall_insert_2; [lia|done].
Qed.

Lemma sample_loop_numeric (w : World) (s : Sample) (pids : list Z)
    (m : gmap Z Z) (procs : list ProcInfo) (m' : gmap Z Z) :
  0 <= prev_total s -> total_jiffies s < 2 ^ 64 -> mem_total_kb s < 2 ^ 64 ->
  map_Forall (fun _ v => 0 <= v) m ->
  sample_loop w s pids [] m = Ok (procs, m') ->
  Forall numeric procs /\ map_Forall (fun _ v => 0 <= v) m'.
Proof.
  intros Hpt Ht Hmt Hm H.
  apply (sample_loop_invariant w s pids
           (fun _ procs m0 =>
              Forall numeric procs /\ map_Forall (fun _ v => 0 <= v) m0))
    with (seen := []) in H; [done| |done|by split].
  intros seen n rest procs0 m0 p p1 m1 _ [IH1 IH2] _ Hd.
  destruct (derive_proc_numeric s m0 p p1 m1 Hpt Ht Hmt IH2 Hd) as [Hn Hm1].
  split; [|done]. apply Forall_app. split; [done|]. by constructor.
Qed.

Section Ranked.

Variable std_sort :
  (ProcInfo -> ProcInfo -> bool) -> list ProcInfo -> list ProcInfo.
Variable page_sz : Z.

Lemma reachable_state_ok (st : State) :
  reachable std_sort page_sz st -> state_ok st.
Proof.
  revert st. apply reachable_invariant.
  - intros w0. split; [apply wrap64_range|]. apply map_Forall_empty.
  - intros w st st' [Hpt Hm] Hstep.
    apply step_Ok in Hstep as (c & k & Hc & _ & Ht & Hp).
    apply cycle_Ok in Hc as (pids & procs & _ & Hloop & _ & _ & _ & Hct).
    split.
    + rewrite Ht, Hct. apply wrap64_range.
    + rewrite Hp.
      apply sample_loop_numeric in Hloop as [_ Hm']; simpl; try done.
      * lia.
      * apply wrap64_range.
      * apply wrap64_range.
Qed.

(** In every iteration of a run, the vector on the screen is the sampled
    vector, rearranged and ordered by the key of the current mode. *)
Lemma cycle_ranked (w : World) (st : State) (c : Cycle) :
  sort_contract std_sort ->
  reachable std_sort page_sz st ->
  cycle std_sort page_sz w st = Ok c ->
  exists pids,
    list_pids w = Ok pids
    /\ pid <$> cy_procs c ≡ₚ pids
    /\ StronglySorted (ranked (sortmode (controls st))) (cy_procs c).
Proof.
  intros Hsort Hreach Hc.
  destruct (reachable_state_ok st Hreach) as [Hpt Hm].
  apply cycle_Ok in Hc as (pids & procs & Hpids & Hloop & -> & _).
  pose proof (sample_loop_pids _ _ _ _ _ _ Hloop) as Hp.
  apply sample_loop_numeric in Hloop as [Hn _]; simpl; try done;
    try apply wrap64_range; try lia.
  assert (Hrank : forall m,
            rank std_sort m procs ≡ₚ procs
            /\ StronglySorted (ranked m) (rank std_sort m procs)).
  { intros m. unfold rank.
    destruct (Hsort (comparator m) procs (swo_comparator m procs Hn))
      as [Hperm Hsorted].
    split; [done|]. apply sorted_by_ranked; [by rewrite Hperm|done]. }
  destruct (Hrank (sortmode (controls st))) as [Hperm Hsorted].
  exists pids. split; [done|]. split; [|done].
  by rewrite Hperm, Hp.
Qed.

End Ranked.

(** * More of the program *)

(** ** Enumeration of the processes: [is_number], [list_pids] *)

Lemma isdigit_not_space (c : ascii) : isdigit c = true -> isspace c = false.
Proof.
  unfold isdigit, isspace. intros H. apply andb_true_iff in H as [H1 H2].
  apply Z.leb_le in H1, H2.
  apply orb_false_iff. split; [apply Z.eqb_neq; lia|].
  apply andb_false_iff. right. apply Z.leb_gt. lia.
Qed.

Lemma isdigit_not_sign (c : ascii) (r : string) :
  isdigit c = true -> split_sign (String c r) = (false, String c r).
Proof.
  destruct c as [[] [] [] [] [] [] [] []]; try reflexivity; discriminate.
Qed.

Lemma digits_prefix_Some (s : string) (v : Z) :
  exists v', digits_prefix (Some v) s = Some v'.
Proof.
  revert v. induction s as [|c s IH]; intros v; simpl; [by eexists|].
  destruct (isdigit c); [apply IH|by eexists].
Qed.

(** A name that [is_number] accepts is a subject sequence for [strtol]:
    no sign, at least one digit. *)
Lemma is_number_strto (s : string) :
  is_number s = true -> exists v, strto s = Some (false, v) /\ 0 <= v.
Proof.
  unfold is_number. destruct s as [|c r]; [done|]. simpl.
  intros H. apply andb_true_iff in H as [Hc _].
  unfold strto. simpl. rewrite (isdigit_not_space c Hc).
  rewrite (isdigit_not_sign c r Hc). simpl. rewrite Hc.
  destruct (digits_prefix_Some r (10 * 0 + (char_code c - 48))) as [v Hv].
  rewrite Hv. simpl. exists v. split; [done|].
  apply (digits_prefix_nonneg r _ v) in Hv; [done|]. simpl.
  unfold isdigit in Hc. apply andb_true_iff in Hc as [Hc _].
  apply Z.leb_le in Hc. lia.
Qed.

Lemma is_number_stoi (s : string) :
  is_number s = true ->
  (exists n, stoi s = Ok n /\ 0 <= n <= INT_MAX) \/ stoi s = Fault OutOfRange.
Proof.
  intros H. destruct (is_number_strto s H) as (v & Hv & Hpos).
  unfold stoi. rewrite Hv. destruct (in_int v) eqn:E; [|by right].
  left. exists v. split; [done|]. apply in_int_range in E. lia.
Qed.

Lemma collect_pids_Ok (names : list string) (pids : list Z) :
  collect_pids names = Ok pids ->
  Forall2 (fun name n => is_number name = true /\ stoi name = Ok n)
    (List.filter is_number names) pids.
Proof.
  revert pids. induction names as [|name names IH]; intros pids; simpl.
  - intros [= <-]. constructor.
  - destruct (is_number name) eqn:E; [|apply IH].
    intros H. apply bind_Ok in H as (n & Hn & H).
    apply bind_Ok in H as (ps & Hps & [= <-]).
    constructor; [done|]. by apply IH.
Qed.

(** X1.  [list_pids] returns one pid for each directory entry made of
    digits only, in the order of the directory, and nothing for any other
    entry; every pid it returns is an [int] that is not negative.  When
    [/proc] cannot be opened the list is empty.  An entry that
    [is_number] accepts is never rejected by [std::stoi] as malformed: the
    one way the call can throw is a value beyond [INT_MAX]. *)
Theorem list_pids_numeric_entries (w : World) (pids : list Z) :
  list_pids w = Ok pids ->
  match w_proc_dir w with
  | None => pids = []
  | Some names =>
      Forall2 (fun name n => stoi name = Ok n)
        (List.filter is_number names) pids
      /\ Forall (fun name =>
                   is_number name = true -> stoi name <> Fault InvalidArgument)
           names
  end
  /\ Forall (fun n => 0 <= n <= INT_MAX) pids.
Proof.
  unfold list_pids. intros H.
  destruct (w_proc_dir w) as [names|]; [|injection H as <-; by split].
  pose proof (collect_pids_Ok names pids H) as H2. split.
  - split.
    + eapply Forall2_impl; [exact H2|]. by intros name n [_ Hn].
    + apply Forall_forall. intros name _ Hnum.
      destruct (is_number_stoi name Hnum) as [(n & -> & _)| ->]; done.
  - clear H. induction H2 as [|name n l l' [Hnum Hn] _ IH]; [constructor|].
    constructor; [|done].
    destruct (is_number_stoi name Hnum) as [(n' & Hn' & Hr)|Hf]; [|congruence].
    rewrite Hn in Hn'. by injection Hn' as <-.
Qed.

Lemma list_pids_numeric_entries_witness :
  Forall (fun n => 0 <= n <= INT_MAX) [7; 8].
Proof.
  apply (list_pids_numeric_entries world_D [7; 8]). reflexivity.
Defined.

(** ** Total memory: [read_mem_total_kb] *)

Lemma find_mem_total_absent (l : list (string * Z * string)) :
  Forall (fun t => t.1.1 <> "MemTotal:") l -> find_mem_total l = 0.
Proof.
  induction 1 as [|[[key v] u] l Hk _ IH]; simpl; [done|].
  simpl in Hk. destruct (String.eqb_spec key "MemTotal:"); [done|apply IH].
Qed.


(** X2.  When [/proc/meminfo] yields no [MemTotal:] entry the total is 0,
    and a cycle sampled with it gives every process a memory percentage
    of [0.0].  The product of line 143 is then never formed, so the
    sampling loop runs to its end exactly when every [read_proc] does.
    When there is such an entry the first one counts, whatever follows
    it. *)
Theorem missing_memtotal_zero_mem (w : World) (s : Sample) (pids : list Z)
    (m : gmap Z Z) :
  Forall (fun t => t.1.1 <> "MemTotal:") (w_meminfo w) ->
  mem_total_kb s = read_mem_total_kb w ->
  read_mem_total_kb w = 0
  /\ (is_ok (sample_loop w s pids [] m)
      <-> Forall (fun n => is_ok (read_proc w n)) pids)
  /\ forall procs m',
       sample_loop w s pids [] m = Ok (procs, m') ->
       Forall (fun p => mem_percent p = zero) procs.
Proof.
  intros Habs Hs.
  assert (H0 : read_mem_total_kb w = 0).
  { unfold read_mem_total_kb. by rewrite find_mem_total_absent. }
  rewrite H0 in Hs. split; [done|]. split.
  - rewrite sample_loop_defined. apply Forall_iff. intros n.
    unfold sample_defined. rewrite Hs. split.
    + intros (p & Hp & _). by exists p.
    + intros (p & Hp). exists p. split; [done|]. by eexists.
  - intros procs m' H. apply sample_loop_entries in H.
    rewrite Forall_forall in H. apply Forall_forall. intros p' Hin.
    destruct (H p' Hin) as (p & seen & rest & m0 & m1 & _ & _ & Hd & _).
    apply derive_proc_Ok in Hd as (x & Hx & -> & _). simpl.
    rewrite Hs in Hx. by injection Hx.
Qed.

Lemma missing_memtotal_zero_mem_witness :
  exists p m',
    sample_loop
      (mkWorld (w_cpu world_A) [("MemFree:", 1, "kB")] (w_proc_dir world_A)
         (w_stat world_A) (w_status world_A) passwd 0 24 ERR (fun _ => 0))
      (mkSample page 1000 1000 0) [7] [] ∅ = Ok ([p], m')
    /\ mem_percent p = zero.
Proof.
  set (w := mkWorld (w_cpu world_A) [("MemFree:", 1, "kB")]
              (w_proc_dir world_A) (w_stat world_A) (w_status world_A)
              passwd 0 24 ERR (fun _ => 0)).
  eexists _, _.
  assert (H : sample_loop w (mkSample page 1000 1000 0) [7] [] ∅ = Ok (_, _))
    by (vm_compute; reflexivity).
  split; [exact H|].
  destruct (missing_memtotal_zero_mem w (mkSample page 1000 1000 0) [7] ∅)
    as (_ & _ & Hz).
  - repeat constructor. simpl. discriminate.
  - reflexivity.
  - specialize (Hz _ _ H). by apply Forall_cons in Hz as [Hp _].
Defined.



(** ** The owner of a process: [uid_to_user], [read_proc] *)

Lemma read_stat_owner (w : World) (p q : ProcInfo) :
  read_stat w p = Ok q -> uid q = uid p /\ user q = user p.
Proof.
  unfold read_stat. destruct (w_stat w (pid p)) as [line|]; [|by intros [= <-]].
  destruct (23 <? length (words line))%nat; [|by intros [= <-]].
  intros H.
  apply bind_Ok in H as (ut & _ & H). apply bind_Ok in H as (st & _ & H).
  apply bind_Ok in H as (vs & _ & H). apply bind_Ok in H as (rs & _ & H).
  by injection H as <-.
Qed.

Lemma read_status_owner (w : World) (p : ProcInfo) :
  let q := read_status w p in
  user q = uid_to_user w (uid q) \/ (user q = user p /\ uid q = uid p).
Proof.
  unfold read_status. destruct (w_status w (pid p)) as [lines|]; [|by right].
  assert (H : forall q0,
            user q0 = uid_to_user w (uid q0)
            \/ (user q0 = user p /\ uid q0 = uid p) ->
            let q := fold_left (read_status_line w) lines q0 in
            user q = uid_to_user w (uid q)
            \/ (user q = user p /\ uid q = uid p)).
  { induction lines as [|l lines IH]; intros q0 Hq0; simpl; [done|].
    apply IH. unfold read_status_line.
    destruct (starts_with "Uid:" l); [by left|done]. }
  apply H. by right.
Qed.

Lemma read_proc_owner (w : World) (n : Z) (p : ProcInfo) :
  read_proc w n = Ok p ->
  exists p0,
    read_stat w (blank_proc w n) = Ok p0
    /\ user p = uid_to_user w (uid p)
    /\ uid p = uid (read_status w p0).
Proof.
  unfold read_proc. intros H. apply bind_Ok in H as (p0 & Hp0 & H).
  exists p0. split; [done|].
  destruct (read_stat_owner _ _ _ Hp0) as [Hu0 Hn0]. simpl in Hu0, Hn0.
  pose proof (read_status_owner w p0) as Ho. simpl in Ho.
  injection H as <-.
  destruct (String.eqb_spec (user (read_status w p0)) "") as [He|He]; [done|].
  split; [|done]. destruct Ho as [Ho|[Ho _]]; [done|]. congruence.
Qed.

(** X4.  The owner shown for a process is always the resolution of the
    uid stored with it: the [pw_name] that [getpwuid] gives for that uid
    and, when there is none, the uid written in decimal.  Without a
    readable [status] file the uid is whatever the uninitialised member
    held. *)
Theorem owner_is_resolved_uid (w : World) (n : Z) (p : ProcInfo) :
  read_proc w n = Ok p ->
  user p = uid_to_user w (uid p)
  /\ (w_passwd w (uid p) = None -> user p = pretty (uid p))
  /\ (w_status w n = None -> uid p = w_indeterminate_uid w).
Proof.
  intros H. apply read_proc_owner in H as (p0 & Hp0 & Hres & Huid).
  destruct (read_stat_owner _ _ _ Hp0) as [Hu0 _]. simpl in Hu0.
  pose proof (read_stat_pid _ _ _ Hp0) as Hpid. simpl in Hpid.
  split; [done|]. split.
  - intros Hnone. rewrite Hres. unfold uid_to_user. by rewrite Hnone.
  - intros Hst. rewrite Huid. unfold read_status. rewrite Hpid, Hst. done.
Qed.

Lemma owner_is_resolved_uid_witness :
  exists p, read_proc world_D 8 = Ok p /\ user p = uid_to_user world_D (uid p).
Proof.
  eexists.
  assert (H : read_proc world_D 8 = Ok _) by (vm_compute; reflexivity).
  split; [exact H|]. by destruct (owner_is_resolved_uid _ _ _ H).
Defined.

(** ** The fields of [/proc/<pid>/stat]: [read_proc] *)

Lemma append_cons (x : ascii) (a b : string) :
  String x a +:+ b = String x (a +:+ b).
Proof. reflexivity. Qed.

Lemma append_String_assoc (a : string) (c : ascii) (b : string) :
  (a +:+ String c "") +:+ b = a +:+ String c b.
Proof.
  induction a as [|x a IH]; [done|]. rewrite !append_cons. by rewrite IH.
Qed.

Lemma append_empty_r (a : string) : a +:+ "" = a.
Proof. induction a as [|x a IH]; [done|]. rewrite append_cons. by rewrite IH. Qed.

Lemma words_from_token (t cur rest : string) :
  forallb (fun c => negb (isspace c)) (chars t) = true ->
  words_from cur (t +:+ rest) = words_from (cur +:+ t) rest.
Proof.
  revert cur. induction t as [|c t IH]; intros cur H.
  - by rewrite append_empty_r.
  - simpl in H. apply andb_prop in H as [Hc Ht].
    apply negb_true_iff in Hc. rewrite append_cons. simpl.
    rewrite Hc, IH by done.
    by rewrite append_String_assoc.
Qed.

Lemma words_from_end (cur : string) : cur <> "" -> words_from cur "" = [cur].
Proof. by destruct cur. Qed.

Lemma words_from_blank (cur rest : string) :
  cur <> "" ->
  words_from cur (String " " rest) = cur :: words_from "" rest.
Proof. by destruct cur. Qed.

(** X5.  The tokenizer of [read_proc] undoes the writing of fields on a
    line: tokens that are not empty and hold no white space, written
    with a blank between neighbours, are read back as they were, in
    order and in number. *)
Theorem words_unwords (toks : list string) :
  Forall is_token toks -> words (unwords toks) = toks.
Proof.
  unfold words. induction 1 as [|t ts [Hne Ht] Hts IH]; [done|].
  destruct ts as [|t2 ts].
  - simpl. rewrite <- (append_empty_r t) at 1.
    rewrite words_from_token by done. by apply words_from_end.
  - change (unwords (t :: t2 :: ts))
      with (t +:+ String " " (unwords (t2 :: ts))).
    rewrite words_from_token by done.
    change ("" +:+ t) with t.
    rewrite words_from_blank by done. by rewrite IH.
Qed.

Lemma words_unwords_witness :
  words (unwords ["7"; "(sh)"; "S"]) = ["7"; "(sh)"; "S"].
Proof.
  apply (words_unwords ["7"; "(sh)"; "S"]).
  repeat constructor; discriminate.
Defined.

Lemma get_append_last (s : string) (c : ascii) :
  String.get (String.length s) (s +:+ String c "") = Some c.
Proof. induction s as [|x s IH]; [done|]. by rewrite append_cons. Qed.

Lemma substring_append_prefix (s r : string) :
  String.substring 0 (String.length s) (s +:+ r) = s.
Proof.
  induction s as [|x s IH]; [by destruct r|].
  rewrite append_cons. simpl. by rewrite IH.
Qed.

Lemma length_append (s r : string) :
  String.length (s +:+ r) = (String.length s + String.length r)%nat.
Proof.
  induction s as [|x s IH]; [done|]. rewrite append_cons. simpl. by rewrite IH.
Qed.

(** X6.  A command name in parentheses loses exactly the outer pair,
    whatever it holds, parentheses included; a token that does not both
    begin with [(] and end with [)] is kept as it is. *)
Theorem strip_parens_wrapped (s : string) :
  strip_parens (String "(" (s +:+ ")")) = s
  /\ (forall comm,
        comm <> "" ->
        first_char comm <> Some "("%char \/ last_char comm <> Some ")"%char ->
        strip_parens comm = comm).
Proof.
  split.
  - unfold strip_parens.
    assert (Hf : first_char (String "(" (s +:+ ")")) = Some "("%char) by done.
    assert (Hlen : String.length (String "(" (s +:+ ")"))
                   = S (S (String.length s))).
    { simpl. rewrite length_append. simpl. lia. }
    assert (Hl : last_char (String "(" (s +:+ ")")) = Some ")"%char).
    { unfold last_char. rewrite Hlen. cbn [Nat.pred String.get].
      apply get_append_last. }
    rewrite Hf, Hl, Hlen. rewrite !bool_decide_eq_true_2 by done.
    cbn [andb Nat.sub String.substring]. rewrite Nat.sub_0_r.
    apply substring_append_prefix.
  - intros comm _ H. unfold strip_parens.
    destruct H as [H|H]; rewrite (bool_decide_eq_false_2 _ H);
      [done|by rewrite andb_false_r].
Qed.

Lemma strip_parens_wrapped_witness : strip_parens "(sh)" = "sh".
Proof. apply (proj1 (strip_parens_wrapped "sh")). Defined.

(** ** Decimal text and the conversions [stoul], [stol], [stoi]

    [std::to_string] writes what the conversions of [read_proc] and
    [list_pids] read. *)

Lemma pretty_N_char_digit (d : N) :
  (d < 10)%N ->
  isdigit (pretty_N_char d) = true
  /\ char_code (pretty_N_char d) - 48 = Z.of_N d.
Proof.
  intros H.
  assert (d = 0 \/ d = 1 \/ d = 2 \/ d = 3 \/ d = 4 \/ d = 5 \/ d = 6
          \/ d = 7 \/ d = 8 \/ d = 9)%N as Hd by lia.
  repeat destruct Hd as [->|Hd]; try subst d; by vm_compute.
Qed.

(** The digits that [pretty_N_go] puts in front of its accumulator. *)
Lemma pretty_N_go_digits (x : N) :
  (0 < x)%N ->
  exists ds,
    (forall s, pretty_N_go x s = ds +:+ s)
    /\ (exists c r, ds = String c r /\ isdigit c = true)
    /\ forallb isdigit (chars ds) = true
    /\ forall acc rest,
         digits_prefix acc (ds +:+ rest)
         = digits_prefix
             (Some (10 ^ Z.of_nat (String.length ds) * default 0 acc
                    + Z.of_N x)) rest.
Proof.
  induction (N.lt_wf_0 x) as [x _ IH]. intros Hx.
  destruct (pretty_N_char_digit (x `mod` 10)%N) as [Hdig Hval];
    [by apply N.mod_lt|].
  remember (pretty_N_char (x `mod` 10)) as c eqn:Ec.
  pose proof (N.div_mod x 10 ltac:(done)) as Hdm.
  destruct (decide (x `div` 10 = 0)%N) as [H0|H0].
  - exists (String c ""). split; [|split; [|split]].
    + intros s. rewrite pretty_N_go_step by done. rewrite <- Ec.
      by rewrite H0, pretty_N_go_0.
    + by exists c, "".
    + simpl. by rewrite Hdig.
    + intros acc rest. rewrite append_cons. simpl. rewrite Hdig.
      change (10 ^ Z.of_nat 1) with 10. rewrite Hval.
      rewrite N.mod_small by (by apply N.div_small_iff). done.
  - destruct (IH (x `div` 10)%N) as (ds & Hgo & (c0 & r0 & -> & Hc0) & Hall & Hval');
      [apply N.div_lt; lia|by apply N.neq_0_lt_0|].
    exists (String c0 r0 +:+ String c ""). split; [|split; [|split]].
    + intros s. rewrite pretty_N_go_step by done. rewrite <- Ec.
      by rewrite Hgo, append_String_assoc.
    + rewrite append_cons. by eexists _, _.
    + unfold chars in *.
      assert (Happ : forall a b,
                list_ascii_of_string (a +:+ b)
                = list_ascii_of_string a ++ list_ascii_of_string b).
      { intros a b. induction a as [|y a IHa]; [done|].
        rewrite append_cons. simpl. by rewrite IHa. }
      rewrite Happ, forallb_app, Hall. simpl. by rewrite Hdig.
    + intros acc rest. rewrite append_String_assoc, Hval'.
      simpl digits_prefix. rewrite Hdig. f_equal. f_equal.
      rewrite length_append. simpl String.length.
      replace (Z.of_nat (S (String.length r0 + 1)))
        with (Z.of_nat (S (String.length r0)) + 1) by lia.
      rewrite Z.pow_add_r by lia. rewrite Hval.
      apply (f_equal Z.of_N) in Hdm.
      rewrite N2Z.inj_add, N2Z.inj_mul in Hdm. rewrite Hdm.
      change (Z.of_N 10) with 10. change (10 ^ 1) with 10. ring.
Qed.

Lemma pretty_pos_digits (p : positive) :
  (exists c r, pretty (Z.pos p) = String c r /\ isdigit c = true)
  /\ forall rest,
       (forall c r, rest = String c r -> isdigit c = false) ->
       digits_prefix None (pretty (Z.pos p) +:+ rest) = Some (Z.pos p).
Proof.
  destruct (pretty_N_go_digits (N.pos p))
    as (ds & Hgo & Hhead & _ & Hval); [done|].
  assert (Hp : pretty (Z.pos p) = ds).
  { change (pretty (Z.pos p)) with (pretty_N_go (N.pos p) "").
    by rewrite Hgo, append_empty_r. }
  rewrite Hp. split; [done|]. intros rest Hrest.
  rewrite Hval. simpl default. rewrite Z.mul_0_r, Z.add_0_l.
  change (Z.of_N (N.pos p)) with (Z.pos p).
  destruct rest as [|c' r']; [done|]. simpl.
  by rewrite (Hrest c' r' eq_refl).
Qed.

(** What [strtol] and [strtoul] make of a number in decimal, followed by
    anything that does not go on with a digit. *)
Lemma strto_pretty (z : Z) (rest : string) :
  (forall c r, rest = String c r -> isdigit c = false) ->
  strto (pretty z +:+ rest) = Some (bool_decide (z < 0), Z.abs z).
Proof.
  intros Hrest. destruct z as [|p|p].
  - change (pretty 0) with "0". rewrite append_cons. unfold strto. simpl.
    destruct rest as [|c' r']; [done|]. simpl.
    by rewrite (Hrest c' r' eq_refl).
  - destruct (pretty_pos_digits p) as [(c & r & Hc & Hd) Hval].
    unfold strto.
    assert (Hskip : skip_space (pretty (Z.pos p) +:+ rest)
                    = pretty (Z.pos p) +:+ rest).
    { rewrite Hc, append_cons. simpl. by rewrite (isdigit_not_space c Hd). }
    assert (Hsign : split_sign (pretty (Z.pos p) +:+ rest)
                    = (false, pretty (Z.pos p) +:+ rest)).
    { rewrite Hc, append_cons. by apply isdigit_not_sign. }
    rewrite Hskip, Hsign, Hval by done. done.
  - destruct (pretty_pos_digits p) as [_ Hval].
    change (pretty (Z.neg p)) with (String "-" (pretty (Z.pos p))).
    rewrite append_cons. unfold strto. simpl skip_space. simpl split_sign.
    cbv iota beta. rewrite Hval by done. done.
Qed.

Lemma strto_pretty_end (z : Z) :
  strto (pretty z) = Some (bool_decide (z < 0), Z.abs z).
Proof.
  rewrite <- (append_empty_r (pretty z)). by apply strto_pretty.
Qed.

Lemma stoul_pretty (z : Z) : 0 <= z < 2 ^ 64 -> stoul (pretty z) = Ok z.
Proof.
  intros H. unfold stoul. rewrite strto_pretty_end.
  rewrite bool_decide_eq_false_2 by lia.
  rewrite Z.abs_eq by lia.
  destruct (Z.leb_spec z ULONG_MAX) as [_|Hgt]; [done|].
  unfold ULONG_MAX in Hgt. lia.
Qed.

Lemma stol_pretty (z : Z) : LONG_MIN <= z <= LONG_MAX -> stol (pretty z) = Ok z.
Proof.
  intros H. unfold stol. rewrite strto_pretty_end.
  assert (Hz : (if bool_decide (z < 0) then - Z.abs z else Z.abs z) = z).
  { case_bool_decide; lia. }
  rewrite Hz.
  assert (Hin : in_long z = true).
  { unfold in_long. apply andb_true_iff. split; apply Z.leb_le; lia. }
  by rewrite Hin.
Qed.

Lemma stoi_pretty (z : Z) : INT_MIN <= z <= INT_MAX -> stoi (pretty z) = Ok z.
Proof.
  intros H. unfold stoi. rewrite strto_pretty_end.
  assert (Hz : (if bool_decide (z < 0) then - Z.abs z else Z.abs z) = z).
  { case_bool_decide; lia. }
  rewrite Hz. apply in_int_range in H. by rewrite H.
Qed.

Lemma is_number_pretty (z : Z) : 0 <= z -> is_number (pretty z) = true.
Proof.
  intros H. destruct z as [|p|p]; [done| |lia].
  destruct (pretty_N_go_digits (N.pos p))
    as (ds & Hgo & (c & r & Hds & _) & Hall & _); [done|].
  assert (Hp : pretty (Z.pos p) = ds).
  { change (pretty (Z.pos p)) with (pretty_N_go (N.pos p) "").
    by rewrite Hgo, append_empty_r. }
  rewrite Hp. unfold is_number. rewrite Hall. by rewrite Hds.
Qed.

(** ** What [read_proc] and [list_pids] read back *)

Lemma read_proc_of_stat (w : World) (n : Z) (p0 : ProcInfo) :
  read_stat w (blank_proc w n) = Ok p0 ->
  exists p, read_proc w n = Ok p /\ same_counters p p0.
Proof.
  intros H.
  assert (Hok : exists p, read_proc w n = Ok p).
  { unfold read_proc. rewrite H. by eexists. }
  destruct Hok as [p Hp]. exists p. split; [done|].
  apply read_proc_counters in Hp as (p1 & Hp1 & Hs). congruence.
Qed.

(** X7.  [read_proc] reads back what the kernel writes.  On a line of
    [/proc/<pid>/stat] whose command name takes up [k + 1] tokens, that
    is, holds [k] blanks, the four counters are taken from the fields
    that lie [k] places before [utime], [stime], [vsize] and [rss], and
    the command is the first of these tokens, without its parentheses
    only if it has both.  With [k = 0] these are the kernel's own
    fields. *)
Theorem stat_fields_read_back (w : World) (n : Z) (f0 : string)
    (cw fields : list string) (k : nat) (ut st vs rs : Z) :
  Forall is_token (f0 :: cw ++ fields) ->
  w_stat w n = Some (unwords (f0 :: cw ++ fields)) ->
  length cw = S k -> (k <= 11)%nat ->
  fields !! (11 - k)%nat = Some (pretty ut) ->
  fields !! (12 - k)%nat = Some (pretty st) ->
  fields !! (20 - k)%nat = Some (pretty vs) ->
  fields !! (21 - k)%nat = Some (pretty rs) ->
  0 <= ut < 2 ^ 64 -> 0 <= st < 2 ^ 64 -> 0 <= vs < 2 ^ 64 ->
  LONG_MIN <= rs <= LONG_MAX ->
  exists p,
    read_proc w n = Ok p
    /\ pid p = n /\ utime p = ut /\ stime p = st /\ vsize p = vs /\ rss p = rs
    /\ cmd p = strip_parens (default "" (head cw)).
Proof.
  intros Htok Hline Hk Hk11 Hut Hst Hvs Hrs Rut Rst Rvs Rrs.
  set (toks := f0 :: cw ++ fields) in *.
  assert (Hat : forall j, (j <= 21 - k)%nat ->
            toks !! (S (S k) + j)%nat = fields !! j).
  { intros j _. unfold toks. simpl. rewrite lookup_app_r by lia.
    f_equal. lia. }
  assert (H13 : tok toks 13 = pretty ut).
  { unfold tok. replace 13%nat with (S (S k) + (11 - k))%nat by lia.
    rewrite Hat by lia. by rewrite Hut. }
  assert (H14 : tok toks 14 = pretty st).
  { unfold tok. replace 14%nat with (S (S k) + (12 - k))%nat by lia.
    rewrite Hat by lia. by rewrite Hst. }
  assert (H22 : tok toks 22 = pretty vs).
  { unfold tok. replace 22%nat with (S (S k) + (20 - k))%nat by lia.
    rewrite Hat by lia. by rewrite Hvs. }
  assert (H23 : tok toks 23 = pretty rs).
  { unfold tok. replace 23%nat with (S (S k) + (21 - k))%nat by lia.
    rewrite Hat by lia. by rewrite Hrs. }
  assert (H1 : tok toks 1 = default "" (head cw)).
  { unfold tok, toks. simpl. by destruct cw. }
  assert (Hlen : (23 <? length toks)%nat = true).
  { apply Nat.ltb_lt. apply lookup_lt_Some in Hrs.
    unfold toks. simpl. rewrite length_app. lia. }
  assert (Hstat : read_stat w (blank_proc w n)
                  = Ok (mkProcInfo n (w_indeterminate_uid w) ""
                          (strip_parens (default "" (head cw)))
                          ut st rs vs zero zero)).
  { unfold read_stat. simpl pid. rewrite Hline, words_unwords by done.
    rewrite Hlen, H13, H14, H22, H23, H1.
    rewrite !stoul_pretty, stol_pretty by done. reflexivity. }
  apply read_proc_of_stat in Hstat as (p & Hp & Hs).
  exists p. split; [done|].
  destruct Hs as (E1 & E2 & E3 & E4 & E5 & E6). simpl in *. done.
Qed.

Lemma stat_fields_read_back_witness :
  exists p,
    read_proc
      (system 1000 8000000 ["9"]
         [(9, "9 (a b) S 1 1 1 0 -1 4194304 120 0 0 77 60 40 0 0 20 0 1 0 100 1000000 2000 5 1 1 0")]
         ERR) 9 = Ok p
    /\ pid p = 9 /\ utime p = 77 /\ stime p = 60 /\ vsize p = 100
    /\ rss p = 1000000 /\ cmd p = strip_parens "(a".
Proof.
  apply (stat_fields_read_back _ 9 "9" ["(a"; "b)"]
           ["S"; "1"; "1"; "1"; "0"; "-1"; "4194304"; "120"; "0"; "0";
            "77"; "60"; "40"; "0"; "0"; "20"; "0"; "1"; "0"; "100"; "1000000";
            "2000"; "5"; "1"; "1"; "0"] 1%nat);
    try reflexivity; try (unfold LONG_MIN, LONG_MAX; lia).
  repeat constructor; discriminate.
Defined.

Lemma collect_pids_pretty (names : list string) (ns : list Z) :
  List.filter is_number names = pretty <$> ns ->
  Forall (fun n => 0 <= n <= INT_MAX) ns ->
  collect_pids names = Ok ns.
Proof.
  revert ns. induction names as [|name names IH]; intros ns Hf Hr.
  - destruct ns; [done|discriminate].
  - simpl in *. destruct (is_number name) eqn:E; [|by apply IH].
    destruct ns as [|n ns]; [discriminate|].
    injection Hf as -> Hf. apply Forall_cons in Hr as [Hn Hr].
    rewrite stoi_pretty by (unfold INT_MIN, INT_MAX in *; lia).
    cbn [mbind result_bind]. by rewrite (IH ns).
Qed.

(** X8.  [list_pids] reads back the pids behind the directory entries:
    when the entries of [/proc] made of digits are the decimal names of
    the numbers [ns], each an [int] that is not negative, the vector
    returned is [ns], whatever other entries lie between them.  Every
    such decimal name is an entry that [is_number] accepts. *)
Theorem list_pids_read_back (w : World) (names : list string) (ns : list Z) :
  w_proc_dir w = Some names ->
  List.filter is_number names = pretty <$> ns ->
  Forall (fun n => 0 <= n <= INT_MAX) ns ->
  list_pids w = Ok ns
  /\ Forall (fun n => is_number (pretty n) = true) ns.
Proof.
  intros Hd Hf Hr. split.
  - unfold list_pids. rewrite Hd. by apply collect_pids_pretty.
  - rewrite Forall_forall in Hr. apply Forall_forall. intros n Hn.
    apply is_number_pretty. by apply Hr.
Qed.

Lemma list_pids_read_back_witness : list_pids world_D = Ok [7; 8].
Proof.
  apply (list_pids_read_back world_D ["."; ".."; "self"; "7"; "8"] [7; 8]).
  - reflexivity.
  - reflexivity.
  - repeat constructor; unfold INT_MAX; lia.
Defined.






(** ** When [read_proc] throws *)

Lemma not_ok_fault {A : Type} (r : result A) :
  ~ is_ok r <-> exists f, r = Fault f.
Proof.
  split.
  - intros H. destruct r as [a|f]; [|by exists f]. destruct H. by exists a.
  - intros [f ->] [a Ha]. discriminate.
Qed.

Lemma strto_fault (s : string) :
  (stoul s = Fault InvalidArgument \/ stoul s = Fault OutOfRange
   \/ is_ok (stoul s))
  /\ (stol s = Fault InvalidArgument \/ stol s = Fault OutOfRange
      \/ is_ok (stol s)).
Proof.
  unfold stoul, stol. destruct (strto s) as [[neg v]|]; [|by split; left].
  split.
  - destruct (v <=? ULONG_MAX); [right; right; by eexists|by right; left].
  - destruct (in_long _); [right; right; by eexists|by right; left].
Qed.

(** X10.  [read_proc] throws only from the four conversions of lines 84
    to 87, so only on a [stat] line of more than 23 tokens, and only
    [std::invalid_argument] or [std::out_of_range]; the [status] file
    and the password database cannot make it fail.  It returns exactly
    when the [stat] file is unreadable, or its line has at most 23
    tokens, or all four tokens convert. *)
Theorem read_proc_throws_only_on_conversion (w : World) (n : Z) :
  (is_ok (read_proc w n) <->
   forall line, w_stat w n = Some line ->
     (23 < length (words line))%nat ->
     is_ok (stoul (tok (words line) 13)) /\ is_ok (stoul (tok (words line) 14))
     /\ is_ok (stoul (tok (words line) 22))
     /\ is_ok (stol (tok (words line) 23)))
  /\ forall f, read_proc w n = Fault f ->
       f = InvalidArgument \/ f = OutOfRange.
Proof.
  unfold read_proc, read_stat. simpl pid.
  destruct (w_stat w n) as [line|].
  2:{ split; [|done]. split; [done|]. intros _. by eexists. }
  destruct (Nat.ltb_spec 23 (length (words line))) as [Hlen|Hlen].
  2:{ split; [|done]. split; [intros _ l [= <-] ?; lia|].
      intros _. by eexists. }
  destruct (strto_fault (tok (words line) 13)) as [H13 _].
  destruct (strto_fault (tok (words line) 14)) as [H14 _].
  destruct (strto_fault (tok (words line) 22)) as [H22 _].
  destruct (strto_fault (tok (words line) 23)) as [_ H23].
  split.
  - split.
    + intros [p Hp] l [= <-] _.
      destruct (stoul (tok (words line) 13)) as [a|]; [|done].
      destruct (stoul (tok (words line) 14)) as [b|]; [|done].
      destruct (stoul (tok (words line) 22)) as [c|]; [|done].
      destruct (stol (tok (words line) 23)) as [d|]; [|done].
      repeat split; by eexists.
    + intros H. destruct (H line eq_refl Hlen)
        as ([a ->] & [b ->] & [c ->] & [d ->]).
      by eexists.
  - intros f.
    destruct H13 as [->|[->|[a ->]]]; [intros [= <-]; by left
                                      |intros [= <-]; by right|].
    destruct H14 as [->|[->|[b ->]]]; [intros [= <-]; by left
                                      |intros [= <-]; by right|].
    destruct H22 as [->|[->|[c ->]]]; [intros [= <-]; by left
                                      |intros [= <-]; by right|].
    destruct H23 as [->|[->|[d ->]]]; [intros [= <-]; by left
                                      |intros [= <-]; by right|].
    done.
Qed.

Lemma read_proc_throws_only_on_conversion_witness :
  is_ok (read_proc world_D 8).
Proof.
  apply (proj1 (read_proc_throws_only_on_conversion world_D 8)).
  intros line H. vm_compute in H. discriminate.
Defined.

Section Abort.

Variable std_sort :
  (ProcInfo -> ProcInfo -> bool) -> list ProcInfo -> list ProcInfo.
Variable page_sz : Z.

(** X11.  Nothing catches what [read_proc] throws: when one process
    listed in [/proc] has a [stat] line that makes a conversion fail,
    the iteration does not complete and the loop ends there, whatever
    the state, the key pressed and the other processes are. *)
Theorem malformed_stat_stops_monitor (w : World) (st : State)
    (ws : list World) (pids : list Z) (n : Z) (f : fault) :
  list_pids w = Ok pids -> n ∈ pids -> read_proc w n = Fault f ->
  (exists f', cycle std_sort page_sz w st = Fault f')
  /\ exists f', run std_sort page_sz st (w :: ws) = Fault f'.
Proof.
  intros Hpids Hn Hf.
  assert (Hc : exists f', cycle std_sort page_sz w st = Fault f').
  { apply not_ok_fault. intros [c Hc].
    apply cycle_Ok in Hc as (pids' & procs & Hpids' & Hloop & _).
    assert (pids' = pids) as -> by congruence.
    assert (Hok : is_ok (sample_loop w
                     (mkSample page_sz (read_total_jiffies w)
                        (prev_total_jiffies st) (read_mem_total_kb w))
                     pids [] (prev_proc_jiffies st))) by (by eexists).
    apply sample_loop_defined in Hok. rewrite Forall_forall in Hok.
    destruct (Hok n Hn) as (p & Hp & _). congruence. }
  split; [done|]. destruct Hc as [f' Hc]. exists f'.
  simpl. unfold step. by rewrite Hc.
Qed.

End Abort.

Lemma malformed_stat_stops_monitor_witness :
  exists f',
    run gnu_sort page (init world_A)
      [system 1200 8000000 ["7"]
         [(7, "7 (x) S 1 1 1 0 -1 4194304 120 0 0 0 ? 40 0 0 20 0 1 0 100 1000000 2000 5 1 1 0")]
         ERR] = Fault f'.
Proof.
  apply (malformed_stat_stops_monitor gnu_sort page _ (init world_A) []
           [7] 7 InvalidArgument).
  - reflexivity.
  - by left.
  - vm_compute. reflexivity.
Defined.

(** ** The screen: lines 165 to 182 *)

Lemma long_mul_Ok (a b r : Z) :
  long_mul a b = Ok r -> r = a * b /\ in_long (a * b) = true.
Proof.
  unfold long_mul. destruct (in_long (a * b)); [|done]. by intros [= <-].
Qed.

(** The rows that the loop of line 173 draws when it starts at index
    [i]: one for each of the next entries, as long as the index stays
    below both bounds. *)
Lemma render_rows_Ok (i max_display n h pg : Z) (ps : list ProcInfo)
    (rws : list Row) :
  render_rows i max_display n h pg ps = Ok rws ->
  rws = imap (fun j p => mkRow (4 + (i + Z.of_nat j)) p
                           (rss p * (pg ÷ 1024)) (i + Z.of_nat j =? h))
          (take (Z.to_nat (Z.min max_display n - i)) ps).
Proof.
  revert i rws. induction ps as [|p ps IH]; intros i rws; simpl.
  - intros [= <-]. by rewrite take_nil.
  - destruct (Z.ltb_spec i max_display) as [H1|H1];
      [destruct (Z.ltb_spec i n) as [H2|H2]|]; simpl.
    + intros H. apply bind_Ok in H as (kb & Hkb & H).
      apply bind_Ok in H as (y & Hy & H).
      apply bind_Ok in H as (i' & Hi' & H).
      apply bind_Ok in H as (rest & Hrest & [= <-]).
      apply long_mul_Ok in Hkb as [-> _].
      apply int_add_Ok in Hy as [-> _]. apply int_add_Ok in Hi' as [-> _].
      apply IH in Hrest as ->.
      replace (Z.to_nat (Z.min max_display n - i))
        with (S (Z.to_nat (Z.min max_display n - (i + 1)))) by lia.
      simpl. rewrite Z.add_0_r. f_equal.
      apply imap_ext. intros j q _. simpl.
      replace (i + 1 + Z.of_nat j) with (i + Z.of_nat (S j)) by lia. done.
    + intros [= <-].
      by replace (Z.to_nat (Z.min max_display n - i)) with 0%nat by lia.
    + intros [= <-].
      by replace (Z.to_nat (Z.min max_display n - i)) with 0%nat by lia.
Qed.

Lemma render_rows_defined (i max_display n h pg : Z) (ps : list ProcInfo) :
  0 <= i -> max_display <= INT_MAX - 5 ->
  (is_ok (render_rows i max_display n h pg ps)
   <-> Forall (fun p => in_long (rss p * (pg ÷ 1024)) = true)
         (take (Z.to_nat (Z.min max_display n - i)) ps)).
Proof.
  intros Hi Hmax. revert i Hi. induction ps as [|p ps IH]; intros i Hi; simpl.
  - rewrite take_nil. split; [by constructor|by eexists].
  - destruct (Z.ltb_spec i max_display) as [H1|H1];
      [destruct (Z.ltb_spec i n) as [H2|H2]|]; simpl.
    + replace (Z.to_nat (Z.min max_display n - i))
        with (S (Z.to_nat (Z.min max_display n - (i + 1)))) by lia.
      simpl. rewrite Forall_cons, <- (IH (i + 1)) by lia.
      unfold long_mul.
      rewrite (int_add_in_range 4 i), (int_add_in_range i 1)
        by (unfold INT_MIN, INT_MAX in *; lia).
      cbn [mbind result_bind].
      destruct (in_long (rss p * (pg ÷ 1024))); cbn [mbind result_bind].
      * split.
        -- intros [r Hr]. split; [done|].
           destruct (render_rows (i + 1) max_display n h pg ps);
             [by eexists|done].
        -- intros [_ [r Hr]]. rewrite Hr. by eexists.
      * split; [by intros [r Hr]|by intros [Hf _]].
    + replace (Z.to_nat (Z.min max_display n - i)) with 0%nat by lia.
      split; [by constructor|by eexists].
    + replace (Z.to_nat (Z.min max_display n - i)) with 0%nat by lia.
      split; [by constructor|by eexists].
Qed.

(** X12.  The screen shows a prefix of the ranked vector: its first
    [rows - 5] entries, or all of them when there are fewer, in order,
    entry [j] on line [4 + j] with its resident size as pages times
    kilobytes per page, in reverse video exactly when [j] is the
    highlighted index.  The header gives the number of all the
    processes, shown or not.  A terminal of five rows or fewer shows
    none, and neither does an empty vector. *)
Theorem render_shows_prefix (rows h iv pg total mem_total : Z)
    (procs : list ProcInfo) (scr : Screen) :
  render rows h iv pg total mem_total procs = Ok scr ->
  scr_rows scr
  = imap (fun j p => mkRow (4 + Z.of_nat j) p (rss p * (pg ÷ 1024))
                       (Z.of_nat j =? h))
      (take (Z.to_nat (Z.min (rows - 5) (size_int procs))) procs)
  /\ scr_nprocs scr = Z.of_nat (length procs)
  /\ scr_interval scr = iv
  /\ (Z.of_nat (length procs) <= INT_MAX ->
      row_proc <$> scr_rows scr = take (Z.to_nat (rows - 5)) procs)
  /\ (rows <= 5 \/ procs = [] -> scr_rows scr = []).
Proof.
  unfold render. intros H. apply bind_Ok in H as (md & Hmd & H).
  apply bind_Ok in H as (rws & Hrws & [= <-]). simpl.
  apply int_sub_Ok in Hmd as [-> _].
  apply render_rows_Ok in Hrws. rewrite Z.sub_0_r in Hrws.
  assert (Hrows : rws = imap (fun j p => mkRow (4 + Z.of_nat j) p
                                 (rss p * (pg ÷ 1024)) (Z.of_nat j =? h))
                    (take (Z.to_nat (Z.min (rows - 5) (size_int procs)))
                       procs)).
  { rewrite Hrws. by apply imap_ext. }
  split; [done|]. split; [done|]. split; [done|]. split.
  - intros Hlen. rewrite Hrows.
    assert (Hsz : size_int procs = Z.of_nat (length procs)).
    { unfold size_int. apply to_int_small. unfold INT_MAX in Hlen. lia. }
    rewrite Hsz.
    assert (Hproc : forall (l : list ProcInfo),
              row_proc <$> imap (fun j p => mkRow (4 + Z.of_nat j) p
                                   (rss p * (pg ÷ 1024)) (Z.of_nat j =? h)) l
              = l).
    { intros l. rewrite fmap_imap.
      rewrite (imap_ext _ (const id) l) by done.
      by rewrite imap_const, list_fmap_id. }
    rewrite Hproc.
    destruct (Z.le_ge_cases (rows - 5) (Z.of_nat (length procs))) as [Hle|Hge].
    + by rewrite Z.min_l.
    + rewrite Z.min_r, Nat2Z.id by lia.
      rewrite firstn_all. symmetry. apply take_ge. lia.
  - intros [Hr| ->]; rewrite Hrows.
    + by replace (Z.to_nat (Z.min (rows - 5) (size_int procs)))
        with 0%nat by lia.
    + by rewrite take_nil.
Qed.

Lemma render_shows_prefix_witness :
  exists scr,
    render 7 0 2 page 1000 8000000 idle17 = Ok scr
    /\ row_proc <$> scr_rows scr = take 2 idle17.
Proof.
  eexists.
  assert (H : render 7 0 2 page 1000 8000000 idle17 = Ok _)
    by (vm_compute; reflexivity).
  split; [exact H|].
  destruct (render_shows_prefix _ _ _ _ _ _ _ _ H) as (_ & _ & _ & Hp & _).
  apply Hp. vm_compute. discriminate.
Defined.

(** X13.  Drawing fails in one way only: the resident size of an entry
    that is shown, in pages, times the kilobytes per page, does not fit
    a [long].  Entries below the last line of the screen are not
    looked at. *)
Theorem render_defined (rows h iv pg total mem_total : Z)
    (procs : list ProcInfo) :
  0 <= rows <= INT_MAX ->
  (is_ok (render rows h iv pg total mem_total procs)
   <-> Forall (fun p => LONG_MIN <= rss p * (pg ÷ 1024) <= LONG_MAX)
         (take (Z.to_nat (Z.min (rows - 5) (size_int procs))) procs)).
Proof.
  intros Hrows. unfold render.
  rewrite int_sub_in_range by (unfold INT_MIN, INT_MAX in *; lia).
  cbn [mbind result_bind].
  pose proof (render_rows_defined 0 (rows - 5) (size_int procs) h pg procs
                ltac:(lia) ltac:(lia)) as Hd.
  rewrite Z.sub_0_r in Hd.
  assert (Hiff : Forall (fun p => in_long (rss p * (pg ÷ 1024)) = true)
                   (take (Z.to_nat (Z.min (rows - 5) (size_int procs))) procs)
                 <-> Forall (fun p => LONG_MIN <= rss p * (pg ÷ 1024)
                                      <= LONG_MAX)
                       (take (Z.to_nat (Z.min (rows - 5) (size_int procs)))
                          procs)).
  { apply Forall_iff. intros p. unfold in_long.
    rewrite andb_true_iff, !Z.leb_le. done. }
  rewrite <- Hiff, <- Hd.
  destruct (render_rows 0 (rows - 5) (size_int procs) h pg procs) as [r|f];
    cbn [mbind result_bind].
  - split; intros _; by eexists.
  - split; intros [? ?]; done.
Qed.

Lemma render_defined_witness :
  is_ok (render 24 0 2 page 1000 8000000 idle17).
Proof.
  apply (render_defined 24 0 2 page 1000 8000000 idle17).
  - unfold INT_MAX. lia.
  - apply (bool_decide_unpack _). vm_compute. exact I.
Defined.

(** ** The commands: lines 184 to 201 *)

Lemma controls_eta (c : Controls) :
  mkControls (highlight c) (interval_s c) (sortmode c) = c.
Proof. by destruct c. Qed.

Lemma on_sort_key_cases (ch : Z) (m : SortMode) :
  (ch = key "c" /\ on_sort_key ch m = BY_CPU)
  \/ (ch = key "m" /\ on_sort_key ch m = BY_MEM)
  \/ (ch = key "p" /\ on_sort_key ch m = BY_PID)
  \/ (ch <> key "c" /\ ch <> key "m" /\ ch <> key "p" /\ on_sort_key ch m = m).
Proof.
  unfold on_sort_key.
  destruct (Z.eqb_spec ch (key "p")) as [->|Hp]; [by right; right; left|].
  destruct (Z.eqb_spec ch (key "m")) as [->|Hm]; [by right; left|].
  destruct (Z.eqb_spec ch (key "c")) as [->|Hc]; [by left|].
  by right; right; right.
Qed.

(** X14.  Every key acts on its own variable only.  The cursor changes
    on the two arrow keys at most, the interval on [+] and [-], the sort
    key on [c], [m] and [p], and a signal is sent on [k] alone; a key
    that is none of these and not [q], and no key at all, leaves
    everything as it was. *)
Theorem key_changes_its_variable_only (w : World) (c : Controls)
    (procs : list ProcInfo) (c' : Controls) (k : option KillCall) :
  handle_key w c procs = Ok (Continue c' k) ->
  (highlight c' <> highlight c -> w_key w = KEY_UP \/ w_key w = KEY_DOWN)
  /\ (interval_s c' <> interval_s c -> w_key w = key "+" \/ w_key w = key "-")
  /\ (sortmode c' <> sortmode c ->
      w_key w = key "c" \/ w_key w = key "m" \/ w_key w = key "p")
  /\ (k <> None -> w_key w = key "k")
  /\ (w_key w ∉ [KEY_UP; KEY_DOWN; key "c"; key "m"; key "p"; key "+";
                 key "-"; key "k"] -> c' = c /\ k = None).
Proof.
  intros H. apply handle_key_Ok in H as [(_ & -> & ->)|H].
  { repeat split; done. }
  destruct H as (_ & _ & h1 & Hup & Hdown & Hsort & iv1 & Hplus & Hminus & Hkill).
  apply on_key_up_Ok in Hup. apply on_key_down_Ok in Hdown.
  apply on_plus_Ok in Hplus. apply on_minus_Ok in Hminus.
  assert (Hh : highlight c' <> highlight c ->
               w_key w = KEY_UP \/ w_key w = KEY_DOWN).
  { intros Hne. destruct Hup as [[-> _]|[_ ->]]; [by left|].
    destruct Hdown as [[-> _]|[_ E]]; [by right|]. by destruct Hne. }
  assert (Hi : interval_s c' <> interval_s c ->
               w_key w = key "+" \/ w_key w = key "-").
  { intros Hne. destruct Hplus as [[-> _]|[_ ->]]; [by left|].
    destruct Hminus as [[-> _]|[_ E]]; [by right|]. by destruct Hne. }
  assert (Hs : sortmode c' <> sortmode c ->
               w_key w = key "c" \/ w_key w = key "m" \/ w_key w = key "p").
  { intros Hne. rewrite Hsort in Hne.
    destruct (on_sort_key_cases (w_key w) (sortmode c))
      as [[-> _]|[[-> _]|[[-> _]|(_ & _ & _ & E)]]]; auto.
    by destruct Hne. }
  assert (Hk : k <> None -> w_key w = key "k").
  { intros Hne.
    destruct (on_kill_cases w (w_key w) (highlight c') procs)
      as [[E _]|(E & _)]; [|done].
    rewrite E in Hkill. injection Hkill as <-. by destruct Hne. }
  split; [done|]. split; [done|]. split; [done|]. split; [done|].
  intros Hnot.
  assert (Hnone : k = None).
  { destruct k; [|done]. exfalso. apply Hnot.
    rewrite Hk by done. repeat constructor. }
  split; [|done].
  destruct (decide (highlight c' = highlight c)) as [E1|E1].
  2:{ exfalso. apply Hnot. destruct (Hh E1) as [->| ->]; repeat constructor. }
  destruct (decide (interval_s c' = interval_s c)) as [E2|E2].
  2:{ exfalso. apply Hnot. destruct (Hi E2) as [->| ->]; repeat constructor. }
  assert (E3 : sortmode c' = sortmode c).
  { rewrite Hsort.
    destruct (on_sort_key_cases (w_key w) (sortmode c))
      as [[E _]|[[E _]|[[E _]|(_ & _ & _ & E)]]]; [| | |done];
      exfalso; apply Hnot; rewrite E; repeat constructor. }
  rewrite <- (controls_eta c'), <- (controls_eta c). congruence.
Qed.

Lemma key_changes_its_variable_only_witness :
  w_key (idle_world 3 (key "p")) = key "c"
  \/ w_key (idle_world 3 (key "p")) = key "m"
  \/ w_key (idle_world 3 (key "p")) = key "p".
Proof.
  destruct (key_changes_its_variable_only (idle_world 3 (key "p"))
              (mkControls 0 2 BY_CPU) [] (mkControls 0 2 BY_PID) None)
    as (_ & _ & H & _); [reflexivity|].
  apply H. discriminate.
Defined.

(** X15.  The sort keys cannot fail and touch nothing but the sort key:
    [c], [m] and [p] select CPU, memory and pid order whatever the state
    and the vector are, and send no signal. *)
Theorem sort_key_sets_mode (w : World) (c : Controls) (procs : list ProcInfo)
    (m : SortMode) :
  w_key w = key (match m with BY_CPU => "c" | BY_MEM => "m" | BY_PID => "p" end)
  ->
  handle_key w c procs
  = Ok (Continue (mkControls (highlight c) (interval_s c) m) None).
Proof.
  intros Hk. unfold handle_key. rewrite Hk. by destruct m.
Qed.

Lemma sort_key_sets_mode_witness :
  handle_key (idle_world 3 (key "m")) (mkControls 0 2 BY_CPU) []
  = Ok (Continue (mkControls 0 2 BY_MEM) None).
Proof.
  apply (sort_key_sets_mode (idle_world 3 (key "m")) (mkControls 0 2 BY_CPU)
           [] BY_MEM).
  reflexivity.
Defined.

Section Quit.

Variable std_sort :
  (ProcInfo -> ProcInfo -> bool) -> list ProcInfo -> list ProcInfo.
Variable page_sz : Z.

(** X16.  The loop is left on [q] and on nothing else: the command
    handler asks for it exactly when the key is [q], and a run whose
    iteration completes with that key ends there, the views of the
    system that follow being never looked at. *)
Theorem quit_leaves_loop (w : World) (st : State) (ws : list World) :
  (forall procs,
     handle_key w (controls st) procs = Ok Break <-> w_key w = key "q")
  /\ (is_ok (cycle std_sort page_sz w st) -> w_key w = key "q" ->
      run std_sort page_sz st (w :: ws) = Ok None)
  /\ (forall st', run std_sort page_sz st (w :: ws) = Ok (Some st') ->
        w_key w <> key "q").
Proof.
  assert (Hq : forall procs,
            handle_key w (controls st) procs = Ok Break
            <-> w_key w = key "q").
  { intros procs. unfold handle_key.
    destruct (Z.eqb_spec (w_key w) ERR) as [He|He].
    { split; [done|]. intros Hk. rewrite Hk in He. done. }
    destruct (Z.eqb_spec (w_key w) (key "q")) as [Hk|Hk]; [done|].
    split; [|done]. intros H. exfalso.
    destruct (on_key_up _ _) as [h|]; [|done]. cbn [mbind result_bind] in H.
    destruct (on_key_down _ _ _) as [h'|]; [|done].
    cbn [mbind result_bind] in H.
    destruct (on_plus _ _) as [iv|]; [|done]. cbn [mbind result_bind] in H.
    destruct (on_minus _ _) as [iv'|]; [|done]. cbn [mbind result_bind] in H.
    destruct (on_kill _ _ _ _) as [k|]; [|done]. done. }
  split; [done|]. split.
  - intros [c Hc] Hk. simpl. unfold step. rewrite Hc. cbn [mbind result_bind].
    apply cycle_Ok in Hc as (_ & _ & _ & _ & _ & _ & Hkey & _).
    unfold handle_key in Hkey. rewrite Hk in Hkey. simpl in Hkey.
    injection Hkey as Hkey. unfold next_state. by rewrite <- Hkey.
  - intros st' Hrun Hk. simpl in Hrun.
    apply bind_Ok in Hrun as (r & Hstep & Hrun).
    unfold step in Hstep. apply bind_Ok in Hstep as (c & Hc & [= <-]).
    apply cycle_Ok in Hc as (_ & _ & _ & _ & _ & _ & Hkey & _).
    apply (Hq (cy_procs c)) in Hk. rewrite Hk in Hkey.
    injection Hkey as Hkey.
    unfold next_state in Hrun. by rewrite <- Hkey in Hrun.
Qed.

End Quit.

Lemma quit_leaves_loop_witness :
  run gnu_sort page (init world_A) [idle_world 3 (key "q"); world_B] = Ok None.
Proof.
  apply (quit_leaves_loop gnu_sort page (idle_world 3 (key "q"))
           (init world_A) [world_B]).
  - eexists. vm_compute. reflexivity.
  - reflexivity.
Defined.

(** ** From one iteration to the next *)

Lemma derive_proc_jiffies (s : Sample) (m : gmap Z Z) (p p' : ProcInfo)
    (m' : gmap Z Z) :
  derive_proc s m p = Ok (p', m') ->
  pid p' = pid p /\ cur_jiffies p' = cur_jiffies p.
Proof. intros H. by apply derive_proc_Ok in H as (x & _ & -> & _). Qed.

(** The value that the sampling loop leaves in the map for a pid it has
    seen is the tick count of the process as [read_proc] returns it. *)
Lemma sample_loop_records (w : World) (s : Sample) (pids : list Z)
    (m : gmap Z Z) (procs : list ProcInfo) (m' : gmap Z Z) (n : Z) :
  sample_loop w s pids [] m = Ok (procs, m') -> n ∈ pids ->
  exists q, read_proc w n = Ok q /\ m' !! n = Some (cur_jiffies q).
Proof.
  intros Hloop Hn.
  destruct (sample_loop_map _ _ _ _ _ _ Hloop) as [Hin _].
  destruct (Hin n Hn) as (p & Hp & Hpid & Hm).
  pose proof (sample_loop_entries _ _ _ _ _ _ Hloop) as He.
  rewrite Forall_forall in He.
  destruct (He p Hp) as (q & seen & rest & m0 & m1 & _ & Hq & Hd & _).
  apply derive_proc_jiffies in Hd as [_ Hc].
  exists q. subst n. split; [done|]. by rewrite <- Hc.
Qed.

(** The percentage of an entry, from what the map held for its pid when
    the loop began: every pid occurs once in the directory. *)
Lemma sample_loop_cpu (w : World) (s : Sample) (pids : list Z)
    (m : gmap Z Z) (procs : list ProcInfo) (m' : gmap Z Z) (p : ProcInfo) :
  NoDup pids ->
  sample_loop w s pids [] m = Ok (procs, m') -> p ∈ procs ->
  exists q, read_proc w (pid p) = Ok q
    /\ cpu_percent p
       = cpu_pct (proc_delta (cur_jiffies q) (prev_of m (pid p)))
           (total_delta_of (total_jiffies s) (prev_total s)).
Proof.
  intros Hnd Hloop Hp.
  pose proof (sample_loop_entries _ _ _ _ _ _ Hloop) as He.
  rewrite Forall_forall in He.
  destruct (He p Hp) as (q & seen & rest & m0 & m1 & Hpids & Hq & Hd & Hm0).
  exists q. split; [done|].
  apply derive_proc_Ok in Hd as (x & _ & -> & _). simpl in *.
  assert (Hns : pid q ∉ seen).
  { rewrite Hpids in Hnd.
    apply NoDup_app in Hnd as (_ & Hnd & _). intros Hin.
    apply (Hnd _ Hin). by left. }
  unfold prev_of. by rewrite (Hm0 _ Hns).
Qed.

Section Successive.

Variable std_sort :
  (ProcInfo -> ProcInfo -> bool) -> list ProcInfo -> list ProcInfo.
Variable page_sz : Z.

Lemma run_snoc (st0 st st' : State) (ws : list World) (w : World) :
  run std_sort page_sz st0 ws = Ok (Some st) ->
  step std_sort page_sz w st = Ok (Some st') ->
  run std_sort page_sz st0 (ws ++ [w]) = Ok (Some st').
Proof.
  revert st0. induction ws as [|w1 ws IH]; intros st0 Hrun Hstep; simpl in *.
  - injection Hrun as ->. by rewrite Hstep.
  - destruct (step std_sort page_sz w1 st0) as [[st1|]|]; simpl in *; try done.
    by apply IH.
Qed.

Lemma reachable_step (w : World) (st st' : State) :
  reachable std_sort page_sz st ->
  step std_sort page_sz w st = Ok (Some st') ->
  reachable std_sort page_sz st'.
Proof.
  intros (w0 & ws & Hrun) Hstep. exists w0, (ws ++ [w]).
  by apply run_snoc with st.
Qed.

(** What an iteration displays is what it sampled, rearranged. *)
Lemma cycle_sampled (w : World) (st : State) (c : Cycle) :
  sort_contract std_sort ->
  reachable std_sort page_sz st ->
  cycle std_sort page_sz w st = Ok c ->
  exists pids procs,
    list_pids w = Ok pids
    /\ sample_loop w
         (mkSample page_sz (read_total_jiffies w) (prev_total_jiffies st)
            (read_mem_total_kb w))
         pids [] (prev_proc_jiffies st) = Ok (procs, cy_prev_procs c)
    /\ cy_procs c ≡ₚ procs.
Proof.
  intros Hsort Hreach Hc.
  destruct (reachable_state_ok std_sort page_sz st Hreach) as [Hpt Hm].
  apply cycle_Ok in Hc as (pids & procs & Hpids & Hloop & -> & _).
  exists pids, procs. split; [done|]. split; [done|].
  apply sample_loop_numeric in Hloop as [Hn _]; simpl; try done;
    try apply wrap64_range; try lia.
  unfold rank.
  by destruct (Hsort (comparator (sortmode (controls st))) procs
                 (swo_comparator _ procs Hn)).
Qed.

Lemma step_sortmode (w : World) (st st' : State) :
  step std_sort page_sz w st = Ok (Some st') ->
  sortmode (controls st') = on_sort_key (w_key w) (sortmode (controls st)).
Proof.
  intros Hstep. apply step_Ok in Hstep as (c & k & Hc & Hnext & _).
  apply cycle_Ok in Hc as (_ & _ & _ & _ & _ & _ & Hkey & _).
  rewrite Hnext in Hkey.
  apply handle_key_Ok in Hkey as [(He & -> & _)|H].
  - rewrite He. reflexivity.
  - by destruct H as (_ & _ & _ & _ & _ & Hs & _).
Qed.

(** X17.  A sort command takes effect with the next display.  The
    vector an iteration shows is ordered by the sort key held when the
    iteration began; the key pressed at its end decides the order of
    the vector that the following iteration shows, which is again a
    rearrangement of all the pids of [/proc], ordered by that key. *)
Theorem sort_command_orders_next_display (w w' : World) (st st' : State)
    (c c' : Cycle) :
  sort_contract std_sort ->
  reachable std_sort page_sz st ->
  cycle std_sort page_sz w st = Ok c ->
  step std_sort page_sz w st = Ok (Some st') ->
  cycle std_sort page_sz w' st' = Ok c' ->
  StronglySorted (ranked (sortmode (controls st))) (cy_procs c)
  /\ StronglySorted
       (ranked (on_sort_key (w_key w) (sortmode (controls st))))
       (cy_procs c')
  /\ exists pids', list_pids w' = Ok pids' /\ pid <$> cy_procs c' ≡ₚ pids'.
Proof.
  intros Hsort Hreach Hc Hstep Hc'.
  pose proof (reachable_step _ _ _ Hreach Hstep) as Hreach'.
  destruct (cycle_ranked std_sort page_sz w st c Hsort Hreach Hc)
    as (_ & _ & _ & Hs).
  destruct (cycle_ranked std_sort page_sz w' st' c' Hsort Hreach' Hc')
    as (pids' & Hp' & Hperm' & Hs').
  rewrite (step_sortmode _ _ _ Hstep) in Hs'.
  split; [done|]. split; [done|]. by exists pids'.
Qed.

(** X18.  The CPU percentage of a process seen in two successive
    iterations is computed from the ticks it used between the two reads
    of its [stat] file, over the ticks of the whole system between the
    two reads of [/proc/stat]; both differences count as zero when the
    later value is the smaller. *)
Theorem cpu_over_one_interval (w1 w2 : World) (st st1 : State) (c2 : Cycle)
    (pids1 pids2 : list Z) (p : ProcInfo) :
  sort_contract std_sort ->
  reachable std_sort page_sz st ->
  step std_sort page_sz w1 st = Ok (Some st1) ->
  cycle std_sort page_sz w2 st1 = Ok c2 ->
  list_pids w1 = Ok pids1 -> list_pids w2 = Ok pids2 -> NoDup pids2 ->
  p ∈ cy_procs c2 -> pid p ∈ pids1 ->
  exists q1 q2,
    read_proc w1 (pid p) = Ok q1 /\ read_proc w2 (pid p) = Ok q2
    /\ cpu_percent p
       = cpu_pct (proc_delta (cur_jiffies q2) (cur_jiffies q1))
           (total_delta_of (read_total_jiffies w2) (read_total_jiffies w1)).
Proof.
  intros Hsort Hreach Hstep Hc2 Hp1 Hp2 Hnd Hp Hin1.
  pose proof (reachable_step _ _ _ Hreach Hstep) as Hreach1.
  apply step_Ok in Hstep as (c1 & k & Hc1 & _ & Ht & Hm).
  apply cycle_Ok in Hc1
    as (pids1' & procs1 & Hp1' & Hloop1 & _ & _ & _ & Htot).
  assert (pids1' = pids1) as -> by congruence.
  destruct (sample_loop_records _ _ _ _ _ _ _ Hloop1 Hin1)
    as (q1 & Hq1 & Hrec).
  destruct (cycle_sampled w2 st1 c2 Hsort Hreach1 Hc2)
    as (pids2' & procs2 & Hp2' & Hloop2 & Hperm).
  assert (pids2' = pids2) as -> by congruence.
  rewrite Hperm in Hp.
  destruct (sample_loop_cpu _ _ _ _ _ _ p Hnd Hloop2 Hp) as (q2 & Hq2 & Hcpu).
  exists q1, q2. split; [done|]. split; [done|].
  rewrite Hcpu. simpl. unfold prev_of. rewrite Hm, Hrec, Ht, Htot. done.
Qed.

End Successive.

Lemma sort_command_orders_next_display_witness :
  exists c',
    cycle (@straight_insertion ProcInfo) page world_B
      (mkState (mkControls 0 2 BY_PID) (read_total_jiffies world_A)
         {[7 := 100]}) = Ok c'
    /\ StronglySorted (ranked BY_PID) (cy_procs c').
Proof.
  set (w := system 1000 8000000 ["7"]
              [(7, stat_line 7 "work" 60 40 1000000 2000)] (key "p")).
  assert (Hc : exists c, cycle (@straight_insertion ProcInfo) page w
                           (init world_A) = Ok c)
    by (eexists; vm_compute; reflexivity).
  destruct Hc as [c Hc].
  assert (Hstep : step (@straight_insertion ProcInfo) page w (init world_A)
                  = Ok (Some (mkState (mkControls 0 2 BY_PID)
                                (read_total_jiffies world_A) {[7 := 100]})))
    by (vm_compute; reflexivity).
  assert (Hc' : exists c', cycle (@straight_insertion ProcInfo) page world_B
                  (mkState (mkControls 0 2 BY_PID)
                     (read_total_jiffies world_A) {[7 := 100]}) = Ok c')
    by (eexists; vm_compute; reflexivity).
  destruct Hc' as [c' Hc']. exists c'. split; [done|].
  destruct (sort_command_orders_next_display
              (@straight_insertion ProcInfo) page w world_B (init world_A) _
              c c' straight_insertion_contract
              ltac:(by exists world_A, []) Hc Hstep Hc')
    as (_ & Hs & _).
  exact Hs.
Defined.

Lemma cpu_over_one_interval_witness :
  exists c2 p,
    cycle (@straight_insertion ProcInfo) page world_B
      (mkState (mkControls 0 2 BY_CPU) (read_total_jiffies world_A)
         {[7 := 100]}) = Ok c2
    /\ cy_procs c2 = [p]
    /\ exists q1 q2,
         read_proc world_A (pid p) = Ok q1 /\ read_proc world_B (pid p) = Ok q2
         /\ cpu_percent p
            = cpu_pct (proc_delta (cur_jiffies q2) (cur_jiffies q1))
                (total_delta_of (read_total_jiffies world_B)
                   (read_total_jiffies world_A)).
Proof.
  assert (Hc : exists c2 p,
            cycle (@straight_insertion ProcInfo) page world_B
              (mkState (mkControls 0 2 BY_CPU) (read_total_jiffies world_A)
                 {[7 := 100]}) = Ok c2
            /\ cy_procs c2 = [p] /\ pid p = 7).
  { eexists _, _. split; [vm_compute; reflexivity|].
    split; reflexivity. }
  destruct Hc as (c2 & p & Hc2 & Hprocs & Hpid).
  exists c2, p. split; [done|]. split; [done|].
  apply (cpu_over_one_interval (@straight_insertion ProcInfo) page
           world_A world_B (init world_A)
           (mkState (mkControls 0 2 BY_CPU) (read_total_jiffies world_A)
              {[7 := 100]}) c2 [7] [7] p).
  - exact straight_insertion_contract.
  - by exists world_A, [].
  - vm_compute. reflexivity.
  - exact Hc2.
  - reflexivity.
  - reflexivity.
  - apply NoDup_singleton.
  - rewrite Hprocs. by left.
  - rewrite Hpid. by left.
Defined.

(** ** The CPU percentage as a function of the ticks *)

(** X19.  With the ticks of the system fixed, the CPU percentage is
    linear in the ticks of the process: twice the ticks give exactly
    twice the percentage, rounding included.  No ticks give [0.0]. *)
Theorem cpu_percent_linear (delta total_delta : Z) :
  0 <= delta < 2 ^ 63 -> 0 < total_delta < 2 ^ 64 ->
  cpu_pct (2 * delta) total_delta = mul two (cpu_pct delta total_delta)
  /\ cpu_pct 0 total_delta = zero.
Proof.
  intros Hd Ht. split; [|apply cpu_pct_zero_delta; lia].
  unfold cpu_pct.
  destruct (Z.ltb_spec 0 total_delta) as [_|?]; [|lia].
  destruct (of_Z_normal total_delta ltac:(lia) ltac:(lia))
    as (mt & et & Et & Hmt & Het).
  replace (total_delta <? 0) with false in Et
    by (symmetry; apply Z.ltb_ge; lia).
  destruct (decide (delta = 0)) as [->|Hnz].
  { rewrite Et. reflexivity. }
  rewrite of_Z_twice by lia.
  destruct (of_Z_normal delta ltac:(lia) Hnz) as (m0 & e0 & E0 & Hm0 & He0).
  rewrite E0, Et.
  destruct (mul_normal false (delta <? 0) 7036874417766400 m0
              (-46) e0 ltac:(done) Hm0 ltac:(lia) ltac:(lia))
    as (m2 & e2 & E2 & Hm2 & He2).
  fold d100 in E2.
  assert (E2' : mul d100 (twice (S754_finite (delta <? 0) m0 e0))
                = S754_finite (xorb false (delta <? 0)) m2 (e2 + 1)).
  { unfold d100. rewrite mul_twice; [|done|lia|].
    - fold d100. by rewrite E2.
    - intros s m e [= <- <- <-]. split; [|lia].
      assert (2 ^ 53 < 2 ^ 64) by done. lia. }
  rewrite E2, E2'.
  destruct (div_normal (xorb false (delta <? 0)) false
              m2 mt e2 et Hm2 Hmt ltac:(lia) ltac:(lia))
    as (m3 & e3 & E3 & E3' & Hm3 & He3).
  rewrite E3, E3'. symmetry. apply mul_two; [done|lia].
Qed.

Lemma cpu_percent_linear_witness :
  cpu_pct 100 200 = mul two (cpu_pct 50 200).
Proof.
  apply (cpu_percent_linear 50 200); lia.
Defined.

(** ** The cursor, the screen and the signal *)

Lemma render_Ok (rows h iv pg total mem_total : Z) (procs : list ProcInfo)
    (scr : Screen) :
  render rows h iv pg total mem_total procs = Ok scr ->
  scr_rows scr
  = imap (fun j p => mkRow (4 + (0 + Z.of_nat j)) p (rss p * (pg ÷ 1024))
                       (0 + Z.of_nat j =? h))
      (take (Z.to_nat (Z.min (rows - 5) (size_int procs) - 0)) procs).
Proof.
  unfold render. intros H. apply bind_Ok in H as (md & Hmd & H).
  apply bind_Ok in H as (rws & Hrws & [= <-]). simpl.
  apply int_sub_Ok in Hmd as [-> _]. by apply render_rows_Ok in Hrws.
Qed.

Section Signal.

Variable std_sort :
  (ProcInfo -> ProcInfo -> bool) -> list ProcInfo -> list ProcInfo.
Variable page_sz : Z.

(** X20.  The process that [k] signals is the entry at the highlighted
    index of the vector just drawn.  Any row drawn in reverse video is
    that entry.  But the cursor is not kept inside the window: when the
    index is [rows - 5] or more the entry lies below the last line, no
    row is in reverse video, and the signal goes to a process that is
    not on the screen. *)
Theorem kill_hits_highlighted_entry (w : World) (st : State) (c : Cycle)
    (ctl : Controls) (call : KillCall) :
  cycle std_sort page_sz w st = Ok c ->
  cy_next c = Continue ctl (Some call) ->
  let h := highlight (controls st) in
  (exists p, cy_procs c !! Z.to_nat h = Some p /\ kill_pid call = pid p
             /\ 0 <= h)
  /\ (forall r, r ∈ scr_rows (cy_screen c) -> row_reverse r = true ->
        cy_procs c !! Z.to_nat h = Some (row_proc r)
        /\ pid (row_proc r) = kill_pid call)
  /\ (h < w_rows w - 5 ->
      exists r, r ∈ scr_rows (cy_screen c) /\ row_reverse r = true
                /\ pid (row_proc r) = kill_pid call)
  /\ (w_rows w - 5 <= h ->
      Forall (fun r => row_reverse r = false) (scr_rows (cy_screen c))).
Proof.
  intros Hc Hnext h.
  apply cycle_Ok in Hc as (_ & _ & _ & _ & _ & Hrender & Hkey & _).
  fold h in Hrender. apply render_Ok in Hrender.
  rewrite Hnext in Hkey.
  apply handle_key_Ok in Hkey as [(_ & _ & [=])|H].
  destruct H as (_ & _ & h1 & Hup & Hdown & _ & _ & _ & _ & Hkill).
  destruct (on_kill_cases w (w_key w) (highlight ctl) (cy_procs c))
    as [[E _]|(Ek & Hh & p & Hp & E)]; rewrite E in Hkill; [done|].
  injection Hkill as <-.
  apply on_key_up_Ok in Hup as [[Hu _]|[_ ->]];
    [by rewrite Ek in Hu|].
  apply on_key_down_Ok in Hdown as [[Hd _]|[_ Hd]];
    [by rewrite Ek in Hd|].
  fold h in Hd. rewrite Hd in Hh, Hp. clear Hd.
  pose proof (size_int_le (cy_procs c)) as Hsz.
  set (N := Z.to_nat (Z.min (w_rows w - 5) (size_int (cy_procs c)) - 0)) in *.
  split; [|split; [|split]].
  - exists p. split; [done|]. split; [done|lia].
  - intros r Hr Hrev. rewrite Hrender in Hr.
    apply elem_of_lookup_imap in Hr as (j & y & -> & Hy). simpl in *.
    apply Z.eqb_eq in Hrev.
    apply lookup_take_Some in Hy as [Hy _].
    replace j with (Z.to_nat h) in Hy by lia. split; [done|]. congruence.
  - intros Hvis. exists (mkRow (4 + (0 + Z.of_nat (Z.to_nat h))) p
                           (rss p * (page_sz ÷ 1024))
                           (0 + Z.of_nat (Z.to_nat h) =? h)).
    split; [|split; [simpl; apply Z.eqb_eq; lia|done]].
    rewrite Hrender. apply elem_of_lookup_imap. exists (Z.to_nat h), p.
    split; [done|]. apply lookup_take_Some. split; [done|]. unfold N. lia.
  - intros Hinv. rewrite Hrender. apply Forall_forall. intros r Hr.
    apply elem_of_lookup_imap in Hr as (j & y & -> & Hy). simpl.
    apply lookup_take_Some in Hy as [_ Hj]. apply Z.eqb_neq.
    unfold N in Hj. lia.
Qed.

End Signal.

Lemma kill_hits_highlighted_entry_witness :
  exists c ctl call,
    cycle gnu_sort page (idle_world 3 (key "k"))
      (mkState (mkControls 1 2 BY_PID) 1000 ∅) = Ok c
    /\ cy_next c = Continue ctl (Some call)
    /\ exists p, cy_procs c !! 1%nat = Some p /\ kill_pid call = pid p.
Proof.
  eexists _, _, _.
  assert (Hc : cycle gnu_sort page (idle_world 3 (key "k"))
                 (mkState (mkControls 1 2 BY_PID) 1000 ∅) = Ok _)
    by (vm_compute; reflexivity).
  split; [exact Hc|].
  split; [reflexivity|].
  destruct (kill_hits_highlighted_entry gnu_sort page _ _ _ _ _ Hc eq_refl)
    as ((p & Hp & Hk & _) & _).
  exists p. by split.
Defined.

(** ** When an iteration completes *)

Lemma handle_key_defined (w : World) (c : Controls) (procs : list ProcInfo) :
  INT_MIN < highlight c < INT_MAX -> INT_MIN < interval_s c < INT_MAX ->
  INT_MIN < size_int procs ->
  is_ok (handle_key w c procs).
Proof.
  intros Hh Hi Hn. unfold handle_key.
  destruct (w_key w =? ERR); [by eexists|].
  destruct (w_key w =? key "q"); [by eexists|].
  assert (Hsz : size_int procs <= INT_MAX).
  { unfold size_int, to_int, INT_MAX.
    pose proof (Z.mod_pos_bound (Z.of_nat (length procs) + 2 ^ 31) (2 ^ 32)
                  ltac:(done)). lia. }
  assert (Hup : exists h1, on_key_up (w_key w) (highlight c) = Ok h1
                           /\ INT_MIN < h1 < INT_MAX).
  { unfold on_key_up. destruct (w_key w =? KEY_UP).
    - rewrite int_sub_in_range by lia. eexists. split; [done|].
      unfold INT_MIN, INT_MAX in *. lia.
    - by eexists. }
  destruct Hup as (h1 & -> & Hh1). cbn [mbind result_bind].
  assert (Hdown : exists h2, on_key_down (w_key w) h1 procs = Ok h2).
  { unfold on_key_down. destruct (w_key w =? KEY_DOWN); [|by eexists].
    rewrite int_sub_in_range, int_add_in_range by lia. by eexists. }
  destruct Hdown as (h2 & ->). cbn [mbind result_bind].
  assert (Hplus : exists iv1, on_plus (w_key w) (interval_s c) = Ok iv1
                              /\ INT_MIN < iv1 < INT_MAX).
  { unfold on_plus. destruct (w_key w =? key "+").
    - rewrite int_sub_in_range by lia. eexists. split; [done|].
      unfold INT_MIN, INT_MAX in *. lia.
    - by eexists. }
  destruct Hplus as (iv1 & -> & Hiv1). cbn [mbind result_bind].
  assert (Hminus : exists iv2, on_minus (w_key w) iv1 = Ok iv2).
  { unfold on_minus. destruct (w_key w =? key "-"); [|by eexists].
    rewrite int_add_in_range by lia. by eexists. }
  destruct Hminus as (iv2 & ->). cbn [mbind result_bind].
  destruct (on_kill_cases w (w_key w) h2 procs) as [[-> _]|(_ & _ & p & _ & ->)];
    by eexists.
Qed.

Section Safety.

Variable std_sort :
  (ProcInfo -> ProcInfo -> bool) -> list ProcInfo -> list ProcInfo.
Variable page_sz : Z.

(** X21.  An iteration completes, with no exception thrown and no
    arithmetic outside its type, when the library sort keeps its
    contract, the carried values are unsigned, every process listed in
    [/proc] can be read and its resident size in bytes fits a [long],
    there are fewer than [2 ^ 31] of them, the screen has a row count
    that is an [int] and not negative, and the cursor and the interval
    are not at a limit of [int]. *)
Theorem cycle_completes (w : World) (st : State) (pids : list Z) :
  sort_contract std_sort ->
  state_ok st ->
  list_pids w = Ok pids ->
  Forall (fun n => exists p,
            read_proc w n = Ok p
            /\ LONG_MIN <= rss p * page_sz <= LONG_MAX
            /\ LONG_MIN <= rss p * (page_sz ÷ 1024) <= LONG_MAX) pids ->
  Z.of_nat (length pids) <= INT_MAX ->
  0 <= w_rows w <= INT_MAX ->
  INT_MIN < highlight (controls st) < INT_MAX ->
  INT_MIN < interval_s (controls st) < INT_MAX ->
  exists c,
    cycle std_sort page_sz w st = Ok c
    /\ pid <$> cy_procs c ≡ₚ pids
    /\ cy_prev_total c = read_total_jiffies w.
Proof.
  intros Hsort [Hpt Hm] Hpids Hall Hlen Hrows Hh Hi.
  set (s := mkSample page_sz (read_total_jiffies w) (prev_total_jiffies st)
              (read_mem_total_kb w)).
  assert (Hdef : Forall (sample_defined w s) pids).
  { rewrite Forall_forall in Hall. apply Forall_forall. intros n Hn.
    destruct (Hall n Hn) as (p & Hp & Hb & _). exists p. split; [done|].
    unfold mem_pct. simpl. destruct (0 <? read_mem_total_kb w); [|by eexists].
    rewrite long_mul_in_range by (unfold LONG_MIN, LONG_MAX in Hb; lia).
    by eexists. }
  apply (sample_loop_defined w s pids [] (prev_proc_jiffies st)) in Hdef
    as [[procs m'] Hloop].
  pose proof (sample_loop_pids _ _ _ _ _ _ Hloop) as Hp.
  pose proof (sample_loop_entries _ _ _ _ _ _ Hloop) as He.
  assert (Hn : Forall numeric procs).
  { apply sample_loop_numeric in Hloop as [Hn _]; try done; unfold s; simpl.
    - lia.
    - apply wrap64_range.
    - apply wrap64_range. }
  destruct (Hsort (comparator (sortmode (controls st))) procs
              (swo_comparator _ procs Hn)) as [Hperm _].
  fold (rank std_sort (sortmode (controls st)) procs) in Hperm.
  set (ranked_procs := rank std_sort (sortmode (controls st)) procs) in *.
  assert (Hlen' : length ranked_procs = length pids).
  { by rewrite Hperm, <- Hp, length_fmap. }
  assert (Hsz : size_int ranked_procs = Z.of_nat (length pids)).
  { unfold size_int. rewrite Hlen'. apply to_int_small.
    unfold INT_MAX in Hlen. lia. }
  assert (Hfit : Forall (fun p => in_long (rss p * (page_sz ÷ 1024)) = true)
                   ranked_procs).
  { rewrite Hperm. rewrite Forall_forall in He. rewrite Forall_forall in Hall.
    apply Forall_forall. intros p' Hp'.
    destruct (He p' Hp') as (q & seen & rest & m0 & m1 & Hsplit & Hq & Hd & _).
    apply derive_proc_Ok in Hd as (x & _ & -> & _). simpl in *.
    assert (Hin : pid q ∈ pids).
    { rewrite Hsplit. apply elem_of_app. right. by left. }
    destruct (Hall _ Hin) as (q' & Hq' & _ & Hkb).
    assert (q' = q) as -> by congruence.
    apply in_long_range. unfold LONG_MIN, LONG_MAX in Hkb. lia. }
  assert (Hrender : is_ok (render (w_rows w) (highlight (controls st))
                             (interval_s (controls st)) page_sz
                             (read_total_jiffies w) (read_mem_total_kb w)
                             ranked_procs)).
  { unfold render.
    rewrite int_sub_in_range by (unfold INT_MIN, INT_MAX in *; lia).
    cbn [mbind result_bind].
    destruct (proj2 (render_rows_defined 0 (w_rows w - 5)
                       (size_int ranked_procs) (highlight (controls st))
                       page_sz ranked_procs ltac:(lia) ltac:(lia)))
      as [rws Hrws].
    { by apply Forall_take. }
    rewrite Hrws. by eexists. }
  destruct Hrender as [scr Hscr].
  destruct (handle_key_defined w (controls st) ranked_procs Hh Hi)
    as [nx Hnx].
  { rewrite Hsz. unfold INT_MIN. lia. }
  exists (mkCycle ranked_procs scr nx (read_total_jiffies w) m').
  split; [|split; [|done]].
  - unfold cycle. rewrite Hpids. cbn [mbind result_bind].
    fold s. rewrite Hloop. cbn [mbind result_bind].
    fold ranked_procs. rewrite Hscr. cbn [mbind result_bind].
    by rewrite Hnx.
  - simpl. by rewrite Hperm, Hp.
Qed.

End Safety.

Lemma cycle_completes_witness :
  exists c,
    cycle (@straight_insertion ProcInfo) page world_B (init world_A) = Ok c
    /\ pid <$> cy_procs c ≡ₚ [7]
    /\ cy_prev_total c = read_total_jiffies world_B.
Proof.
  apply (cycle_completes (@straight_insertion ProcInfo) page world_B
           (init world_A) [7]).
  - exact straight_insertion_contract.
  - split; [vm_compute; split; [discriminate|reflexivity]|].
    apply map_Forall_empty.
  - reflexivity.
  - constructor; [|constructor]. eexists. split; [vm_compute; reflexivity|].
    simpl. vm_compute. repeat split; discriminate.
  - simpl. unfold INT_MAX. lia.
  - vm_compute. split; discriminate.
  - vm_compute. split; reflexivity.
  - vm_compute. split; reflexivity.
Defined.

(** ** Order by pid *)

Lemma pid_determines_entry (procs : list ProcInfo) (a b : ProcInfo) :
  NoDup (pid <$> procs) -> a ∈ procs -> b ∈ procs -> pid a = pid b -> a = b.
Proof.
  intros Hnd Ha Hb Hab.
  apply list_elem_of_lookup in Ha as [i Hi].
  apply list_elem_of_lookup in Hb as [j Hj].
  assert (Hi' : (pid <$> procs) !! i = Some (pid a))
    by (by rewrite list_lookup_fmap, Hi).
  assert (Hj' : (pid <$> procs) !! j = Some (pid a))
    by (by rewrite list_lookup_fmap, Hj, Hab).
  assert (i = j) as -> by (by eapply NoDup_lookup).
  congruence.
Qed.

(** Two rearrangements of one another, both ordered by a relation that
    no two different elements satisfy both ways, are equal. *)
Lemma sorted_permutation_unique {A : Type} (R : A -> A -> Prop)
    (l1 l2 : list A) :
  (forall x1 x2, x1 ∈ l1 -> x2 ∈ l2 -> R x1 x2 -> R x2 x1 -> x1 = x2) ->
  StronglySorted R l1 -> StronglySorted R l2 -> l1 ≡ₚ l2 -> l1 = l2.
Proof.
  intros Hasym Hl1. revert l2 Hasym.
  induction Hl1 as [|x1 l1 Hl1 IH Hx1]; intros l2 Hasym Hl2 E.
  { symmetry. by apply Permutation_nil. }
  destruct Hl2 as [|x2 l2 Hl2 Hx2].
  { by apply Permutation_nil_r in E. }
  assert (x1 = x2) as ->.
  { rewrite Forall_forall in Hx1, Hx2.
    assert (Hx2' : x2 ∈ x1 :: l1) by (rewrite E; by left).
    assert (Hx1' : x1 ∈ x2 :: l2) by (rewrite <- E; by left).
    apply elem_of_cons in Hx1' as [?|Hx1']; [done|].
    apply elem_of_cons in Hx2' as [?|Hx2']; [done|].
    apply Hasym; [by left|by left|by apply Hx1|by apply Hx2]. }
  f_equal. apply IH; [|done|by apply (inj (cons x2))].
  intros y1 y2 Hy1 Hy2. apply Hasym; by right.
Qed.

Lemma sorted_distinct_strict (l : list ProcInfo) :
  StronglySorted (fun a b => pid a <= pid b) l -> NoDup (pid <$> l) ->
  StronglySorted Z.lt (pid <$> l).
Proof.
  induction 1 as [|a l Hs IH Ha]; intros Hnd; [constructor|].
  simpl in Hnd. apply NoDup_cons in Hnd as [Hna Hnd].
  simpl. constructor; [by apply IH|].
  apply Forall_fmap. rewrite Forall_forall in Ha. apply Forall_forall.
  intros b Hb. simpl.
  assert (pid a <> pid b).
  { intros E. apply Hna. rewrite E. apply list_elem_of_fmap. by exists b. }
  specialize (Ha b Hb). lia.
Qed.

(** X22.  In pid order the display does not depend on the library.
    When no two entries have the same pid, any two sorting procedures
    that keep the contract of [std::sort] return the same vector under
    the comparator of line 161, and it is in strictly increasing order
    of pid.  (Under the other two comparators entries that tie may come
    out in any order.) *)
Theorem pid_order_is_unique
    (sort1 sort2 :
       (ProcInfo -> ProcInfo -> bool) -> list ProcInfo -> list ProcInfo)
    (procs : list ProcInfo) :
  sort_contract sort1 -> sort_contract sort2 ->
  NoDup (pid <$> procs) ->
  rank sort1 BY_PID procs = rank sort2 BY_PID procs
  /\ StronglySorted Z.lt (pid <$> rank sort1 BY_PID procs).
Proof.
  intros H1 H2 Hnd. unfold rank. simpl comparator.
  destruct (H1 by_pid procs (swo_by_pid _)) as [Hperm1 Hs1].
  destruct (H2 by_pid procs (swo_by_pid _)) as [Hperm2 Hs2].
  assert (Hle : forall l, sorted_by by_pid l ->
                  StronglySorted (fun a b => pid a <= pid b) l).
  { intros l Hs. unfold sorted_by in Hs.
    induction Hs as [|a l Hs IH Ha]; constructor; [done|].
    rewrite Forall_forall in Ha. apply Forall_forall. intros b Hb.
    specialize (Ha b Hb). unfold by_pid in Ha. by apply Z.ltb_ge in Ha. }
  split.
  - apply (sorted_permutation_unique (fun a b => pid a <= pid b));
      [|by apply Hle|by apply Hle|by rewrite Hperm1, Hperm2].
    intros a b Ha Hb Hab Hba. rewrite Hperm1 in Ha. rewrite Hperm2 in Hb.
    apply (pid_determines_entry procs); [done..|lia].
  - apply sorted_distinct_strict; [by apply Hle|by rewrite Hperm1].
Qed.

Lemma pid_order_is_unique_witness :
  rank (@straight_insertion ProcInfo) BY_PID idle17
  = rank (fun comp l => straight_insertion comp (reverse l)) BY_PID idle17.
Proof.
  apply (pid_order_is_unique (@straight_insertion ProcInfo)
           (fun comp l => straight_insertion comp (reverse l)) idle17).
  - exact straight_insertion_contract.
  - intros comp l Hswo.
    destruct (straight_insertion_contract comp (reverse l)) as [Hperm Hs].
    { destruct Hswo as [H1 H2 H3].
      split; intros x; setoid_rewrite elem_of_reverse; eauto. }
    split; [|done]. by rewrite Hperm, reverse_Permutation.
  - apply (bool_decide_unpack _). vm_compute. exact I.
Defined.
